(** * celer: the path-continuation driver of [celer/homotopy.py]

    A shallow embedding of [_grp_converter], [celer_path], [PN_solver] and
    [mtl_path].

    - Python integers and NumPy [int64] intermediates are [Z]; the final
      [astype(np.int32)] of [_grp_converter] is the two's-complement wrap
      [wrap32]. NumPy computes in [int64]: the model is the code on integers
      that fit [int64], which the statements assume of [groups] wherever
      they go beyond values that fit [int32].
    - Floating-point scalars are IEEE values in the representation of
      [SpecFloat] (binary64 when canonical): comparisons are the IEEE ones,
      so NaN is unordered.
    - NumPy vectors are lists; [coefs] is the list of its columns (its
      slices along the last axis in [mtl_path]) and [thetas] the list of
      its rows, which is how the code addresses them.
    - Exceptions are an error type [exn]; the path functions are written in
      a state-and-error monad over the arrays they allocate and update, and
      they log every call of an inner solver and every warning.
    - The Cython kernels ([celer], [celer_grp], [newton_celer], [celer_mtl],
      [compute_Xw], [dscal_grp]) and the floating-point library code of
      NumPy ([norm], [np.geomspace], [np.sort]) are not part of the Python
      source: they are the fields of the records [kernels] and
      [mtl_kernels], over which every statement is quantified; what a
      statement needs of them is among its hypotheses. In [celer_path],
      [check_array] of scikit-learn and the norm of the columns of a group
      are taken as fallible, and [np.geomspace] raises on a zero [eps] and
      on a negative [n_alphas]; [mtl_path] is modelled on the arguments
      that [check_array] and [np.geomspace] accept.
    - [X] and [y] stand for the arrays [check_array] returns when it
      accepts them. [X_offset] and [X_scale], when given, have one entry
      per feature, so that [X_sparse_scaling] has [n_features] entries. *)

From Stdlib Require Import ZArith List Bool Lia Ascii String Permutation.
From Stdlib Require Import Floats.SpecFloat.
From Stdlib Require Import QArith Qabs Qminmax Lqa.
From stdpp Require Import base option list sorting.
Import ListNotations.

Local Open Scope Z_scope.

(** ** Exceptions and results *)

(** The exception classes the Python code of the module raises by itself,
    and [OtherError] for any other class, which library code may raise (a
    [LinAlgError] of [norm], say). *)
Inductive exn : Type :=
| ValueError
| ZeroDivisionError
| IndexError
| NameError
| OtherError.

Inductive result (A : Type) : Type :=
| Ok (a : A)
| Raise (e : exn).
Arguments Ok {A} a.
Arguments Raise {A} e.

(** ** NumPy helpers on integer arrays *)

Module Np.

(** [np.arange(n)]: empty when [n <= 0]. *)
Definition arange (n : Z) : list Z :=
  map Z.of_nat (seq 0 (Z.to_nat n)).

(** [np.cumsum]: running totals, started from [acc]. *)
Fixpoint cumsum_from (acc : Z) (l : list Z) : list Z :=
  match l with
  | [] => []
  | x :: l' => (acc + x) :: cumsum_from (acc + x) l'
  end.

Definition cumsum (l : list Z) : list Z := cumsum_from 0 l.

(** Conversion of one integer to [np.int32]: wrap modulo [2^32]. *)
Definition wrap32 (z : Z) : Z :=
  (z + 2147483648) mod 4294967296 - 2147483648.

Definition astype_int32 (l : list Z) : list Z := map wrap32 l.

Definition int32_range (z : Z) : Prop :=
  -2147483648 <= z <= 2147483647.

Definition int64_range (z : Z) : Prop :=
  -9223372036854775808 <= z <= 9223372036854775807.

End Np.

(** ** [_grp_converter] *)

(** The [groups] argument: an [int], a list whose elements are [int]s, a
    list whose elements are lists of [int]s, or anything else ([None], a
    tuple, an array, ...). Python's empty list [[]] is [GSizes []] as well as
    [GIndexLists []]; both raise when [groups[0]] is evaluated.

    The arrays are built in [int64], where NumPy's sums and products wrap
    without notice, and cast to [int32] at the end: on integers that fit
    [int64] the result is the exact value wrapped once, as below. An
    integer beyond [int64] takes NumPy through [float64] or makes it raise
    [OverflowError]; the model does not follow it there, and [groups_int64]
    is the hypothesis that keeps it away. *)
Inductive groups_t : Type :=
| GInt (grp_size : Z)
| GSizes (sizes : list Z)
| GIndexLists (ls : list (list Z))
| GOther.

Definition _grp_converter (groups : groups_t) (n_features : Z)
  : result (list Z * list Z) :=
  match groups with
  | GInt grp_size =>
      if grp_size =? 0 then Raise ZeroDivisionError
      else if negb (n_features mod grp_size =? 0) then Raise ValueError
      else
        let n_groups := n_features / grp_size in
        let grp_ptr := map (Z.mul grp_size) (Np.arange (n_groups + 1)) in
        let grp_indices := Np.arange n_features in
        Ok (Np.astype_int32 grp_ptr, Np.astype_int32 grp_indices)
  | GSizes [] => Raise IndexError
  | GSizes sizes =>
      let grp_indices := Np.astype_int32 (Np.arange n_features) in
      let grp_ptr := Np.cumsum (0 :: sizes) in
      Ok (Np.astype_int32 grp_ptr, Np.astype_int32 grp_indices)
  | GIndexLists [] => Raise IndexError
  | GIndexLists ls =>
      let grp_sizes := map (fun l => Z.of_nat (length l)) ls in
      let grp_ptr := Np.cumsum (0 :: grp_sizes) in
      let grp_indices := concat ls in
      Ok (Np.astype_int32 grp_ptr, Np.astype_int32 grp_indices)
  | GOther => Raise ValueError
  end.

(** Every integer of [groups] fits [int64]. *)
Definition groups_int64 (groups : groups_t) : Prop :=
  match groups with
  | GInt k => Np.int64_range k
  | GSizes sizes => Forall Np.int64_range sizes
  | GIndexLists ls => Forall (Forall Np.int64_range) ls
  | GOther => True
  end.

(** ** The groups of a partition *)

(** [a[s:e]] on a one-dimensional array: a negative bound counts from the
    end, and both bounds are clipped to the array. *)
Definition slice_bound (len i : Z) : Z :=
  if i <? 0 then Z.max 0 (i + len) else Z.min i len.

Definition slice {A : Type} (l : list A) (s e : Z) : list A :=
  let len := Z.of_nat (length l) in
  take (Z.to_nat (slice_bound len e - slice_bound len s))
       (drop (Z.to_nat (slice_bound len s)) l).

(** Line 153: [n_groups = len(grp_ptr) - 1]. *)
Definition n_groups (grp_ptr : list Z) : Z := Z.of_nat (length grp_ptr) - 1.

(** Lines 187 and 220: the features of group [g],
    [grp_indices[grp_ptr[g]:grp_ptr[g + 1]]]. *)
Definition group_features (grp_ptr grp_indices : list Z) (g : nat)
  : result (list Z) :=
  match grp_ptr !! g, grp_ptr !! S g with
  | Some s, Some e => Ok (slice grp_indices s e)
  | _, _ => Raise IndexError
  end.

(** The groups the loops [for g in range(n_groups)] go through. *)
Definition groups_of (grp_ptr grp_indices : list Z)
  : list (result (list Z)) :=
  map (group_features grp_ptr grp_indices)
      (seq 0 (Z.to_nat (n_groups grp_ptr))).

(** [a[i]] on an axis of length [len] is defined for [-len <= i < len]. *)
Definition valid_index (len i : Z) : bool :=
  (- len <=? i) && (i <? len).

(** [X[:, cols]]: an index outside the columns of [X] raises. *)
Definition select_columns (n_features : Z) (cols : list Z)
  : result (list Z) :=
  if forallb (valid_index n_features) cols then Ok cols
  else Raise IndexError.

(** Lines 187 and 220: [X_g = X[:, grp_indices[grp_ptr[g]:grp_ptr[g + 1]]]],
    by the columns it is made of. *)
Definition group_columns (n_features : Z) (grp_ptr grp_indices : list Z)
    (g : nat) : result (list Z) :=
  match group_features grp_ptr grp_indices g with
  | Ok cols => select_columns n_features cols
  | Raise e => Raise e
  end.

(** [range(s, e)]. *)
Definition py_range (s e : Z) : list Z :=
  map (fun i => s + Z.of_nat i) (seq 0 (Z.to_nat (e - s))).

(** Lines 226 to 232, for one pair [j1], [j2]: the entry of [gram], an
    [m] by [m] matrix, then [X_sparse_scaling[j1]], [X_sparse_scaling[j2]]
    (of [n_features] entries) and [X_indptr[j2]], [X_indptr[j2 + 1]],
    [X_indptr[j1]], [X_indptr[j1 + 1]] (of [n_features + 1] entries) are
    all read by position. *)
Definition gram_index_ok (n_features m s j1 j2 : Z) : bool :=
  valid_index m (j1 - s) && valid_index m (j2 - s) &&
  valid_index n_features j1 && valid_index n_features j2 &&
  valid_index (n_features + 1) j2 && valid_index (n_features + 1) (j2 + 1) &&
  valid_index (n_features + 1) j1 && valid_index (n_features + 1) (j1 + 1).

(** Lines 224 to 232: the two loops over [range(grp_ptr[g],
    grp_ptr[g + 1])] go through when no index is out of range. *)
Definition gram_loops_ok (n_features m s e : Z) : bool :=
  forallb (fun j1 =>
             forallb (gram_index_ok n_features m s j1) (py_range s e))
          (py_range s e).

(** The results of the iterations of a loop, up to the first one that
    raises. *)
Fixpoint collect {B : Type} (l : list (result B)) : result (list B) :=
  match l with
  | [] => Ok []
  | Ok b :: l' =>
      match collect l' with
      | Ok bs => Ok (b :: bs)
      | Raise e => Raise e
      end
  | Raise e :: _ => Raise e
  end.

(** ** Floating-point scalars and arrays *)

Definition val : Type := spec_float.
Definition arr : Type := list val.

Definition zero : val := S754_zero false.

(** [1.0] and [-1.0] in binary64 (mantissa [2^52], exponent [-52]). *)
Definition one : val := S754_finite false 4503599627370496 (-52).
Definition minus_one : val := S754_finite true 4503599627370496 (-52).

Definition is_nan (x : val) : bool :=
  match x with
  | S754_nan => true
  | _ => false
  end.

(** [a > b] on floats, false as soon as one side is NaN. *)
Definition fgt (a b : val) : bool := SFltb b a.

(** [a >= b] on floats. *)
Definition fge (a b : val) : bool := SFleb b a.

(** [x != 0]: true for NaN, false for both zeros. *)
Definition nonzero (x : val) : bool := negb (SFeqb x zero).

(** [len(np.where(w != 0)[0])] and [(w != 0.).sum()]. *)
Definition count_nonzero (w : arr) : Z :=
  Z.of_nat (length (List.filter nonzero w)).

Definition zeros (n : nat) : arr := repeat zero n.

(** The order [np.sort] uses on floats: the IEEE [<], NaN after the rest. *)
Definition sort_lt (a b : val) : bool :=
  SFltb a b || (is_nan b && negb (is_nan a)).

Fixpoint sort_insert (x : val) (l : list val) : list val :=
  match l with
  | [] => [x]
  | y :: l' => if sort_lt x y then x :: y :: l' else y :: sort_insert x l'
  end.

(** One sort of this order, by stable insertion. [np.sort] itself is
    library code, a field of the kernels: it need be neither stable nor
    keep the sign of a zero among equal zeros. *)
Definition insertion_sort (a : list val) : list val :=
  foldl (fun acc x => sort_insert x acc) [] a.

(** [np.sort(alphas)[::-1]], for [np.sort] as [sort]. *)
Definition sort_descending (sort : list val -> list val)
    (alphas : list val) : list val :=
  reverse (sort alphas).

(** ** Problem names *)

Inductive pb_t : Type := LASSO | LOGREG | GRPLASSO.

Definition lower_ascii (c : ascii) : ascii :=
  let n := nat_of_ascii c in
  if (Nat.leb 65 n && Nat.leb n 90)%bool then ascii_of_nat (n + 32) else c.

(** [str.lower()]; no character outside ASCII lowers to a letter of the three
    problem names, so the byte-wise map decides the same membership test. *)
Fixpoint lower (s : string) : string :=
  match s with
  | EmptyString => EmptyString
  | String c s' => String (lower_ascii c) (lower s')
  end.

(** [set(y) - set([-1.0, 1.0])] is non-empty. *)
Definition bad_label (x : val) : bool :=
  negb (SFeqb x minus_one || SFeqb x one).

Definition has_bad_label (y : arr) : bool := existsb bad_label y.

(** ** Arrays in memory

    The path functions allocate their result arrays once, then bind local
    names to arrays and hand these to kernels that update them in place. A
    name is bound to a [ref]: a column of [coefs], a row of [thetas], or an
    array of its own on the heap. The element type [A] is a vector for
    [celer_path] and a matrix for [mtl_path]. *)

Inductive ref : Type :=
| RCol (t : nat)
| RRow (t : nat)
| RBuf (l : nat).

Inductive solver_id : Type :=
| Celer_grp
| Celer
| Newton_celer
| Celer_mtl.

(** One call of an inner solver: the grid index, the arrays it was handed
    (by reference) and what they held then, [alpha] and [p0], and what it
    returned (coefficients, dual point, duality gaps). *)
Record solve_call (A : Type) : Type := {
  e_t : nat;
  e_solver : solver_id;
  e_alpha : val;
  e_w : ref;
  e_Xw : option ref;
  e_theta : option ref;
  e_w_in : A;
  e_Xw_in : option A;
  e_theta_in : option A;
  e_p0 : Z;
  e_sol0 : A;
  e_sol1 : A;
  e_gaps : list val
}.
Arguments e_t {A} _.
Arguments e_solver {A} _.
Arguments e_alpha {A} _.
Arguments e_w {A} _.
Arguments e_Xw {A} _.
Arguments e_theta {A} _.
Arguments e_w_in {A} _.
Arguments e_Xw_in {A} _.
Arguments e_theta_in {A} _.
Arguments e_p0 {A} _.
Arguments e_sol0 {A} _.
Arguments e_sol1 {A} _.
Arguments e_gaps {A} _.

Inductive event (A : Type) : Type :=
| Solve (c : solve_call A)
| Warn (t : nat).
Arguments Solve {A} c.
Arguments Warn {A} t.

Record store (A : Type) : Type := {
  coefs : list A;
  thetas : list A;
  dual_gaps : list val;
  n_iters : list Z;
  heap : list A;
  trace : list (event A)
}.
Arguments coefs {A} _.
Arguments thetas {A} _.
Arguments dual_gaps {A} _.
Arguments n_iters {A} _.
Arguments heap {A} _.
Arguments trace {A} _.

(** A computation returns its outcome together with the memory it leaves,
    also when it raises: what was done before the exception stays done. *)
Definition M (A B : Type) : Type := store A -> result B * store A.

Definition ret {A B : Type} (b : B) : M A B := fun st => (Ok b, st).

Definition bind {A B C : Type} (m : M A B) (k : B -> M A C) : M A C :=
  fun st =>
    match m st with
    | (Ok b, st') => k b st'
    | (Raise e, st') => (Raise e, st')
    end.

Definition raise {A B : Type} (e : exn) : M A B := fun st => (Raise e, st).

(** A computation that leaves the memory alone. *)
Definition lift {A B : Type} (r : result B) : M A B := fun st => (r, st).

Notation "x <~ m ;; k" := (bind m (fun x => k))
  (at level 100, m at next level, right associativity).
Notation "m ;;; k" := (bind m (fun _ => k))
  (at level 100, right associativity).

Section Memory.
Context {A : Type}.

Definition with_coefs (f : list A -> list A) (st : store A) : store A :=
  {| coefs := f (coefs st); thetas := thetas st;
     dual_gaps := dual_gaps st; n_iters := n_iters st;
     heap := heap st; trace := trace st |}.

Definition with_thetas (f : list A -> list A) (st : store A) : store A :=
  {| coefs := coefs st; thetas := f (thetas st);
     dual_gaps := dual_gaps st; n_iters := n_iters st;
     heap := heap st; trace := trace st |}.

Definition with_dual_gaps (f : list val -> list val) (st : store A)
  : store A :=
  {| coefs := coefs st; thetas := thetas st;
     dual_gaps := f (dual_gaps st); n_iters := n_iters st;
     heap := heap st; trace := trace st |}.

Definition with_n_iters (f : list Z -> list Z) (st : store A) : store A :=
  {| coefs := coefs st; thetas := thetas st;
     dual_gaps := dual_gaps st; n_iters := f (n_iters st);
     heap := heap st; trace := trace st |}.

Definition with_heap (f : list A -> list A) (st : store A) : store A :=
  {| coefs := coefs st; thetas := thetas st;
     dual_gaps := dual_gaps st; n_iters := n_iters st;
     heap := f (heap st); trace := trace st |}.

Definition with_trace (f : list (event A) -> list (event A))
    (st : store A) : store A :=
  {| coefs := coefs st; thetas := thetas st;
     dual_gaps := dual_gaps st; n_iters := n_iters st;
     heap := heap st; trace := f (trace st) |}.

Definition empty_store : store A :=
  {| coefs := []; thetas := []; dual_gaps := []; n_iters := [];
     heap := []; trace := [] |}.

(** Indexing a list held in a local name; out of range raises. *)
Definition index {B : Type} (l : list B) (i : nat) : M A B :=
  match l !! i with
  | Some x => ret x
  | None => raise IndexError
  end.

(** Reading a local name that may not have been bound yet. *)
Definition name {B : Type} (x : option B) : M A B :=
  match x with
  | Some b => ret b
  | None => raise NameError
  end.

(** Every expression that builds a new array. *)
Definition alloc (a : A) : M A ref :=
  fun st => (Ok (RBuf (length (heap st))), with_heap (fun h => h ++ [a]) st).

Definition read (r : ref) : M A A :=
  fun st =>
    match r with
    | RCol t => index (coefs st) t st
    | RRow t => index (thetas st) t st
    | RBuf l => index (heap st) l st
    end.

(** [r.copy()]. *)
Definition copy (r : ref) : M A ref := a <~ read r ;; alloc a.

(** [l[t] = x] on a list of length [len]. *)
Definition assign (len : nat) (t : nat) (upd : store A -> store A)
  : M A unit :=
  fun st =>
    if decide (t < len)%nat then (Ok tt, upd st) else (Raise IndexError, st).

Definition set_coefs (t : nat) (a : A) : M A unit :=
  fun st => assign (length (coefs st)) t (with_coefs (<[t:=a]>)) st.

Definition set_thetas (t : nat) (a : A) : M A unit :=
  fun st => assign (length (thetas st)) t (with_thetas (<[t:=a]>)) st.

Definition set_dual_gaps (t : nat) (g : val) : M A unit :=
  fun st => assign (length (dual_gaps st)) t (with_dual_gaps (<[t:=g]>)) st.

Definition set_n_iters (t : nat) (n : Z) : M A unit :=
  fun st => assign (length (n_iters st)) t (with_n_iters (<[t:=n]>)) st.

Definition set_heap (l : nat) (a : A) : M A unit :=
  fun st => assign (length (heap st)) l (with_heap (<[l:=a]>)) st.

(** What a kernel does to an array it was handed: overwrite it in place,
    wherever the reference points. *)
Definition write (r : ref) (a : A) : M A unit :=
  match r with
  | RCol t => set_coefs t a
  | RRow t => set_thetas t a
  | RBuf l => set_heap l a
  end.

Definition emit (e : event A) : M A unit :=
  fun st => (Ok tt, with_trace (fun tr => tr ++ [e]) st).

Definition get_dual_gap (t : nat) : M A val :=
  fun st => index (dual_gaps st) t st.

Definition get_store : M A (store A) := fun st => (Ok st, st).

(** [for t in range(n)], threading the local names [x] rebound by the
    body. *)
Fixpoint for_range {L : Type} (body : nat -> L -> M A L)
    (t : nat) (n : nat) (x : L) : M A L :=
  match n with
  | O => ret x
  | S n' => x' <~ body t x ;; for_range body (S t) n' x'
  end.

End Memory.

(** ** Kernels of [celer_path]

    What an inner solver leaves behind: the contents of the arrays it was
    handed and updated in place ([m_w], [m_Xw], [m_theta]) and the tuple it
    returns ([sol0], [sol1], [sol2]: coefficients, dual point, the duality
    gaps of its outer iterations). *)
Record sol : Type := {
  m_w : arr;
  m_Xw : arr;
  m_theta : arr;
  sol0 : arr;
  sol1 : arr;
  sol2 : list val
}.

(** The partition computed by [_grp_converter], bound only for the group
    Lasso: [(grp_ptr, grp_indices)]. *)
Definition partition : Type := option (list Z * list Z).

(** The numerical code [celer_path] calls, for fixed [X], [y], [tol],
    [max_iter], [max_epochs], [gap_freq], [prune], verbosity and sparse
    scaling; each is a function of the remaining arguments. *)
Record kernels : Type := {
  (** [check_array] on [X], then on [y] (lines 159 to 162): it raises on
      the arrays it rejects *)
  check_array : result unit;
  (** [norm(X.T @ y, ord=inf) / n_samples], or [np.max(X.T.dot(y)) /
      n_samples] when [positive] *)
  alpha_max_lasso : bool -> val;
  (** [norm(X.T @ y, ord=inf) / 2.] *)
  alpha_max_logreg : val;
  (** the maximum over groups of [norm(X_g.T @ y, ord=2)], over [n_samples] *)
  alpha_max_grplasso : partition -> val;
  (** [alpha_max * np.geomspace(1, eps, n_alphas)] *)
  scaled_geomspace : val -> val -> Z -> list val;
  (** [np.sort] *)
  np_sort : list val -> list val;
  (** the norm of a group, lines 234 and 236: [norm(X_g, ord=2)] for a
      dense [X], [np.sqrt(norm(gram, ord=2))] for a sparse one, from the
      columns [X_g] is made of and the bounds [grp_ptr[g]] and
      [grp_ptr[g + 1]] of the group; [norm] raises on some arguments *)
  group_norm : list Z -> Z -> Z -> result val;
  (** [compute_Xw]: the contents it leaves in [Xw], from [Xw] and [w] *)
  compute_Xw : pb_t -> arr -> arr -> arr;
  (** the first dual point, from [alpha] and [Xw] (lines 269 to 281) *)
  dual_init : pb_t -> partition -> val -> arr -> arr;
  (** [celer_grp], from [alpha], [w], [Xw], [theta] and [p0] *)
  celer_grp : partition -> val -> arr -> arr -> arr -> Z -> sol;
  (** [celer], from [pb], [alpha], [w], [Xw], [theta] and [p0] *)
  celer : pb_t -> val -> arr -> arr -> arr -> Z -> sol;
  (** [newton_celer], from [alpha], [w] and [p0]; it is handed [w] only *)
  newton_celer : val -> arr -> Z -> sol
}.

(** The arguments of [celer_path] the driver itself looks at. [X] is present
    through its shape and through [sparse.issparse(X)]; [X] and [y] are
    taken as [check_array] returns them. *)
Record celer_args : Type := {
  a_n_samples : nat;
  a_n_features : nat;
  a_is_sparse : bool;
  a_y : arr;
  a_pb : string;
  a_eps : val;
  a_n_alphas : Z;
  a_alphas : option (list val);
  a_coef_init : option arr;
  a_p0 : Z;
  a_tol : val;
  a_groups : option groups_t;
  a_return_thetas : bool;
  a_use_PN : bool;
  a_return_n_iter : bool;
  a_positive : bool
}.

(** The returned tuple: [alphas, coefs, dual_gaps], then [thetas] and
    [n_iters] when asked for. *)
Record path_results : Type := {
  r_alphas : list val;
  r_coefs : list arr;
  r_dual_gaps : list val;
  r_thetas : option (list arr);
  r_n_iters : option (list Z)
}.

(** Lines 138 to 155: the problem name, the labels, the partition. *)
Definition validate (a : celer_args) : result (pb_t * partition) :=
  let pb := lower (a_pb a) in
  if negb (String.eqb pb "lasso" || String.eqb pb "logreg"
           || String.eqb pb "grouplasso")
  then Raise ValueError
  else if String.eqb pb "lasso" then Ok (LASSO, None)
  else if String.eqb pb "logreg" then
    if has_bad_label (a_y a) then Raise ValueError else Ok (LOGREG, None)
  else if String.eqb pb "grouplasso" then
    match a_groups a with
    | None => Raise ValueError
    | Some groups =>
        match _grp_converter groups (Z.of_nat (a_n_features a)) with
        | Ok grp => Ok (GRPLASSO, Some grp)
        | Raise e => Raise e
        end
    end
  else Raise ValueError.

(** Lines 176 to 189: [alpha_max]. For the group Lasso the loop selects
    the columns of every group before their norm is taken. *)
Definition alpha_max (K : kernels) (a : celer_args) (pb : pb_t)
    (grp : partition) : result val :=
  match pb with
  | LASSO => Ok (alpha_max_lasso K (a_positive a))
  | LOGREG => Ok (alpha_max_logreg K)
  | GRPLASSO =>
      match grp with
      | None => Raise NameError
      | Some (grp_ptr, grp_indices) =>
          match collect
                  (map (group_columns (Z.of_nat (a_n_features a))
                          grp_ptr grp_indices)
                       (seq 0 (Z.to_nat (n_groups grp_ptr)))) with
          | Ok _ => Ok (alpha_max_grplasso K grp)
          | Raise e => Raise e
          end
      end
  end.

(** [np.geomspace(1, eps, n_alphas)] raises [ValueError] when [eps] is
    zero (a geometric sequence cannot include zero) and when [n_alphas] is
    negative. *)
Definition geomspace_rejects (eps : val) (n_alphas : Z) : bool :=
  SFeqb eps zero || (n_alphas <? 0).

(** Lines 174 to 196: the grid. *)
Definition make_alphas (K : kernels) (a : celer_args) (pb : pb_t)
    (grp : partition) : result (list val) :=
  match a_alphas a with
  | None =>
      match alpha_max K a pb grp with
      | Ok alpha_max =>
          if geomspace_rejects (a_eps a) (a_n_alphas a)
          then Raise ValueError
          else Ok (scaled_geomspace K alpha_max (a_eps a) (a_n_alphas a))
      | Raise e => Raise e
      end
  | Some alphas => Ok (sort_descending (np_sort K) alphas)
  end.

(** Lines 219 to 236, for the group [g]: its columns are selected, the
    loops that correct [gram] run for a sparse [X], and the norm is
    taken. *)
Definition group_norm_at (K : kernels) (a : celer_args)
    (grp_ptr grp_indices : list Z) (g : nat) : result val :=
  match grp_ptr !! g, grp_ptr !! S g with
  | Some s, Some e =>
      match select_columns (Z.of_nat (a_n_features a))
              (slice grp_indices s e) with
      | Ok cols =>
          if a_is_sparse a
             && negb (gram_loops_ok (Z.of_nat (a_n_features a))
                        (Z.of_nat (length cols)) s e)
          then Raise IndexError
          else group_norm K cols s e
      | Raise ex => Raise ex
      end
  | _, _ => Raise IndexError
  end.

(** Lines 216 to 242: the norms handed to the solvers. For the group Lasso
    [np.zeros(n_groups)] raises when [n_groups] is negative, then the norms
    of the groups are taken in turn; otherwise the Cython routine
    [compute_norms_X_col] fills [norms_X_col]. The norms are local arrays,
    which only the solvers see. *)
Definition group_norms (K : kernels) (a : celer_args) (pb : pb_t)
    (grp : partition) : result unit :=
  match pb with
  | GRPLASSO =>
      match grp with
      | None => Raise NameError
      | Some (grp_ptr, grp_indices) =>
          if n_groups grp_ptr <? 0 then Raise ValueError
          else
            match collect
                    (map (group_norm_at K a grp_ptr grp_indices)
                         (seq 0 (Z.to_nat (n_groups grp_ptr)))) with
            | Ok _ => Ok tt
            | Raise e => Raise e
            end
      end
  | _ => Ok tt
  end.

(** Lines 198 to 203: the result arrays, one column (row, entry) per grid
    point. *)
Definition allocate {A : Type} (c th : A) (n_alphas : nat)
    (return_n_iter : bool) : M A unit :=
  fun st =>
    (Ok tt,
     {| coefs := repeat c n_alphas;
        thetas := repeat th n_alphas;
        dual_gaps := repeat zero n_alphas;
        n_iters := if return_n_iter then repeat 0 n_alphas else [];
        heap := heap st; trace := trace st |}).

(** [sol[2][-1]]. *)
Definition last_gap {A : Type} (s : sol) : M A val :=
  match last (sol2 s) with
  | Some g => ret g
  | None => raise IndexError
  end.

(** The names the loop body reads from the previous iteration. *)
Record locals : Type := {
  l_Xw : option ref;
  l_p0 : Z
}.

Section CelerPath.
Variable K : kernels.
Variable a : celer_args.
Variable pb : pb_t.
Variable grp : partition.
Variable alphas : list val.

(** A call of a kernel that is handed [w], [Xw] and [theta]: it reads
    them, and what it leaves in them is written where they live. *)
Definition call3 (id : solver_id) (kernel : arr -> arr -> arr -> Z -> sol)
    (t : nat) (alpha : val) (w Xw theta : ref) (p0 : Z) : M arr sol :=
  wv <~ read w ;;
  xv <~ read Xw ;;
  tv <~ read theta ;;
  let s := kernel wv xv tv p0 in
  emit (Solve {| e_t := t; e_solver := id; e_alpha := alpha; e_w := w;
                 e_Xw := Some Xw; e_theta := Some theta; e_w_in := wv;
                 e_Xw_in := Some xv; e_theta_in := Some tv;
                 e_p0 := p0; e_sol0 := sol0 s; e_sol1 := sol1 s;
                 e_gaps := sol2 s |}) ;;;
  write w (m_w s) ;;;
  write Xw (m_Xw s) ;;;
  write theta (m_theta s) ;;;
  ret s.

(** A call of a kernel that is handed [w] only. *)
Definition call1 (id : solver_id) (kernel : arr -> Z -> sol)
    (t : nat) (alpha : val) (w : ref) (p0 : Z) : M arr sol :=
  wv <~ read w ;;
  let s := kernel wv p0 in
  emit (Solve {| e_t := t; e_solver := id; e_alpha := alpha; e_w := w;
                 e_Xw := None; e_theta := None; e_w_in := wv;
                 e_Xw_in := None; e_theta_in := None;
                 e_p0 := p0; e_sol0 := sol0 s; e_sol1 := sol1 s;
                 e_gaps := sol2 s |}) ;;;
  write w (m_w s) ;;;
  ret s.

(** [coefs[:, t], thetas[t], dual_gaps[t] = sol[0], sol[1], sol[2][-1]]:
    the right-hand side first, then the three stores. *)
Definition record_sol (t : nat) (s : sol) : M arr unit :=
  g <~ last_gap s ;;
  set_coefs t (sol0 s) ;;;
  set_thetas t (sol1 s) ;;;
  set_dual_gaps t g.

(** Lines 252 to 281: the warm start of grid point [t]. It binds [w] and
    [theta], rebinds [Xw] at the first grid point only, and sets [p0]. *)
Definition warm_start (t : nat) (alpha : val) (loc : locals)
  : M arr (ref * ref * locals) :=
  if (0 <? t)%nat then
    w <~ copy (RCol (t - 1)) ;;
    theta <~ copy (RRow (t - 1)) ;;
    wv <~ read w ;;
    ret (w, theta, {| l_Xw := l_Xw loc;
                      l_p0 := Z.max (count_nonzero wv) 1 |})
  else
    wx <~ match a_coef_init a with
          | Some coef_init =>
              w <~ alloc coef_init ;;
              wv <~ read w ;;
              Xw <~ alloc (zeros (a_n_samples a)) ;;
              xv <~ read Xw ;;
              write Xw (compute_Xw K pb xv wv) ;;;
              ret (w, Xw, Z.max (count_nonzero wv) (l_p0 loc))
          | None =>
              w <~ alloc (zeros (a_n_features a)) ;;
              Xw <~ alloc (match pb with
                           | LOGREG => zeros (a_n_samples a)
                           | _ => a_y a
                           end) ;;
              ret (w, Xw, l_p0 loc)
          end ;;
    xv <~ read (wx.1.2) ;;
    theta <~ alloc (dual_init K pb grp alpha xv) ;;
    ret (wx.1.1, theta, {| l_Xw := Some (wx.1.2); l_p0 := wx.2 |}).

(** Lines 283 to 303: the inner solve of grid point [t]. *)
Definition inner_solve (t : nat) (alpha : val) (w theta : ref)
    (loc : locals) : M arr sol :=
  match pb with
  | GRPLASSO =>
      Xw <~ name (l_Xw loc) ;;
      s <~ call3 Celer_grp (celer_grp K grp alpha) t alpha w Xw theta
             (l_p0 loc) ;;
      record_sol t s ;;;
      ret s
  | _ =>
      if match pb with
         | LASSO => true
         | LOGREG => negb (a_use_PN a)
         | GRPLASSO => false
         end
      then
        Xw <~ name (l_Xw loc) ;;
        call3 Celer (celer K pb alpha) t alpha w Xw theta (l_p0 loc)
      else
        call1 Newton_celer (newton_celer K alpha) t alpha w (l_p0 loc)
  end.

(** The body of the loop over the grid, lines 246 to 314. *)
Definition celer_step (t : nat) (loc : locals) : M arr locals :=
  alpha <~ index alphas t ;;
  ws <~ warm_start t alpha loc ;;
  s <~ inner_solve t alpha (ws.1.1) (ws.1.2) (ws.2) ;;
  record_sol t s ;;;
  (if a_return_n_iter a
   then set_n_iters t (Z.of_nat (length (sol2 s)))
   else ret tt) ;;;
  gap <~ get_dual_gap t ;;
  (if fgt gap (a_tol a) then emit (Warn t) else ret tt) ;;;
  ret (ws.2).

(** Lines 196 to 322. *)
Definition celer_loop : M arr path_results :=
  let n_alphas := length alphas in
  allocate (zeros (a_n_features a)) (zeros (a_n_samples a)) n_alphas
    (a_return_n_iter a) ;;;
  lift (group_norms K a pb grp) ;;;
  for_range celer_step 0 n_alphas {| l_Xw := None; l_p0 := a_p0 a |} ;;;
  st <~ get_store ;;
  ret {| r_alphas := alphas;
         r_coefs := coefs st;
         r_dual_gaps := dual_gaps st;
         r_thetas := if a_return_thetas a then Some (thetas st) else None;
         r_n_iters := if a_return_n_iter a then Some (n_iters st)
                      else None |}.

End CelerPath.

Definition celer_path (K : kernels) (a : celer_args)
  : result path_results * store arr :=
  match validate a with
  | Raise e => (Raise e, empty_store)
  | Ok (pb, grp) =>
      match check_array K with
      | Raise e => (Raise e, empty_store)
      | Ok _ =>
          match make_alphas K a pb grp with
          | Raise e => (Raise e, empty_store)
          | Ok alphas => celer_loop K a pb grp alphas empty_store
          end
      end
  end.

(** ** [mtl_path] *)

(** A two-dimensional array: its rows and its number of columns (which the
    rows alone do not give when there is none). *)
Record mat : Type := {
  n_cols : nat;
  rows : list arr
}.

Definition mat_zeros (r c : nat) : mat :=
  {| n_cols := c; rows := repeat (zeros c) r |}.

(** [np.swapaxes(m, 0, 1)] on one slice of the last axis. *)
Definition swapaxes (m : mat) : mat :=
  {| n_cols := length (rows m);
     rows := map (fun j => map (fun r => nth j r zero) (rows m))
                 (seq 0 (n_cols m)) |}.

Definition first_column (W : mat) : arr :=
  map (fun r => nth 0 r zero) (rows W).

(** [W[:, 0]]. *)
Definition column0 {A : Type} (W : mat) : M A arr :=
  if decide (0 < n_cols W)%nat
  then ret (first_column W)
  else raise IndexError.

(** What [celer_mtl] leaves in [W], [R] and [theta], and its return tuple:
    coefficients, dual point, duality gap. *)
Record sol_mtl : Type := {
  mm_W : mat;
  mm_R : mat;
  mm_theta : mat;
  msol0 : mat;
  msol1 : mat;
  msol2 : val
}.

(** The numerical code [mtl_path] calls, for fixed [X], [Y] and solver
    options. *)
Record mtl_kernels : Type := {
  (** [np.max(norm(X.T @ Y, ord=2, axis=1)) / n_samples] *)
  alpha_max_mtl : val;
  (** [alpha_max * np.geomspace(1, eps, n_alphas)] *)
  mtl_scaled_geomspace : val -> val -> Z -> list val;
  (** [np.sort] *)
  mtl_np_sort : list val -> list val;
  (** [celer_mtl], from [alpha], [W], [R], [theta] and [p0] *)
  celer_mtl : val -> mat -> mat -> mat -> Z -> sol_mtl
}.

(** The arguments of [mtl_path] the driver itself looks at. [coef_init] is
    given by its slices [coef_init[:, :, t]]. *)
Record mtl_args : Type := {
  b_n_samples : nat;
  b_n_features : nat;
  b_Y : mat;
  b_eps : val;
  b_n_alphas : Z;
  b_alphas : option (list val);
  b_p0 : Z;
  b_return_thetas : bool;
  b_coef_init : option (list mat)
}.

Record mtl_results : Type := {
  q_alphas : list val;
  q_coefs : list mat;
  q_gaps : list val;
  q_thetas : option (list mat)
}.

Section MtlPath.
Variable K : mtl_kernels.
Variable b : mtl_args.

Definition mtl_alphas : list val :=
  match b_alphas b with
  | None => mtl_scaled_geomspace K (alpha_max_mtl K) (b_eps b) (b_n_alphas b)
  | Some alphas => sort_descending (mtl_np_sort K) alphas
  end.

(** Lines 388 to 394. *)
Definition mtl_allocate (n_alphas : nat) : M mat unit :=
  fun st =>
    let n_tasks := n_cols (b_Y b) in
    (Ok tt,
     {| coefs := match b_coef_init b with
                 | None => repeat (mat_zeros (b_n_features b) n_tasks)
                             n_alphas
                 | Some coef_init => map swapaxes coef_init
                 end;
        thetas := repeat (mat_zeros (b_n_samples b) n_tasks) n_alphas;
        dual_gaps := repeat zero n_alphas;
        n_iters := [];
        heap := heap st; trace := trace st |}).

Definition call_mtl (t : nat) (alpha : val) (W R theta : ref) (p_t : Z)
  : M mat sol_mtl :=
  wv <~ read W ;;
  rv <~ read R ;;
  tv <~ read theta ;;
  let s := celer_mtl K alpha wv rv tv p_t in
  emit (Solve {| e_t := t; e_solver := Celer_mtl; e_alpha := alpha;
                 e_w := W; e_Xw := Some R; e_theta := Some theta;
                 e_w_in := wv; e_Xw_in := Some rv; e_theta_in := Some tv;
                 e_p0 := p_t; e_sol0 := msol0 s;
                 e_sol1 := msol1 s; e_gaps := [msol2 s] |}) ;;;
  write W (mm_W s) ;;;
  write R (mm_R s) ;;;
  write theta (mm_theta s) ;;;
  ret s.

(** The body of the loop over the grid, lines 403 to 422; [R] and [theta]
    are the two arrays bound before the loop. *)
Definition mtl_step (alphas : list val) (R theta : ref) (t : nat)
    (_ : unit) : M mat unit :=
  Wp <~ (if (0 <? t)%nat then
           W <~ copy (RCol (t - 1)) ;;
           wv <~ read W ;;
           c <~ column0 wv ;;
           ret (W, Z.max (count_nonzero c) (b_p0 b))
         else
           W <~ copy (RCol t) ;;
           ret (W, 10)) ;;
  alpha <~ index alphas t ;;
  s <~ call_mtl t alpha (Wp.1) R theta (Wp.2) ;;
  set_coefs t (msol0 s) ;;;
  set_thetas t (msol1 s) ;;;
  set_dual_gaps t (msol2 s).

Definition mtl_loop : M mat mtl_results :=
  let alphas := mtl_alphas in
  let n_alphas := length alphas in
  mtl_allocate n_alphas ;;;
  R <~ alloc (b_Y b) ;;
  theta <~ alloc (mat_zeros (length (rows (b_Y b))) (n_cols (b_Y b))) ;;
  for_range (mtl_step alphas R theta) 0 n_alphas tt ;;;
  st <~ get_store ;;
  ret {| q_alphas := alphas;
         q_coefs := map swapaxes (coefs st);
         q_gaps := dual_gaps st;
         q_thetas := if b_return_thetas b then Some (thetas st)
                     else None |}.

End MtlPath.

Definition mtl_path (K : mtl_kernels) (b : mtl_args)
  : result mtl_results * store mat :=
  mtl_loop K b empty_store.

(** ** Properties the claims are stated with *)

Definition sum_list (l : list Z) : Z := fold_right Z.add 0 l.

Definition monotone (l : list Z) : Prop :=
  forall (i : nat) (x y : Z), l !! i = Some x -> l !! S i = Some y -> x <= y.

(** Feature [j] is in group [g]: it sits in [grp_indices] at a position of
    the slice [grp_ptr[g]:grp_ptr[g + 1]]. *)
Definition in_group (grp_ptr grp_indices : list Z) (g : nat) (j : Z) : Prop :=
  exists s e p : Z,
    grp_ptr !! g = Some s /\ grp_ptr !! S g = Some e /\
    s <= p < e /\ 0 <= p /\ grp_indices !! Z.to_nat p = Some j.

(** The Partition invariant of the data model. *)
Definition partition_inv (n_features : Z) (grp_ptr grp_indices : list Z)
  : Prop :=
  head grp_ptr = Some 0 /\
  last grp_ptr = Some n_features /\
  monotone grp_ptr /\
  grp_indices ≡ₚ Np.arange n_features.

Definition one_group_each (n_features : Z) (grp_ptr grp_indices : list Z)
  : Prop :=
  forall j : Z, 0 <= j < n_features ->
    exists g : nat, in_group grp_ptr grp_indices g j /\
      forall g' : nat, in_group grp_ptr grp_indices g' j -> g' = g.

(** The arguments on which the conversion is specified. *)
Definition grp_pre (groups : groups_t) (n_features : Z) : Prop :=
  0 <= n_features <= 2147483647 /\
  match groups with
  | GInt k => 1 <= k /\ n_features mod k = 0
  | GSizes sizes =>
      sizes <> [] /\
      forall i : nat, (i <= length sizes)%nat ->
        Np.int32_range (sum_list (take i sizes))
  | GIndexLists ls =>
      ls <> [] /\
      Z.of_nat (length (concat ls)) <= 2147483647 /\
      Forall Np.int32_range (concat ls)
  | GOther => False
  end.

(** What the conversion returns, case by case. *)
Definition grp_post (groups : groups_t) (n_features : Z)
    (grp_ptr grp_indices : list Z) : Prop :=
  match groups with
  | GInt k =>
      length grp_ptr = S (Z.to_nat (n_features / k)) /\
      (forall g : nat, (g <= Z.to_nat (n_features / k))%nat ->
         grp_ptr !! g = Some (k * Z.of_nat g)) /\
      last grp_ptr = Some n_features /\
      grp_indices = Np.arange n_features /\
      (forall (g : nat) (j : Z), (g < Z.to_nat (n_features / k))%nat ->
         in_group grp_ptr grp_indices g j <->
         k * Z.of_nat g <= j < k * Z.of_nat g + k) /\
      one_group_each n_features grp_ptr grp_indices
  | GSizes sizes =>
      length grp_ptr = S (length sizes) /\
      (forall i : nat, (i <= length sizes)%nat ->
         grp_ptr !! i = Some (sum_list (take i sizes))) /\
      grp_indices = Np.arange n_features
  | GIndexLists ls =>
      length grp_ptr = S (length ls) /\
      (forall i : nat, (i <= length ls)%nat ->
         grp_ptr !! i = Some (Z.of_nat (length (concat (take i ls))))) /\
      grp_indices = concat ls
  | GOther => False
  end.

(** The arguments on which the conversion yields a partition. *)
Definition grp_partitions (groups : groups_t) (n_features : Z) : Prop :=
  0 <= n_features <= 2147483647 /\
  match groups with
  | GInt k => 1 <= k /\ n_features mod k = 0
  | GSizes sizes =>
      sizes <> [] /\ Forall (fun s => 0 <= s) sizes /\
      sum_list sizes = n_features
  | GIndexLists ls => ls <> [] /\ concat ls ≡ₚ Np.arange n_features
  | GOther => False
  end.

(** [x <= y] on floats. *)
Definition fle (x y : val) : Prop := SFleb x y = true.

(** Equality of floats as [==] decides it. *)
Definition feq (x y : val) : Prop :=
  match x, y with
  | S754_zero _, S754_zero _ => True
  | S754_infinity s, S754_infinity s' => s = s'
  | S754_finite s m e, S754_finite s' m' e' => s = s' /\ m = m' /\ e = e'
  | _, _ => False
  end.

(** Descending order of a grid, with and without ties. *)
Definition descending (l : list val) : Prop :=
  forall (i : nat) (x y : val),
    l !! i = Some x -> l !! S i = Some y -> fge x y = true.

Definition strictly_descending (l : list val) : Prop :=
  forall (i : nat) (x y : val),
    l !! i = Some x -> l !! S i = Some y -> fgt x y = true.

(** Ascending order, with ties. *)
Definition ascending (l : list val) : Prop :=
  forall (i : nat) (x y : val),
    l !! i = Some x -> l !! S i = Some y -> fle x y.

(** [l] holds the values of [l'], each as many times, where two floats
    are the same value when [==] says so: the two zeros are. *)
Definition same_values (l l' : list val) : Prop :=
  exists l0 : list val,
    l0 ≡ₚ l' /\ Forall2 (fun x y => SFeqb x y = true) l l0.

(** No value occurs twice in [l]. *)
Definition pairwise_distinct (l : list val) : Prop :=
  forall (i j : nat) (x y : val),
    l !! i = Some x -> l !! j = Some y -> i <> j -> SFeqb x y = false.

(** What is assumed of [np.sort]: an array without NaN comes back in
    ascending order, with the same values. *)
Definition sorts (sort : list val -> list val) : Prop :=
  forall l : list val, Forall (fun x => is_nan x = false) l ->
    ascending (sort l) /\ same_values (sort l) l.

(** The inner solves of a trace, in order, and the warnings. *)
Fixpoint solves {A : Type} (tr : list (event A)) : list (solve_call A) :=
  match tr with
  | [] => []
  | Solve c :: tr' => c :: solves tr'
  | Warn _ :: tr' => solves tr'
  end.

Fixpoint warnings {A : Type} (tr : list (event A)) : list nat :=
  match tr with
  | [] => []
  | Solve _ :: tr' => warnings tr'
  | Warn t :: tr' => t :: warnings tr'
  end.

(** The memory after the first [k] grid points of [celer_path], and the
    local names then. *)
Definition celer_prefix (K : kernels) (a : celer_args) (pb : pb_t)
    (grp : partition) (alphas : list val) (k : nat)
  : result locals * store arr :=
  (allocate (zeros (a_n_features a)) (zeros (a_n_samples a))
     (length alphas) (a_return_n_iter a) ;;;
   lift (group_norms K a pb grp) ;;;
   for_range (celer_step K a pb grp alphas) 0 k
     {| l_Xw := None; l_p0 := a_p0 a |}) empty_store.

(** The memory after the first [k] grid points of [mtl_path]. *)
Definition mtl_prefix (K : mtl_kernels) (b : mtl_args) (k : nat)
  : result unit * store mat :=
  (mtl_allocate b (length (mtl_alphas K b)) ;;;
   R <~ alloc (b_Y b) ;;
   theta <~ alloc (mat_zeros (length (rows (b_Y b))) (n_cols (b_Y b))) ;;
   for_range (mtl_step K b (mtl_alphas K b) R theta) 0 k tt) empty_store.

(** The inner solvers report at least one duality gap. *)
Definition gaps_reported (K : kernels) : Prop :=
  (forall grp alpha w Xw theta p0,
     sol2 (celer_grp K grp alpha w Xw theta p0) <> []) /\
  (forall pb alpha w Xw theta p0,
     sol2 (celer K pb alpha w Xw theta p0) <> []) /\
  (forall alpha w p0, sol2 (newton_celer K alpha w p0) <> []).

(** The solver [celer_path] dispatches to. *)
Definition solver_of (a : celer_args) (pb : pb_t) : solver_id :=
  match pb with
  | GRPLASSO => Celer_grp
  | LASSO => Celer
  | LOGREG => if a_use_PN a then Newton_celer else Celer
  end.

(** The coefficients the first grid point starts from, and its working-set
    size. *)
Definition first_w (a : celer_args) : arr :=
  match a_coef_init a with
  | Some coef_init => coef_init
  | None => zeros (a_n_features a)
  end.

Definition first_p0 (a : celer_args) : Z :=
  match a_coef_init a with
  | Some coef_init => Z.max (count_nonzero coef_init) (a_p0 a)
  | None => a_p0 a
  end.

Definition first_Xw (K : kernels) (a : celer_args) (pb : pb_t) : arr :=
  match a_coef_init a with
  | Some coef_init => compute_Xw K pb (zeros (a_n_samples a)) coef_init
  | None => match pb with
            | LOGREG => zeros (a_n_samples a)
            | _ => a_y a
            end
  end.

(** Where the arrays of grid point [t] are allocated: the heap holds
    [heap_size t] arrays when grid point [t] starts ([w], [Xw], [theta] for
    the first one, [w] and [theta] for each later one). *)
Definition heap_size (t : nat) : nat :=
  match t with
  | O => 0
  | S t' => 3 + 2 * t'
  end.

Definition theta_slot (t : nat) : nat :=
  match t with
  | O => 2
  | S _ => S (heap_size t)
  end.

(** What holds of the memory and of the local names after [k] grid points
    of a grid of length [n]. *)
Definition celer_inv (a : celer_args) (n k : nat) (st : store arr)
    (loc : locals) : Prop :=
  length (coefs st) = n /\
  length (thetas st) = n /\
  length (dual_gaps st) = n /\
  length (n_iters st) = (if a_return_n_iter a then n else 0%nat) /\
  length (heap st) = heap_size k /\
  match k with
  | O => loc = {| l_Xw := None; l_p0 := a_p0 a |}
  | S _ => l_Xw loc = Some (RBuf 1)
  end.

(** [st'] differs from [st] on the heap only. *)
Definition same_results {A : Type} (st st' : store A) : Prop :=
  coefs st' = coefs st /\ thetas st' = thetas st /\
  dual_gaps st' = dual_gaps st /\ n_iters st' = n_iters st /\
  trace st' = trace st.

(** What grid point [t] does: one call [c] of the solver, on arrays of its
    own, whose results go to position [t]; a warning when the last gap
    exceeds [tol]. *)
Definition celer_step_post (K : kernels) (a : celer_args) (pb : pb_t)
    (grp : partition) (alphas : list val) (t : nat) (st st' : store arr)
  : Prop :=
  exists (c : solve_call arr) (g : val) (th : arr),
    alphas !! t = Some (e_alpha c) /\
    e_t c = t /\
    e_solver c = solver_of a pb /\
    e_w c = RBuf (heap_size t) /\
    e_Xw c = match solver_of a pb with
             | Newton_celer => None
             | _ => Some (RBuf 1)
             end /\
    e_theta c = match solver_of a pb with
                | Newton_celer => None
                | _ => Some (RBuf (theta_slot t))
                end /\
    match t with
    | O => e_w_in c = first_w a /\ e_p0 c = first_p0 a /\
           th = dual_init K pb grp (e_alpha c) (first_Xw K a pb)
    | S t' => coefs st !! t' = Some (e_w_in c) /\
              e_p0 c = Z.max (count_nonzero (e_w_in c)) 1 /\
              thetas st !! t' = Some th
    end /\
    e_theta_in c = match solver_of a pb with
                   | Newton_celer => None
                   | _ => Some th
                   end /\
    last (e_gaps c) = Some g /\
    trace st' = trace st ++ Solve c
                  :: (if fgt g (a_tol a) then [Warn t] else []) /\
    coefs st' = <[t:=e_sol0 c]> (coefs st) /\
    thetas st' = <[t:=e_sol1 c]> (thetas st) /\
    dual_gaps st' = <[t:=g]> (dual_gaps st) /\
    n_iters st' = if a_return_n_iter a
                  then <[t:=Z.of_nat (length (e_gaps c))]> (n_iters st)
                  else n_iters st.

(** [st'] has the results of [st], but for position [t]. *)
Definition agree_except {A : Type} (t : nat) (st st' : store A) : Prop :=
  (forall v, <[t:=v]> (coefs st') = <[t:=v]> (coefs st)) /\
  (forall v, <[t:=v]> (thetas st') = <[t:=v]> (thetas st)) /\
  (forall v, <[t:=v]> (dual_gaps st') = <[t:=v]> (dual_gaps st)) /\
  n_iters st' = n_iters st /\
  length (heap st') = length (heap st).

(** The last duality gap a solve reported exceeds [tol]. *)
Definition gap_exceeds (tol : val) {A : Type} (c : solve_call A) : bool :=
  match last (e_gaps c) with
  | Some g => fgt g tol
  | None => false
  end.

(** What [celer_path] hands to the solve [c] of grid point [e_t c]. *)
Definition handed_over (a : celer_args) (pb : pb_t) (alphas : list val)
    (c : solve_call arr) : Prop :=
  alphas !! e_t c = Some (e_alpha c) /\
  e_solver c = solver_of a pb /\
  e_w c = RBuf (heap_size (e_t c)) /\
  e_Xw c = match solver_of a pb with
           | Newton_celer => None
           | _ => Some (RBuf 1)
           end /\
  e_theta c = match solver_of a pb with
              | Newton_celer => None
              | _ => Some (RBuf (theta_slot (e_t c)))
              end.

(** The warm start of the solve [c], among the solves [cs] of the path:
    [coef_init] (or zeros), the first dual point and [p0] at the first grid
    point; the coefficients and the dual point returned for the previous
    grid point afterwards. *)
Definition warm_started (K : kernels) (a : celer_args) (pb : pb_t)
    (grp : partition) (cs : list (solve_call arr)) (c : solve_call arr)
  : Prop :=
  exists th : arr,
    e_theta_in c = match solver_of a pb with
                   | Newton_celer => None
                   | _ => Some th
                   end /\
    match e_t c with
    | O => e_w_in c = first_w a /\ e_p0 c = first_p0 a /\
           th = dual_init K pb grp (e_alpha c) (first_Xw K a pb)
    | S t' =>
        e_p0 c = Z.max (count_nonzero (e_w_in c)) 1 /\
        exists c' : solve_call arr,
          cs !! t' = Some c' /\ e_w_in c = e_sol0 c' /\ th = e_sol1 c'
    end.

(** The results of the solve [c] are stored at position [e_t c]. *)
Definition stored (a : celer_args) (st : store arr) (c : solve_call arr)
  : Prop :=
  coefs st !! e_t c = Some (e_sol0 c) /\
  thetas st !! e_t c = Some (e_sol1 c) /\
  dual_gaps st !! e_t c = last (e_gaps c) /\
  (a_return_n_iter a = true ->
   n_iters st !! e_t c = Some (Z.of_nat (length (e_gaps c)))).

(** The memory after [k] grid points, as a whole. *)
Definition run_inv (K : kernels) (a : celer_args) (pb : pb_t)
    (grp : partition) (alphas : list val) (k : nat) (st : store arr)
  : Prop :=
  map e_t (solves (trace st)) = seq 0 k /\
  warnings (trace st)
  = map e_t (List.filter (gap_exceeds (a_tol a)) (solves (trace st))) /\
  forall c : solve_call arr, c ∈ solves (trace st) ->
    handed_over a pb alphas c /\
    warm_started K a pb grp (solves (trace st)) c /\
    stored a st c.

(** What the solver returned and left at the solve [c] of [celer_path],
    from the arguments [c] records. *)
Definition celer_sol (K : kernels) (pb : pb_t) (grp : partition)
    (c : solve_call arr) : option sol :=
  match e_solver c, e_Xw_in c, e_theta_in c with
  | Celer_grp, Some Xw, Some theta =>
      Some (celer_grp K grp (e_alpha c) (e_w_in c) Xw theta (e_p0 c))
  | Celer, Some Xw, Some theta =>
      Some (celer K pb (e_alpha c) (e_w_in c) Xw theta (e_p0 c))
  | Newton_celer, _, _ =>
      Some (newton_celer K (e_alpha c) (e_w_in c) (e_p0 c))
  | _, _, _ => None
  end.

(** The solve [c] recorded what the solver returned. *)
Definition returned (K : kernels) (pb : pb_t) (grp : partition)
    (c : solve_call arr) (s : sol) : Prop :=
  celer_sol K pb grp c = Some s /\
  e_sol0 c = sol0 s /\ e_sol1 c = sol1 s /\ e_gaps c = sol2 s.

(** What one grid point of [celer_path] does to the residual: the solve [c]
    it adds finds [xv] in [Xw], and leaves there what the solver left. *)
Definition celer_carry_post (K : kernels) (a : celer_args) (pb : pb_t)
    (grp : partition) (xv : arr) (st st' : store arr) : Prop :=
  exists (c : solve_call arr) (s : sol),
    solves (trace st') = solves (trace st) ++ [c] /\
    returned K pb grp c s /\
    e_Xw_in c = match solver_of a pb with
                | Newton_celer => None
                | _ => Some xv
                end /\
    heap st' !! 1%nat = Some match solver_of a pb with
                             | Newton_celer => xv
                             | _ => m_Xw s
                             end.

(** Every solve but the first finds in [Xw] what the solve before it left
    there. *)
Definition celer_carried (K : kernels) (a : celer_args) (pb : pb_t)
    (grp : partition) (cs : list (solve_call arr)) : Prop :=
  forall (t : nat) (c c' : solve_call arr),
    cs !! t = Some c -> cs !! S t = Some c' ->
    exists s : sol,
      returned K pb grp c s /\
      e_Xw_in c' = match solver_of a pb with
                   | Newton_celer => None
                   | _ => Some (m_Xw s)
                   end.

(** A small instance on which the statements are exercised: kernels that
    hand back the coefficients and arrays they were given and report the one
    gap [gap]; a Lasso problem with three features and two samples. *)
Definition echo_sol (gap : val) (w Xw theta : arr) : sol :=
  {| m_w := w; m_Xw := Xw; m_theta := theta;
     sol0 := w; sol1 := theta; sol2 := [gap] |}.

Definition echo_kernels (gap : val) : kernels :=
  {| check_array := Ok tt;
     alpha_max_lasso := fun _ => one;
     alpha_max_logreg := one;
     alpha_max_grplasso := fun _ => one;
     scaled_geomspace := fun alpha_max _ n => repeat alpha_max (Z.to_nat n);
     np_sort := insertion_sort;
     group_norm := fun _ _ _ => Ok one;
     compute_Xw := fun _ Xw _ => Xw;
     dual_init := fun _ _ _ Xw => Xw;
     celer_grp := fun _ _ w Xw theta _ => echo_sol gap w Xw theta;
     celer := fun _ _ w Xw theta _ => echo_sol gap w Xw theta;
     newton_celer := fun _ w _ => echo_sol gap w [] [] |}.

Definition small_args (pb : string) (alphas : option (list val))
    (coef_init : option arr) (groups : option groups_t) : celer_args :=
  {| a_n_samples := 2; a_n_features := 3; a_is_sparse := false;
     a_y := [one; minus_one];
     a_pb := pb; a_eps := one; a_n_alphas := 2; a_alphas := alphas;
     a_coef_init := coef_init; a_p0 := 10; a_tol := zero;
     a_groups := groups; a_return_thetas := true; a_use_PN := false;
     a_return_n_iter := true; a_positive := false |}.

(** The exceptions a computation can raise are among [P]. *)
Definition raises_only {A B : Type} (P : exn -> Prop) (m : M A B) : Prop :=
  forall (st st' : store A) (e : exn), m st = (Raise e, st') -> P e.

(** The cases in which [celer_path] is specified to raise [ValueError]. *)
Definition value_error_cases (a : celer_args) : Prop :=
  let pb := lower (a_pb a) in
  (pb <> "lasso"%string /\ pb <> "logreg"%string /\
   pb <> "grouplasso"%string) \/
  (pb = "logreg"%string /\
   exists x : val, In x (a_y a) /\
     SFeqb x minus_one = false /\ SFeqb x one = false) \/
  (pb = "grouplasso"%string /\
   (a_groups a = None \/
    (exists k : Z, a_groups a = Some (GInt k) /\
       Z.of_nat (a_n_features a) mod k <> 0) \/
    a_groups a = Some GOther)).

(** [groups] is neither the integer 0 nor an empty list. *)
Definition groups_regular (a : celer_args) : Prop :=
  a_groups a <> Some (GInt 0) /\
  a_groups a <> Some (GSizes []) /\
  a_groups a <> Some (GIndexLists []).

(** A case in which [celer_path] raises [ValueError] later on, at line 218:
    a negative group size that divides [n_features] leaves [grp_ptr] empty,
    and [n_groups] is then -1. *)
Definition negative_group_size (a : celer_args) : Prop :=
  lower (a_pb a) = "grouplasso"%string /\
  exists k : Z,
    a_groups a = Some (GInt k) /\ k < 0 /\
    Z.of_nat (a_n_features a) mod k = 0 /\ (0 < a_n_features a)%nat.

(** For the group Lasso, where [groups] is looked at, its integers fit
    [int64]: there [_grp_converter] above is the code. *)
Definition groups_fit (a : celer_args) : Prop :=
  lower (a_pb a) = "grouplasso"%string ->
  match a_groups a with
  | Some groups => groups_int64 groups
  | None => True
  end.

(** The arrays have the shapes the docstring of [celer_path] gives them:
    [y] has one entry per sample, [coef_init] one per feature. *)
Definition well_shaped (a : celer_args) : Prop :=
  length (a_y a) = a_n_samples a /\
  match a_coef_init a with
  | Some coef_init => length coef_init = a_n_features a
  | None => True
  end.

(** The set-up of [celer_path] goes through, lines 138 to 242: on well
    shaped arrays and with integers that fit [int64], the validation,
    [check_array], the grid and the norms raise nothing. The loop then
    works with [pb], [grp] and [alphas]. *)
Definition set_up (K : kernels) (a : celer_args) (pb : pb_t)
    (grp : partition) (alphas : list val) : Prop :=
  well_shaped a /\ groups_fit a /\
  validate a = Ok (pb, grp) /\
  check_array K = Ok tt /\
  make_alphas K a pb grp = Ok alphas /\
  group_norms K a pb grp = Ok tt.

(** A case in which [celer_path] raises [ValueError] at line 191: the grid
    is to be computed, the validation and [alpha_max] go through, and
    [np.geomspace] rejects [eps] or [n_alphas]. *)
Definition no_grid (K : kernels) (a : celer_args) : Prop :=
  a_alphas a = None /\
  geomspace_rejects (a_eps a) (a_n_alphas a) = true /\
  exists (pb : pb_t) (grp : partition) (alpha_max0 : val),
    validate a = Ok (pb, grp) /\ alpha_max K a pb grp = Ok alpha_max0.

(** The norm of no group of the partition raises [ValueError]. *)
Definition norms_defined (K : kernels) (a : celer_args) : Prop :=
  forall (grp_ptr grp_indices : list Z) (g : nat),
    validate a = Ok (GRPLASSO, Some (grp_ptr, grp_indices)) ->
    group_norm_at K a grp_ptr grp_indices g <> Raise ValueError.

(** [np.geomspace] accepts [eps] and [n_alphas], when [mtl_path] computes
    its grid. *)
Definition mtl_grid_accepted (b : mtl_args) : Prop :=
  b_alphas b = None -> geomspace_rejects (b_eps b) (b_n_alphas b) = false.

(** The conditions under which [mtl_path] runs through: [coef_init], when
    given, has a slice for every grid point, and [celer_mtl] returns
    coefficients for at least one task. *)
Definition mtl_regular (K : mtl_kernels) (b : mtl_args) : Prop :=
  match b_coef_init b with
  | Some coef_init => (length (mtl_alphas K b) <= length coef_init)%nat
  | None => True
  end /\
  forall alpha W R theta p0,
    (0 < n_cols (msol0 (celer_mtl K alpha W R theta p0)))%nat.

(** The coefficients [mtl_path] starts from, one slice per grid point. *)
Definition mtl_coefs0 (b : mtl_args) (n_alphas : nat) : list mat :=
  match b_coef_init b with
  | None => repeat (mat_zeros (b_n_features b) (n_cols (b_Y b))) n_alphas
  | Some coef_init => map swapaxes coef_init
  end.

(** The memory of [mtl_path] after [k] grid points of a grid of length
    [n]. *)
Definition mtl_inv (b : mtl_args) (n k : nat) (st : store mat) : Prop :=
  (n <= length (coefs st))%nat /\
  length (thetas st) = n /\
  length (dual_gaps st) = n /\
  length (heap st) = (2 + k)%nat /\
  match k with
  | O => coefs st = mtl_coefs0 b n /\
         heap st = [b_Y b;
                    mat_zeros (length (rows (b_Y b))) (n_cols (b_Y b))]
  | S k' => exists W : mat, coefs st !! k' = Some W /\ (0 < n_cols W)%nat
  end.

(** The call of [celer_mtl] at the first grid point. *)
Definition mtl_first_call (K : mtl_kernels) (b : mtl_args)
  : option (solve_call mat) :=
  let alphas := mtl_alphas K b in
  match alphas !! 0%nat, mtl_coefs0 b (length alphas) !! 0%nat with
  | Some alpha, Some W =>
      let s := celer_mtl K alpha W (b_Y b)
                 (mat_zeros (length (rows (b_Y b))) (n_cols (b_Y b))) 10 in
      Some {| e_t := 0; e_solver := Celer_mtl; e_alpha := alpha;
              e_w := RBuf 2; e_Xw := Some (RBuf 0);
              e_theta := Some (RBuf 1); e_w_in := W;
              e_Xw_in := Some (b_Y b);
              e_theta_in := Some (mat_zeros (length (rows (b_Y b)))
                                    (n_cols (b_Y b)));
              e_p0 := 10;
              e_sol0 := msol0 s; e_sol1 := msol1 s; e_gaps := [msol2 s] |}
  | _, _ => None
  end.

(** [mtl_path] called with another [p0]. *)
Definition with_p0 (b : mtl_args) (p0 : Z) : mtl_args :=
  {| b_n_samples := b_n_samples b; b_n_features := b_n_features b;
     b_Y := b_Y b; b_eps := b_eps b; b_n_alphas := b_n_alphas b;
     b_alphas := b_alphas b; b_p0 := p0;
     b_return_thetas := b_return_thetas b;
     b_coef_init := b_coef_init b |}.

(** What [mtl_path] hands to the solve [c] among its solves [cs], and
    where the results of [c] are. *)
Definition mtl_solve_facts (K : mtl_kernels) (b : mtl_args)
    (cs : list (solve_call mat)) (st : store mat) (c : solve_call mat)
  : Prop :=
  mtl_alphas K b !! e_t c = Some (e_alpha c) /\
  e_w c = RBuf (2 + e_t c) /\
  e_Xw c = Some (RBuf 0) /\
  e_theta c = Some (RBuf 1) /\
  match e_t c with
  | O => Some c = mtl_first_call K b
  | S t' =>
      e_p0 c = Z.max (count_nonzero (first_column (e_w_in c))) (b_p0 b) /\
      exists c' : solve_call mat, cs !! t' = Some c' /\ e_w_in c = e_sol0 c'
  end /\
  coefs st !! e_t c = Some (e_sol0 c) /\
  thetas st !! e_t c = Some (e_sol1 c) /\
  exists g : val, e_gaps c = [g] /\ dual_gaps st !! e_t c = Some g.

Definition mtl_run_inv (K : mtl_kernels) (b : mtl_args) (k : nat)
    (st : store mat) : Prop :=
  map e_t (solves (trace st)) = seq 0 k /\
  forall c : solve_call mat, c ∈ solves (trace st) ->
    mtl_solve_facts K b (solves (trace st)) st c.

(** What grid point [t] of [mtl_path] does. *)
Definition mtl_step_post (K : mtl_kernels) (b : mtl_args)
    (alphas : list val) (t : nat) (st st' : store mat) : Prop :=
  exists (c : solve_call mat) (rv tv : mat),
    alphas !! t = Some (e_alpha c) /\
    e_t c = t /\
    e_solver c = Celer_mtl /\
    e_w c = RBuf (2 + t) /\
    e_Xw c = Some (RBuf 0) /\
    e_theta c = Some (RBuf 1) /\
    coefs st !! Nat.pred t = Some (e_w_in c) /\
    e_p0 c = match t with
             | O => 10
             | S _ => Z.max (count_nonzero (first_column (e_w_in c)))
                        (b_p0 b)
             end /\
    heap st !! 0%nat = Some rv /\
    heap st !! 1%nat = Some tv /\
    e_Xw_in c = Some rv /\
    e_theta_in c = Some tv /\
    (let s := celer_mtl K (e_alpha c) (e_w_in c) rv tv (e_p0 c) in
     e_sol0 c = msol0 s /\ e_sol1 c = msol1 s /\ e_gaps c = [msol2 s] /\
     dual_gaps st' = <[t:=msol2 s]> (dual_gaps st)) /\
    trace st' = trace st ++ [Solve c] /\
    coefs st' = <[t:=e_sol0 c]> (coefs st) /\
    thetas st' = <[t:=e_sol1 c]> (thetas st).

(** The primal and dual arrays handed to a solve. *)
Definition own_arrays {A : Type} (c : solve_call A) : list ref :=
  e_w c :: match e_theta c with
           | Some r => [r]
           | None => []
           end.

(** Every solve works on primal and dual arrays of its own: heap arrays,
    not columns of [coefs] nor rows of [thetas], that no other solve is
    handed. *)
Definition private_arrays {A : Type} (cs : list (solve_call A)) : Prop :=
  forall (c c' : solve_call A) (r : ref),
    c ∈ cs -> c' ∈ cs -> r ∈ own_arrays c -> r ∈ own_arrays c' ->
    (exists l : nat, r = RBuf l) /\ e_t c = e_t c'.

(** An instance of [mtl_path]: a kernel that leaves its arrays as they are
    and returns zero coefficients for one task; three features, two
    samples, one task. *)
Definition echo_mtl_kernels : mtl_kernels :=
  {| alpha_max_mtl := one;
     mtl_scaled_geomspace := fun alpha_max _ n =>
                               repeat alpha_max (Z.to_nat n);
     mtl_np_sort := insertion_sort;
     celer_mtl := fun _ W R theta _ =>
                    {| mm_W := W; mm_R := R; mm_theta := theta;
                       msol0 := mat_zeros 3 1; msol1 := theta;
                       msol2 := zero |} |}.

Definition small_mtl_args (alphas : option (list val)) (p0 : Z) : mtl_args :=
  {| b_n_samples := 2; b_n_features := 3;
     b_Y := {| n_cols := 1; rows := [[one]; [minus_one]] |};
     b_eps := one; b_n_alphas := 2; b_alphas := alphas; b_p0 := p0;
     b_return_thetas := true; b_coef_init := None |}.

(** ** [alpha_max] in exact arithmetic

    The Lasso [alpha_max] of line 180 and the Lasso objective of the
    docstring of [celer_path], over the rationals; [X] is the list of its
    columns. *)
Module Exact.
Local Open Scope Q_scope.

Definition vec : Type := list Q.

Definition dot (u v : vec) : Q :=
  fold_right Qplus 0 (zip_with Qmult u v).

(** [norm(v, ord=np.inf)] and the 1-norm. *)
Definition norm_inf (v : vec) : Q := fold_right Qmax 0 (map Qabs v).

Definition norm1 (v : vec) : Q := fold_right Qplus 0 (map Qabs v).

(** [X.T @ y]. *)
Definition XTy (X : list vec) (y : vec) : vec :=
  map (fun col => dot col y) X.

(** [norm(X.T @ y, ord=np.inf) / n_samples]. *)
Definition alpha_max_lasso (X : list vec) (y : vec) : Q :=
  norm_inf (XTy X y) / inject_Z (Z.of_nat (length y)).

(** [X @ w], for [n] samples. *)
Definition Xw (X : list vec) (w : vec) (n : nat) : vec :=
  fold_right
    (fun cw acc => zip_with (fun x r => snd cw * x + r) (fst cw) acc)
    (repeat 0 n) (zip X w).

(** [||y - X w||^2 / (2 n) + alpha ||w||_1]. *)
Definition lasso_objective (X : list vec) (y : vec) (alpha : Q) (w : vec)
  : Q :=
  let r := zip_with Qminus y (Xw X w (length y)) in
  dot r r / (2 * inject_Z (Z.of_nat (length y))) + alpha * norm1 w.

(** Modelled from the spec: the Cython kernels, which are given
    [X_sparse_scaling = X_offset / X_scale] with a sparse [X], work on the
    implicitly centred design matrix, each column shifted by its entry of
    [X_sparse_scaling], without building it. *)
Definition centred (X : list vec) (X_offset X_scale : vec) : list vec :=
  zip_with (fun col s => map (fun x => x - s) col) X
    (zip_with Qdiv X_offset X_scale).

End Exact.

(** ** Definitions for the further properties *)

(** [celer_path] called with another problem name. *)
Definition with_pb (a : celer_args) (pb : string) : celer_args :=
  {| a_n_samples := a_n_samples a; a_n_features := a_n_features a;
     a_is_sparse := a_is_sparse a;
     a_y := a_y a; a_pb := pb; a_eps := a_eps a;
     a_n_alphas := a_n_alphas a; a_alphas := a_alphas a;
     a_coef_init := a_coef_init a; a_p0 := a_p0 a; a_tol := a_tol a;
     a_groups := a_groups a; a_return_thetas := a_return_thetas a;
     a_use_PN := a_use_PN a; a_return_n_iter := a_return_n_iter a;
     a_positive := a_positive a |}.

(** The norm of a group raises on no argument. *)
Definition norm_total (K : kernels) : Prop :=
  forall (cols : list Z) (s e : Z), exists v : val, group_norm K cols s e = Ok v.

(** The working-set size [p_t] of grid point [t] of [mtl_path], from the
    warm start [W]. *)
Definition mtl_p_t (b : mtl_args) (t : nat) (W : mat) : Z :=
  match t with
  | O => 10
  | S _ => Z.max (count_nonzero (first_column W)) (b_p0 b)
  end.

(** The memory one grid point of [mtl_path] leaves, when it starts from the
    coefficients [W] and finds [R] and [theta] in the two shared arrays. *)
Definition mtl_next (K : mtl_kernels) (b : mtl_args) (t : nat) (alpha : val)
    (W R theta : mat) (st : store mat) : store mat :=
  let s := celer_mtl K alpha W R theta (mtl_p_t b t W) in
  {| coefs := <[t:=msol0 s]> (coefs st);
     thetas := <[t:=msol1 s]> (thetas st);
     dual_gaps := <[t:=msol2 s]> (dual_gaps st);
     n_iters := n_iters st;
     heap := <[1%nat:=mm_theta s]>
               (<[0%nat:=mm_R s]>
                  (<[length (heap st):=mm_W s]> (heap st ++ [W])));
     trace := trace st ++
       [Solve {| e_t := t; e_solver := Celer_mtl; e_alpha := alpha;
                 e_w := RBuf (length (heap st)); e_Xw := Some (RBuf 0);
                 e_theta := Some (RBuf 1); e_w_in := W;
                 e_Xw_in := Some R; e_theta_in := Some theta;
                 e_p0 := mtl_p_t b t W;
                 e_sol0 := msol0 s; e_sol1 := msol1 s;
                 e_gaps := [msol2 s] |}] |}.

(** What [celer_mtl] returned and left at the solve [c], from the
    arguments [c] records. *)
Definition mtl_sol (K : mtl_kernels) (c : solve_call mat) : option sol_mtl :=
  match e_Xw_in c, e_theta_in c with
  | Some R, Some theta =>
      Some (celer_mtl K (e_alpha c) (e_w_in c) R theta (e_p0 c))
  | _, _ => None
  end.

(** Every solve but the first finds in [R] and [theta] what the solve
    before it left there, and starts from the coefficients that solve
    returned. *)
Definition mtl_carried (K : mtl_kernels) (cs : list (solve_call mat))
  : Prop :=
  forall (t : nat) (c c' : solve_call mat),
    cs !! t = Some c -> cs !! S t = Some c' ->
    exists s : sol_mtl,
      mtl_sol K c = Some s /\
      e_Xw_in c' = Some (mm_R s) /\
      e_theta_in c' = Some (mm_theta s) /\
      e_w_in c' = msol0 s.

(** [mtl_path] called with another [coef_init]. *)
Definition with_coef_init (b : mtl_args) (coef_init : option (list mat))
  : mtl_args :=
  {| b_n_samples := b_n_samples b; b_n_features := b_n_features b;
     b_Y := b_Y b; b_eps := b_eps b; b_n_alphas := b_n_alphas b;
     b_alphas := b_alphas b; b_p0 := b_p0 b;
     b_return_thetas := b_return_thetas b;
     b_coef_init := coef_init |}.

(** Every row has [n_cols] entries. *)
Definition rectangular (m : mat) : Prop :=
  Forall (fun r => length r = n_cols m) (rows m).

(** [celer_mtl] returns coefficients for at least one task. *)
Definition mtl_kernel_regular (K : mtl_kernels) : Prop :=
  forall alpha W R theta p0,
    (0 < n_cols (msol0 (celer_mtl K alpha W R theta p0)))%nat.

(** The design matrix [X] as [PN_solver] looks at it: dense, or sparse with
    its arrays [data], [indices] and [indptr]. *)
Inductive design : Type :=
| Dense (X : list arr)
| Sparse (data : arr) (indices indptr : list Z).

(** An array argument of [newton_celer]: an array with contents, or
    [np.empty(shape)], whose contents are whatever the memory held. *)
Inductive buffer (A : Type) : Type :=
| Filled (a : A)
| Uninit (shape : list nat).
Arguments Filled {A} a.
Arguments Uninit {A} shape.

(** The options [PN_solver] passes on as they are. *)
Record pn_options : Type := {
  o_max_iter : Z;
  o_verbose : bool;
  o_verbose_inner : bool;
  o_tol : val;
  o_prune : bool;
  o_p0 : Z;
  o_use_accel : bool;
  o_K : Z;
  o_growth : Z;
  o_blitz_sc : bool
}.

(** The arguments of a call of [newton_celer], [w] apart. *)
Record newton_args : Type := {
  na_is_sparse : bool;
  na_X_dense : buffer (list arr);
  na_X_data : buffer arr;
  na_X_indices : buffer (list Z);
  na_X_indptr : buffer (list Z);
  na_y : arr;
  na_alpha : val;
  na_options : pn_options
}.

(** Lines 350 to 361: the arrays passed for [X]. *)
Definition pn_args (X : design) (y : arr) (alpha : val) (o : pn_options)
  : newton_args :=
  match X with
  | Sparse data indices indptr =>
      {| na_is_sparse := true;
         na_X_dense := Uninit [2%nat; 2%nat];
         na_X_data := Filled data;
         na_X_indices := Filled (Np.astype_int32 indices);
         na_X_indptr := Filled (Np.astype_int32 indptr);
         na_y := y; na_alpha := alpha; na_options := o |}
  | Dense Xd =>
      {| na_is_sparse := false;
         na_X_dense := Filled Xd;
         na_X_data := Uninit [1%nat];
         na_X_indices := Uninit [1%nat];
         na_X_indptr := Uninit [1%nat];
         na_y := y; na_alpha := alpha; na_options := o |}
  end.

(** [PN_solver], lines 347 to 366; [newton] is [newton_celer], which
    updates the array [w] it is handed in place. *)
Definition PN_solver (newton : newton_args -> arr -> sol) (X : design)
    (y : arr) (alpha : val) (w_init : ref) (o : pn_options) : M arr sol :=
  w <~ copy w_init ;;
  wv <~ read w ;;
  let s := newton (pn_args X y alpha o) wv in
  write w (m_w s) ;;;
  ret s.

(** [X_data[X_indptr[j]:X_indptr[j + 1]].sum()]: the sum of the stored
    entries of a column of a sparse [X], which is the sum of the column. *)
Definition col_sum (x : Exact.vec) : Q := fold_right Qplus 0%Q x.

(** [X[:, f]] for an integer [f], which counts from the end when
    negative; [X] is the list of its columns. *)
Definition np_col (X : list Exact.vec) (f : Z) : option Exact.vec :=
  if f <? 0 then
    if f + Z.of_nat (length X) <? 0 then None
    else X !! Z.to_nat (f + Z.of_nat (length X))
  else X !! Z.to_nat f.

(** Lines 220 to 232, for a sparse [X], in exact arithmetic: the entry of
    [gram] for the positions [j1] and [j2] of a group, that is the product
    of the columns [grp_indices[j1]] and [grp_indices[j2]] of [X] plus the
    term that handles centring, in which [scaling] ([X_sparse_scaling]) and
    the sums of the columns are taken at [j1] and [j2] themselves. *)
Definition gram_entry (X : list Exact.vec) (grp_indices : list Z)
    (scaling : Exact.vec) (n_samples : nat) (j1 j2 : nat) : option Q :=
  match grp_indices !! j1, grp_indices !! j2 with
  | Some f1, Some f2 =>
      match np_col X f1, np_col X f2 with
      | Some c1, Some c2 =>
          match scaling !! j1, scaling !! j2, X !! j1, X !! j2 with
          | Some s1, Some s2, Some d1, Some d2 =>
              Some (Exact.dot c1 c2
                    + (s1 * s2 * inject_Z (Z.of_nat n_samples)
                       - s1 * col_sum d2 - s2 * col_sum d1))%Q
          | _, _, _, _ => None
          end
      | _, _ => None
      end
  | _, _ => None
  end.

(** The vector of [k] coefficients that are zero but for [v] at position
    [j]. *)
Definition onehot (j : nat) (v : Q) (k : nat) : Exact.vec :=
  repeat 0%Q j ++ v :: repeat 0%Q (k - S j).

(** Weakest precondition: the computation returns, and [Q] holds of what it
    returns and of the memory it leaves. *)
Definition wp {A B : Type} (m : M A B) (Q : B -> store A -> Prop)
    (st : store A) : Prop :=
  exists (b : B) (st' : store A), m st = (Ok b, st') /\ Q b st'.


(** * Proofs *)

(** ** Integer arrays *)

Lemma lookup_map {A B : Type} (f : A -> B) (l : list A) (i : nat) :
  map f l !! i = f <$> (l !! i).
Proof.
  revert i. induction l as [|x l IH]; intros [|i]; simpl; auto.
Qed.

Lemma wrap32_id (z : Z) : Np.int32_range z -> Np.wrap32 z = z.
Proof.
  unfold Np.int32_range, Np.wrap32. intros Hz.
  rewrite Z.mod_small; lia.
Qed.

Lemma astype_int32_id (l : list Z) :
  Forall Np.int32_range l -> Np.astype_int32 l = l.
Proof.
  unfold Np.astype_int32. induction 1 as [|x l Hx _ IH]; simpl.
  - reflexivity.
  - rewrite wrap32_id by assumption. now rewrite IH.
Qed.

Lemma arange_length (n : Z) : length (Np.arange n) = Z.to_nat n.
Proof. unfold Np.arange. now rewrite length_map, length_seq. Qed.

Lemma arange_lookup (n : Z) (i : nat) :
  (i < Z.to_nat n)%nat -> Np.arange n !! i = Some (Z.of_nat i).
Proof.
  intros Hi. unfold Np.arange.
  rewrite lookup_map, lookup_seq_lt by assumption. reflexivity.
Qed.

Lemma arange_lookup_inv (n : Z) (i : nat) (x : Z) :
  Np.arange n !! i = Some x -> x = Z.of_nat i /\ (i < Z.to_nat n)%nat.
Proof.
  intros H. assert (Hi : (i < Z.to_nat n)%nat).
  { apply lookup_lt_Some in H. now rewrite arange_length in H. }
  rewrite arange_lookup in H by assumption. split; congruence.
Qed.

Lemma arange_elem (n x : Z) : x ∈ Np.arange n <-> 0 <= x < n.
Proof.
  rewrite list_elem_of_lookup. split.
  - intros [i Hi]. apply arange_lookup_inv in Hi. lia.
  - intros Hx. exists (Z.to_nat x).
    rewrite arange_lookup by lia. f_equal. lia.
Qed.

Lemma arange_NoDup (n : Z) : NoDup (Np.arange n).
Proof.
  apply NoDup_alt. intros i j x Hi Hj.
  apply arange_lookup_inv in Hi, Hj. lia.
Qed.

Lemma arange_int32 (n : Z) :
  n <= 2147483647 -> Forall Np.int32_range (Np.arange n).
Proof.
  intros Hn. apply Forall_forall. intros x Hx.
  apply arange_elem in Hx. unfold Np.int32_range. lia.
Qed.

Lemma cumsum_from_length (acc : Z) (l : list Z) :
  length (Np.cumsum_from acc l) = length l.
Proof. revert acc. induction l; intros; simpl; auto. Qed.

Lemma cumsum_from_lookup (l : list Z) (acc : Z) (i : nat) :
  (i < length l)%nat ->
  Np.cumsum_from acc l !! i = Some (acc + sum_list (take (S i) l)).
Proof.
  revert acc i. induction l as [|x l IH]; intros acc i Hi; simpl in *.
  - lia.
  - destruct i as [|i]; simpl.
    + f_equal. destruct l; simpl; lia.
    + rewrite IH by lia. f_equal. simpl. lia.
Qed.

(** The boundaries [np.cumsum(np.hstack([[0], sizes]))]: entry [i] is the
    sum of the first [i] sizes. *)
Lemma boundaries_lookup (sizes : list Z) (i : nat) :
  (i <= length sizes)%nat ->
  Np.cumsum (0 :: sizes) !! i = Some (sum_list (take i sizes)).
Proof.
  intros Hi. unfold Np.cumsum.
  rewrite cumsum_from_lookup by (simpl; lia). simpl. reflexivity.
Qed.

Lemma boundaries_length (sizes : list Z) :
  length (Np.cumsum (0 :: sizes)) = S (length sizes).
Proof. unfold Np.cumsum. now rewrite cumsum_from_length. Qed.

Lemma boundaries_int32 (sizes : list Z) :
  (forall i : nat, (i <= length sizes)%nat ->
     Np.int32_range (sum_list (take i sizes))) ->
  Forall Np.int32_range (Np.cumsum (0 :: sizes)).
Proof.
  intros H. apply Forall_lookup. intros i x Hi.
  assert (Hlt : (i <= length sizes)%nat).
  { apply lookup_lt_Some in Hi. rewrite boundaries_length in Hi. lia. }
  rewrite boundaries_lookup in Hi by assumption.
  injection Hi as <-. now apply H.
Qed.

Lemma sum_list_lengths {A : Type} (ls : list (list A)) :
  sum_list (map (fun l => Z.of_nat (length l)) ls)
  = Z.of_nat (length (concat ls)).
Proof.
  induction ls as [|l ls IH]; simpl.
  - reflexivity.
  - rewrite length_app, IH. lia.
Qed.

Lemma take_map {A B : Type} (f : A -> B) (l : list A) (i : nat) :
  take i (map f l) = map f (take i l).
Proof.
  revert i. induction l as [|x l IH]; intros [|i]; simpl; auto.
  now rewrite IH.
Qed.

Lemma concat_take_length {A : Type} (ls : list (list A)) (i : nat) :
  (length (concat (take i ls)) <= length (concat ls))%nat.
Proof.
  revert i. induction ls as [|l ls IH]; intros [|i]; simpl; try lia.
  rewrite !length_app. specialize (IH i). lia.
Qed.

(** ** [_grp_converter], case by case *)

Lemma convert_int (k n : Z) :
  1 <= k -> 0 <= n <= 2147483647 -> n mod k = 0 ->
  _grp_converter (GInt k) n
  = Ok (map (Z.mul k) (Np.arange (n / k + 1)), Np.arange n).
Proof.
  intros Hk Hn Hmod. unfold _grp_converter.
  destruct (Z.eqb_spec k 0) as [?|_]; [lia|].
  rewrite Hmod. simpl negb. cbv iota.
  rewrite (astype_int32_id (Np.arange n)) by (apply arange_int32; lia).
  rewrite astype_int32_id; [reflexivity|].
  apply Forall_forall. intros x Hx.
  apply list_elem_of_lookup in Hx as [i Hi].
  rewrite lookup_map in Hi.
  destruct (Np.arange (n / k + 1) !! i) as [g|] eqn:Hg; [|discriminate].
  apply arange_lookup_inv in Hg as [-> Hlt]. injection Hi as <-.
  assert (Hdiv : n = k * (n / k)) by (apply Z.div_exact; lia).
  assert (0 <= n / k) by (apply Z.div_pos; lia).
  unfold Np.int32_range. nia.
Qed.

Lemma convert_sizes (sizes : list Z) (n : Z) :
  sizes <> [] -> 0 <= n <= 2147483647 ->
  (forall i : nat, (i <= length sizes)%nat ->
     Np.int32_range (sum_list (take i sizes))) ->
  _grp_converter (GSizes sizes) n
  = Ok (Np.cumsum (0 :: sizes), Np.arange n).
Proof.
  intros Hne Hn Hr. unfold _grp_converter.
  destruct sizes as [|s sizes]; [congruence|].
  rewrite !(astype_int32_id (Np.arange n)) by (apply arange_int32; lia).
  now rewrite astype_int32_id by (apply boundaries_int32; assumption).
Qed.

Lemma convert_lists (ls : list (list Z)) (n : Z) :
  ls <> [] ->
  Z.of_nat (length (concat ls)) <= 2147483647 ->
  Forall Np.int32_range (concat ls) ->
  _grp_converter (GIndexLists ls) n
  = Ok (Np.cumsum (0 :: map (fun l => Z.of_nat (length l)) ls), concat ls).
Proof.
  intros Hne Hlen Hr. unfold _grp_converter.
  destruct ls as [|l ls]; [congruence|].
  rewrite (astype_int32_id (concat _)) by assumption.
  rewrite astype_int32_id; [reflexivity|].
  apply boundaries_int32. intros i Hi.
  rewrite take_map, sum_list_lengths.
  pose proof (concat_take_length (l :: ls) i).
  unfold Np.int32_range. lia.
Qed.

Lemma int_boundaries_lookup (k n : Z) (g : nat) :
  0 <= n / k -> (g <= Z.to_nat (n / k))%nat ->
  map (Z.mul k) (Np.arange (n / k + 1)) !! g = Some (k * Z.of_nat g).
Proof.
  intros Hq Hg. rewrite lookup_map, arange_lookup by lia. reflexivity.
Qed.

(** ** Partitions *)

Lemma monotone_le (l : list Z) (i j : nat) (x y : Z) :
  monotone l -> (i <= j)%nat -> l !! i = Some x -> l !! j = Some y -> x <= y.
Proof.
  intros Hm Hij Hi. revert y. induction Hij as [|j Hij IH]; intros y Hj.
  - assert (x = y) by congruence. lia.
  - destruct (l !! j) as [z|] eqn:Hz.
    + specialize (IH z eq_refl). specialize (Hm j z y Hz Hj). lia.
    + apply lookup_ge_None in Hz. apply lookup_lt_Some in Hj. lia.
Qed.

(** A position below the last boundary lies in some slice. *)
Lemma locate_slice (l : list Z) (a b p : Z) :
  head l = Some a -> last l = Some b -> a <= p < b ->
  exists (g : nat) (s e : Z),
    l !! g = Some s /\ l !! S g = Some e /\ s <= p < e.
Proof.
  revert a. induction l as [|x l IH]; intros a Hh Hl Hp; [discriminate|].
  simpl in Hh. injection Hh as ->.
  destruct l as [|y l'].
  - simpl in Hl. injection Hl as <-. lia.
  - destruct (Z_lt_dec p y) as [Hlt|Hge].
    + exists 0%nat, a, y. simpl. repeat split; auto; lia.
    + destruct (IH y) as (g & s & e & Hs & He & Hse); auto.
      * lia.
      * exists (S g), s, e. simpl. auto.
Qed.

Lemma partition_one_group (n : Z) (ptr idx : list Z) :
  partition_inv n ptr idx -> one_group_each n ptr idx.
Proof.
  intros (Hh & Hl & Hm & Hp) j Hj.
  assert (Hin : j ∈ idx) by (rewrite Hp; now apply arange_elem).
  apply list_elem_of_lookup in Hin as [p Hpj].
  assert (Hlen : length idx = Z.to_nat n).
  { rewrite (Permutation_length Hp). apply arange_length. }
  assert (Hpn : (p < Z.to_nat n)%nat).
  { apply lookup_lt_Some in Hpj. lia. }
  assert (Hnd : NoDup idx) by (rewrite Hp; apply arange_NoDup).
  destruct (locate_slice ptr 0 n (Z.of_nat p)) as (g & s & e & Hs & He & Hse);
    auto; [lia|].
  exists g. split.
  - exists s, e, (Z.of_nat p). rewrite Nat2Z.id. repeat split; auto; lia.
  - intros g' (s' & e' & p' & Hs' & He' & Hse' & Hp0 & Hp').
    assert (Z.to_nat p' = p) by (eapply NoDup_lookup; eauto).
    assert (p' = Z.of_nat p) by lia. subst p'.
    destruct (Nat.lt_trichotomy g' g) as [Hlt|[Heq|Hgt]]; [|assumption|].
    + pose proof (monotone_le ptr (S g') g e' s Hm ltac:(lia) He' Hs). lia.
    + pose proof (monotone_le ptr (S g) g' e s' Hm ltac:(lia) He Hs'). lia.
Qed.

Lemma head_lookup0 {A : Type} (l : list A) : head l = l !! 0%nat.
Proof. now destruct l. Qed.

Lemma partition_int (k n : Z) :
  1 <= k -> 0 <= n -> n mod k = 0 ->
  partition_inv n (map (Z.mul k) (Np.arange (n / k + 1))) (Np.arange n).
Proof.
  intros Hk Hn Hmod.
  assert (Hq : 0 <= n / k) by (apply Z.div_pos; lia).
  assert (Hdiv : n = k * (n / k)) by (apply Z.div_exact; lia).
  repeat split.
  - rewrite head_lookup0, int_boundaries_lookup by lia. f_equal. lia.
  - rewrite last_lookup, length_map, arange_length.
    rewrite int_boundaries_lookup by lia. f_equal.
    replace (Z.of_nat (Init.Nat.pred (Z.to_nat (n / k + 1)))) with (n / k)
      by lia.
    lia.
  - intros i x y Hx Hy.
    rewrite lookup_map in Hx, Hy.
    destruct (Np.arange (n / k + 1) !! i) as [a|] eqn:Ha; [|discriminate].
    destruct (Np.arange (n / k + 1) !! S i) as [b|] eqn:Hb; [|discriminate].
    apply arange_lookup_inv in Ha as [-> _], Hb as [-> _].
    simpl in Hx, Hy. injection Hx as <-. injection Hy as <-. nia.
  - reflexivity.
Qed.

Lemma sum_list_take_S (l : list Z) (i : nat) (x : Z) :
  l !! i = Some x -> sum_list (take (S i) l) = sum_list (take i l) + x.
Proof.
  revert i. induction l as [|y l IH]; intros [|i] H; simpl in *;
    try discriminate.
  - injection H as ->. destruct l; simpl; lia.
  - rewrite <- Z.add_assoc. f_equal. now apply IH.
Qed.

Lemma boundaries_monotone (sizes : list Z) :
  Forall (fun s => 0 <= s) sizes -> monotone (Np.cumsum (0 :: sizes)).
Proof.
  intros Hpos i x y Hx Hy.
  assert (Hi : (S i <= length sizes)%nat).
  { apply lookup_lt_Some in Hy. rewrite boundaries_length in Hy. lia. }
  rewrite boundaries_lookup in Hx, Hy by lia.
  injection Hx as <-. injection Hy as <-.
  destruct (sizes !! i) as [s|] eqn:Hs.
  - rewrite (sum_list_take_S _ _ _ Hs).
    assert (0 <= s); [|lia].
    eapply (proj1 (Forall_lookup _ _) Hpos); eauto.
  - apply lookup_ge_None in Hs. lia.
Qed.

Lemma partition_boundaries (sizes : list Z) (n : Z) (idx : list Z) :
  Forall (fun s => 0 <= s) sizes -> sum_list sizes = n ->
  idx ≡ₚ Np.arange n ->
  partition_inv n (Np.cumsum (0 :: sizes)) idx.
Proof.
  intros Hpos Hsum Hperm. repeat split; auto.
  - rewrite last_lookup, boundaries_length. simpl.
    rewrite boundaries_lookup, firstn_all by lia. now f_equal.
  - now apply boundaries_monotone.
Qed.

Lemma sum_list_take_bounds (l : list Z) (i : nat) :
  Forall (fun s => 0 <= s) l -> 0 <= sum_list (take i l) <= sum_list l.
Proof.
  intros H. revert i. induction H as [|x l Hx _ IH]; intros [|i]; simpl;
    try lia.
  - specialize (IH 0%nat). simpl in IH. lia.
  - specialize (IH i). lia.
Qed.

Lemma in_group_int (k n : Z) (g : nat) (j : Z) :
  1 <= k -> 0 <= n -> n mod k = 0 -> (g < Z.to_nat (n / k))%nat ->
  in_group (map (Z.mul k) (Np.arange (n / k + 1))) (Np.arange n) g j
  <-> k * Z.of_nat g <= j < k * Z.of_nat g + k.
Proof.
  intros Hk Hn Hmod Hg.
  assert (Hq : 0 <= n / k) by (apply Z.div_pos; lia).
  assert (Hdiv : n = k * (n / k)) by (apply Z.div_exact; lia).
  assert (Hs : map (Z.mul k) (Np.arange (n / k + 1)) !! g
               = Some (k * Z.of_nat g))
    by (apply int_boundaries_lookup; lia).
  assert (He : map (Z.mul k) (Np.arange (n / k + 1)) !! S g
               = Some (k * Z.of_nat (S g)))
    by (apply int_boundaries_lookup; lia).
  split.
  - intros (s & e & p & Hs' & He' & Hse & Hp0 & Hp).
    rewrite Hs in Hs'. rewrite He in He'.
    injection Hs' as <-. injection He' as <-.
    apply arange_lookup_inv in Hp as [-> _]. lia.
  - intros Hj. exists (k * Z.of_nat g), (k * Z.of_nat (S g)), j.
    repeat split; auto; try lia.
    rewrite arange_lookup by nia. f_equal. lia.
Qed.

(** C2 (as amended). For a group size [k >= 1] dividing [n_features],
    [_grp_converter] returns the boundaries [0, k, 2k, ..., n_features]
    and the identity indices, so that group [g] holds exactly the features
    [k*g, ..., k*g + k - 1] and every feature is in exactly one group; for a
    non-empty list of sizes it returns the running sums of the sizes, from
    0, and the identity indices; for a non-empty list of index lists it
    returns the running sums of their lengths, from 0, and the lists
    concatenated in order. All values are assumed to fit [np.int32]. *)
Theorem grp_converter_returns (groups : groups_t) (n_features : Z) :
  grp_pre groups n_features ->
  exists grp_ptr grp_indices : list Z,
    _grp_converter groups n_features = Ok (grp_ptr, grp_indices) /\
    grp_post groups n_features grp_ptr grp_indices.
Proof.
  intros [Hn Hpre]. destruct groups as [k|sizes|ls|]; simpl in Hpre.
  - destruct Hpre as [Hk Hmod].
    assert (Hq : 0 <= n_features / k) by (apply Z.div_pos; lia).
    pose proof (partition_int k n_features Hk (proj1 Hn) Hmod) as Hinv.
    eexists _, _. split; [apply convert_int; auto|].
    cbn [grp_post]. split; [|split; [|split; [|split; [|split]]]].
    + rewrite length_map, arange_length. lia.
    + intros g Hg. now apply int_boundaries_lookup.
    + apply Hinv.
    + reflexivity.
    + intros g j Hg. apply in_group_int; auto; lia.
    + now apply partition_one_group.
  - destruct Hpre as [Hne Hr].
    eexists _, _. split; [apply convert_sizes; auto|].
    cbn [grp_post]. split; [|split].
    + apply boundaries_length.
    + intros i Hi. now apply boundaries_lookup.
    + reflexivity.
  - destruct Hpre as (Hne & Hlen & Hr).
    eexists _, _. split; [apply convert_lists; auto|].
    cbn [grp_post]. split; [|split].
    + now rewrite boundaries_length, length_map.
    + intros i Hi. rewrite boundaries_lookup by (now rewrite length_map).
      now rewrite take_map, sum_list_lengths.
    + reflexivity.
  - contradiction.
Qed.

Lemma grp_converter_returns_witness :
  (grp_pre (GInt 3) 6 /\
   exists p i, _grp_converter (GInt 3) 6 = Ok (p, i) /\
               grp_post (GInt 3) 6 p i) /\
  (grp_pre (GSizes [1; 3; 2]) 6 /\
   exists p i, _grp_converter (GSizes [1; 3; 2]) 6 = Ok (p, i) /\
               grp_post (GSizes [1; 3; 2]) 6 p i) /\
  (grp_pre (GIndexLists [[0; 2; 5]; [1; 3]; [4]]) 6 /\
   exists p i, _grp_converter (GIndexLists [[0; 2; 5]; [1; 3]; [4]]) 6
               = Ok (p, i) /\
               grp_post (GIndexLists [[0; 2; 5]; [1; 3]; [4]]) 6 p i).
Proof.
  assert (H1 : grp_pre (GInt 3) 6).
  { split; [lia|]. simpl. split; [lia | reflexivity]. }
  assert (H2 : grp_pre (GSizes [1; 3; 2]) 6).
  { split; [lia|]. simpl. split; [discriminate|].
    intros [|[|[|[|i]]]] Hi; simpl in *; unfold Np.int32_range; simpl; lia. }
  assert (H3 : grp_pre (GIndexLists [[0; 2; 5]; [1; 3]; [4]]) 6).
  { split; [lia|]. simpl. split; [discriminate|]. split; [lia|].
    repeat constructor; unfold Np.int32_range; lia. }
  split; [|split].
  - split; [exact H1 | exact (grp_converter_returns _ _ H1)].
  - split; [exact H2 | exact (grp_converter_returns _ _ H2)].
  - split; [exact H3 | exact (grp_converter_returns _ _ H3)].
Defined.

(** C2, as stated, fails for a negative group size: [6 % -2 == 0], the
    call returns no boundary at all, neither [0] nor [n_features]. It also
    fails for the empty list, which raises, and for sizes beyond
    [np.int32], which wrap. *)
Lemma grp_converter_negative_size :
  6 mod (-2) = 0 /\
  _grp_converter (GInt (-2)) 6 = Ok ([], [0; 1; 2; 3; 4; 5]) /\
  ~ (exists grp_ptr grp_indices : list Z,
       _grp_converter (GInt (-2)) 6 = Ok (grp_ptr, grp_indices) /\
       head grp_ptr = Some 0 /\ last grp_ptr = Some 6) /\
  _grp_converter (GSizes []) 0 = Raise IndexError /\
  _grp_converter (GSizes [2147483648]) 2 = Ok ([0; -2147483648], [0; 1]).
Proof.
  split; [reflexivity|]. split; [reflexivity|]. split.
  - intros (p & i & H & Hh & _). vm_compute in H.
    injection H as <- _. discriminate.
  - split; reflexivity.
Qed.

(** C9 (as amended). [_grp_converter] returns a partition (boundaries from
    0 to [n_features], non-decreasing; indices a permutation of
    [0, n_features); every feature in exactly one group) when [groups] is a
    size [k >= 1] dividing [n_features], a non-empty list of non-negative
    sizes that sum to [n_features], or a non-empty list of index lists
    whose concatenation is a permutation of [0, n_features). *)
Theorem grp_converter_partition (groups : groups_t) (n_features : Z) :
  grp_partitions groups n_features ->
  exists grp_ptr grp_indices : list Z,
    _grp_converter groups n_features = Ok (grp_ptr, grp_indices) /\
    partition_inv n_features grp_ptr grp_indices /\
    one_group_each n_features grp_ptr grp_indices.
Proof.
  intros [Hn Hpre]. destruct groups as [k|sizes|ls|]; simpl in Hpre.
  - destruct Hpre as [Hk Hmod].
    pose proof (partition_int k n_features Hk (proj1 Hn) Hmod) as Hinv.
    eexists _, _. split; [apply convert_int; auto|].
    split; [assumption | now apply partition_one_group].
  - destruct Hpre as (Hne & Hpos & Hsum).
    assert (Hinv : partition_inv n_features (Np.cumsum (0 :: sizes))
                     (Np.arange n_features))
      by (now apply partition_boundaries).
    eexists _, _. split; [|split; [exact Hinv | now apply partition_one_group]].
    apply convert_sizes; auto. intros i Hi.
    pose proof (sum_list_take_bounds sizes i Hpos).
    unfold Np.int32_range. lia.
  - destruct Hpre as (Hne & Hperm).
    assert (Hlen : length (concat ls) = Z.to_nat n_features).
    { rewrite (Permutation_length Hperm). apply arange_length. }
    assert (Hinv : partition_inv n_features
                     (Np.cumsum (0 :: map (fun l => Z.of_nat (length l)) ls))
                     (concat ls)).
    { apply partition_boundaries; auto.
      - apply Forall_forall. intros x Hx.
        apply list_elem_of_In, in_map_iff in Hx as (l & <- & _). lia.
      - rewrite sum_list_lengths. lia. }
    eexists _, _. split; [|split; [exact Hinv | now apply partition_one_group]].
    apply convert_lists; auto; [lia|].
    rewrite Hperm. apply arange_int32. lia.
  - contradiction.
Qed.

Lemma grp_converter_partition_witness :
  grp_partitions (GIndexLists [[0; 2; 5]; [1; 3]; [4]]) 6 /\
  exists p i, _grp_converter (GIndexLists [[0; 2; 5]; [1; 3]; [4]]) 6
              = Ok (p, i) /\
              partition_inv 6 p i /\ one_group_each 6 p i.
Proof.
  assert (H : grp_partitions (GIndexLists [[0; 2; 5]; [1; 3]; [4]]) 6).
  { split; [lia|]. simpl. split; [discriminate|].
    apply (bool_decide_unpack _). vm_compute. reflexivity. }
  split; [exact H | exact (grp_converter_partition _ _ H)].
Defined.

(** C9, as stated, fails on lists, which are accepted unchecked: sizes that
    do not sum to [n_features], index lists that repeat a feature. *)
Lemma grp_converter_accepts_non_partition :
  (exists grp_ptr grp_indices : list Z,
     _grp_converter (GSizes [1; 2]) 10 = Ok (grp_ptr, grp_indices) /\
     ~ partition_inv 10 grp_ptr grp_indices) /\
  (exists grp_ptr grp_indices : list Z,
     _grp_converter (GIndexLists [[0; 0]]) 2 = Ok (grp_ptr, grp_indices) /\
     ~ partition_inv 2 grp_ptr grp_indices).
Proof.
  split; eexists _, _; (split; [vm_compute; reflexivity|]).
  - intros (_ & Hl & _). vm_compute in Hl. discriminate.
  - intros (_ & _ & _ & Hp).
    assert (H : (1 : Z) ∈ [0; 0]).
    { rewrite Hp. apply arange_elem. lia. }
    apply list_elem_of_In in H. simpl in H. intuition discriminate.
Qed.

(** ** Sorting the grid *)

Lemma SFltb_false_leb (x y : val) :
  is_nan x = false -> is_nan y = false ->
  SFltb x y = false -> SFleb y x = true.
Proof.
  unfold SFltb, SFleb, SFcompare.
  destruct x as [sx|sx| |sx mx ex], y as [sy|sy| |sy my ey];
    simpl; try discriminate; intros _ _;
    try (destruct sx; try destruct sy; simpl; congruence);
    try (destruct sy; simpl; congruence).
  assert (Hm : PosDef.Pos.compare_cont Eq my mx
               = CompOpp (PosDef.Pos.compare_cont Eq mx my))
    by (symmetry; apply (Pos.compare_cont_antisym mx my Eq)).
  destruct sx, sy; simpl; try congruence;
    rewrite (Z.compare_antisym ex ey), Hm;
    destruct (ex ?= ey); simpl; try congruence;
    destruct (PosDef.Pos.compare_cont Eq mx my); simpl; congruence.
Qed.

Lemma SFltb_leb (x y : val) : SFltb x y = true -> SFleb x y = true.
Proof.
  unfold SFltb, SFleb. destruct (SFcompare x y) as [[]|]; congruence.
Qed.

Lemma sort_lt_nonnan (x y : val) :
  is_nan y = false -> sort_lt x y = SFltb x y.
Proof.
  intros Hy. unfold sort_lt. rewrite Hy. simpl. now rewrite orb_false_r.
Qed.

Lemma sort_insert_perm (x : val) (l : list val) : sort_insert x l ≡ₚ x :: l.
Proof.
  induction l as [|y l IH]; simpl.
  - reflexivity.
  - destruct (sort_lt x y); [reflexivity|].
    rewrite IH. apply Permutation_swap.
Qed.

Lemma insertion_from_perm (l acc : list val) :
  foldl (fun acc x => sort_insert x acc) acc l ≡ₚ l ++ acc.
Proof.
  revert acc. induction l as [|x l IH]; intros acc; simpl.
  - reflexivity.
  - rewrite IH, sort_insert_perm. symmetry. apply Permutation_middle.
Qed.

Lemma insertion_sort_perm (l : list val) : insertion_sort l ≡ₚ l.
Proof.
  unfold insertion_sort. now rewrite insertion_from_perm, app_nil_r.
Qed.

Lemma sort_insert_HdRel (z x : val) (l : list val) :
  fle z x -> HdRel fle z l -> HdRel fle z (sort_insert x l).
Proof.
  intros Hzx Hzl. destruct l as [|y l]; simpl.
  - now constructor.
  - destruct (sort_lt x y); constructor; auto.
    now inversion Hzl.
Qed.

Lemma sort_insert_sorted (x : val) (l : list val) :
  is_nan x = false -> Forall (fun y => is_nan y = false) l ->
  Sorted fle l -> Sorted fle (sort_insert x l).
Proof.
  intros Hx Hl Hs. induction Hs as [|y l Hs IH Hd]; simpl.
  - repeat constructor.
  - inversion Hl as [|? ? Hy Hl']; subst.
    rewrite sort_lt_nonnan by assumption.
    destruct (SFltb x y) eqn:Hlt.
    + constructor; [now constructor|]. constructor. now apply SFltb_leb.
    + constructor; [now apply IH|].
      apply sort_insert_HdRel; [|assumption].
      now apply SFltb_false_leb.
Qed.

Lemma insertion_from_sorted (l acc : list val) :
  Forall (fun y => is_nan y = false) l ->
  Forall (fun y => is_nan y = false) acc ->
  Sorted fle acc ->
  Sorted fle (foldl (fun acc x => sort_insert x acc) acc l).
Proof.
  intros Hl. revert acc. induction Hl as [|x l Hx Hl IH]; intros acc Ha Hs.
  - assumption.
  - simpl. apply IH.
    + rewrite sort_insert_perm. now constructor.
    + now apply sort_insert_sorted.
Qed.

Lemma Sorted_adjacent {A : Type} (R : relation A) (l : list A) :
  Sorted R l ->
  forall (i : nat) (x y : A), l !! i = Some x -> l !! S i = Some y -> R x y.
Proof.
  induction 1 as [|z l Hs IH Hd]; intros i x y Hx Hy; [discriminate|].
  destruct i as [|i]; simpl in *.
  - injection Hx as ->. destruct l; [discriminate|].
    simpl in Hy. injection Hy as ->. now inversion Hd.
  - eapply IH; eauto.
Qed.

Lemma SFeqb_feq (x y : val) : SFeqb x y = true <-> feq x y.
Proof.
  unfold SFeqb, SFcompare, feq.
  destruct x as [sx|sx| |sx mx ex], y as [sy|sy| |sy my ey];
    try (split; [discriminate | contradiction]);
    try (split; [intros _; exact I | reflexivity]);
    try (destruct sx; split; (discriminate || contradiction));
    try (destruct sy; split; (discriminate || contradiction)).
  - destruct sx, sy; split; congruence.
  - change (PosDef.Pos.compare_cont Eq mx my) with (Pos.compare mx my).
    destruct sx, sy;
      try (split; [discriminate | intros (H & _); discriminate]);
      destruct (Z.compare_spec ex ey) as [He|He|He];
      try (split; [discriminate | intros (_ & _ & H); lia]);
      destruct (Pos.compare_spec mx my) as [Hm|Hm|Hm]; simpl;
      split; try discriminate; try (intros (_ & H & _); lia); auto.
Qed.

Lemma feq_sym (x y : val) : feq x y -> feq y x.
Proof.
  destruct x, y; simpl; auto. intros (-> & -> & ->). auto.
Qed.

Lemma feq_trans (x y z : val) : feq x y -> feq y z -> feq x z.
Proof.
  destruct x, y, z; simpl; try tauto; try congruence.
  intros (-> & -> & ->) (-> & -> & ->). auto.
Qed.

Lemma feq_refl (x : val) : is_nan x = false -> feq x x.
Proof. destruct x; simpl; auto; discriminate. Qed.

Lemma SFleb_neq_ltb (x y : val) :
  SFleb x y = true -> SFeqb x y = false -> SFltb x y = true.
Proof.
  unfold SFleb, SFeqb, SFltb. destruct (SFcompare x y) as [[]|]; congruence.
Qed.

Lemma SFltb_neq (x y : val) : SFltb x y = true -> SFeqb x y = false.
Proof.
  unfold SFeqb, SFltb. destruct (SFcompare x y) as [[]|]; congruence.
Qed.

Lemma SFltb_trans (x y z : val) :
  SFltb x y = true -> SFltb y z = true -> SFltb x z = true.
Proof.
  unfold SFltb, SFcompare.
  destruct x as [sx|sx| |sx mx ex], y as [sy|sy| |sy my ey],
           z as [sz|sz| |sz mz ez];
    try discriminate;
    try (destruct sx; try discriminate; destruct sy; try discriminate;
         destruct sz; try discriminate; reflexivity);
    try (destruct sx; try discriminate; destruct sy; try discriminate;
         reflexivity);
    try (destruct sx; try discriminate; destruct sz; try discriminate;
         reflexivity);
    try (destruct sy; try discriminate; destruct sz; try discriminate;
         reflexivity).
  all: change (PosDef.Pos.compare_cont Eq) with Pos.compare.
  all: destruct sx, sy, sz; try discriminate; try reflexivity.
  all: destruct (Z.compare_spec ex ey), (Z.compare_spec ey ez),
         (Z.compare_spec ex ez); try discriminate; try lia; try reflexivity.
  all: destruct (Pos.compare_spec mx my), (Pos.compare_spec my mz),
         (Pos.compare_spec mx mz); simpl; try discriminate; try lia;
         try reflexivity.
Qed.

Lemma SFltb_irrefl (x : val) : SFltb x x = false.
Proof.
  destruct (SFltb x x) eqn:H; [|reflexivity].
  pose proof (SFltb_neq _ _ H) as Hn.
  assert (Hnan : is_nan x = false) by (destruct x; auto; discriminate).
  apply feq_refl, SFeqb_feq in Hnan. congruence.
Qed.

Lemma reverse_adjacent {A : Type} (l : list A) (i : nat) (x y : A) :
  reverse l !! i = Some x -> reverse l !! S i = Some y ->
  exists j : nat, l !! j = Some y /\ l !! S j = Some x.
Proof.
  intros Hx Hy.
  pose proof (lookup_lt_Some _ _ _ Hy) as Hlt. rewrite length_reverse in Hlt.
  rewrite reverse_lookup in Hx by lia. rewrite reverse_lookup in Hy by lia.
  exists (length l - S (S i))%nat. split; [assumption|].
  replace (S (length l - S (S i))) with (length l - S i)%nat by lia.
  assumption.
Qed.

Lemma same_values_pairwise (l l' : list val) :
  same_values l l' -> pairwise_distinct l' -> pairwise_distinct l.
Proof.
  intros (l0 & Hp & Hf) Hd i j x y Hx Hy Hij.
  destruct (SFeqb x y) eqn:E; [|reflexivity].
  destruct (Forall2_lookup_l _ _ _ _ _ Hf Hx) as (x0 & Hx0 & Ex).
  destruct (Forall2_lookup_l _ _ _ _ _ Hf Hy) as (y0 & Hy0 & Ey).
  apply Permutation_inj in Hp as (_ & f & Hinj & Hf0).
  rewrite Hf0 in Hx0, Hy0.
  assert (Hne : f i <> f j) by (intros H; apply Hij, Hinj, H).
  rewrite <- (Hd _ _ _ _ Hx0 Hy0 Hne).
  apply SFeqb_feq in E, Ex, Ey. symmetry. apply SFeqb_feq.
  apply (feq_trans x0 x y0); [apply feq_sym; exact Ex|].
  apply (feq_trans x y y0); assumption.
Qed.

Lemma same_values_length (l l' : list val) :
  same_values l l' -> length l = length l'.
Proof.
  intros (l0 & Hp & Hf). rewrite <- (Permutation_length Hp).
  eapply Forall2_length; eassumption.
Qed.

Lemma strictly_ascending_lt (l : list val) :
  (forall (i : nat) (x y : val),
     l !! i = Some x -> l !! S i = Some y -> SFltb x y = true) ->
  forall (i j : nat) (x y : val),
    (i < j)%nat -> l !! i = Some x -> l !! j = Some y -> SFltb x y = true.
Proof.
  intros Hadj i j x y Hij. revert y. induction Hij as [|j Hij IH];
    intros y Hx Hy.
  - eapply Hadj; eassumption.
  - assert (Hj : is_Some (l !! j)).
    { apply lookup_lt_is_Some. apply lookup_lt_Some in Hy. lia. }
    destruct Hj as [z Hz].
    eapply SFltb_trans; [apply (IH z); assumption|].
    eapply Hadj; eassumption.
Qed.

Lemma strictly_ascending_distinct (l : list val) :
  (forall (i : nat) (x y : val),
     l !! i = Some x -> l !! S i = Some y -> SFltb x y = true) ->
  pairwise_distinct l.
Proof.
  intros Hadj i j x y Hx Hy Hij.
  destruct (Nat.lt_total i j) as [H|[H|H]]; [|contradiction|].
  - apply SFltb_neq. eapply strictly_ascending_lt; eassumption.
  - pose proof (strictly_ascending_lt l Hadj j i y x H Hy Hx) as Hlt.
    apply SFltb_neq in Hlt.
    destruct (SFeqb x y) eqn:E; [|reflexivity].
    apply SFeqb_feq, feq_sym, SFeqb_feq in E. congruence.
Qed.

Lemma same_values_pairwise_r (l l' : list val) :
  same_values l l' -> pairwise_distinct l -> pairwise_distinct l'.
Proof.
  intros (l0 & Hp & Hf) Hd i j x y Hx Hy Hij.
  destruct (SFeqb x y) eqn:E; [|reflexivity].
  symmetry in Hp. apply Permutation_inj in Hp as (_ & f & Hinj & Hf0).
  rewrite Hf0 in Hx, Hy.
  destruct (Forall2_lookup_r _ _ _ _ _ Hf Hx) as (x0 & Hx0 & Ex).
  destruct (Forall2_lookup_r _ _ _ _ _ Hf Hy) as (y0 & Hy0 & Ey).
  assert (Hne : f i <> f j) by (intros H; apply Hij, Hinj, H).
  rewrite <- (Hd _ _ _ _ Hx0 Hy0 Hne).
  apply SFeqb_feq in E, Ex, Ey. symmetry. apply SFeqb_feq.
  apply (feq_trans x0 x y0); [exact Ex|].
  apply (feq_trans x y y0); [assumption | apply feq_sym; assumption].
Qed.

Lemma adjacent_reverse {A : Type} (l : list A) (j : nat) (x y : A) :
  l !! j = Some y -> l !! S j = Some x ->
  exists i : nat, reverse l !! i = Some x /\ reverse l !! S i = Some y.
Proof.
  intros Hy Hx. pose proof (lookup_lt_Some _ _ _ Hx) as Hlt.
  exists (length l - S (S j))%nat.
  rewrite !reverse_lookup by lia.
  replace (length l - S (length l - S (S j)))%nat with (S j) by lia.
  replace (length l - S (S (length l - S (S j))))%nat with j by lia.
  auto.
Qed.

Section Sorted.
Variable sort : list val -> list val.
Hypothesis sort_sorts : sorts sort.
Variable l : list val.
Hypothesis no_nan : Forall (fun x => is_nan x = false) l.

Lemma sort_descending_descending : descending (sort_descending sort l).
Proof.
  intros i x y Hx Hy. destruct (sort_sorts l no_nan) as [Hasc _].
  destruct (reverse_adjacent _ _ _ _ Hx Hy) as (j & Hj & Hj').
  exact (Hasc j y x Hj Hj').
Qed.

Lemma sort_descending_values : same_values (sort_descending sort l) l.
Proof.
  destruct (sort_sorts l no_nan) as [_ (l0 & Hp & Hf)].
  exists (reverse l0). split.
  - now rewrite reverse_Permutation.
  - apply Forall2_reverse. exact Hf.
Qed.

Lemma sort_descending_strict :
  strictly_descending (sort_descending sort l) <-> pairwise_distinct l.
Proof.
  destruct (sort_sorts l no_nan) as [Hasc Hsame]. split.
  - intros Hs. apply (same_values_pairwise_r (sort l)); [assumption|].
    apply strictly_ascending_distinct. intros j y x Hy Hx.
    destruct (adjacent_reverse _ _ _ _ Hy Hx) as (i & Hi & Hi').
    exact (Hs i x y Hi Hi').
  - intros Hd i x y Hx Hy.
    destruct (reverse_adjacent _ _ _ _ Hx Hy) as (j & Hj & Hj').
    apply SFleb_neq_ltb; [exact (Hasc j y x Hj Hj')|].
    apply (same_values_pairwise _ _ Hsame Hd j (S j)); auto.
Qed.

End Sorted.

(** The insertion sort is one of the sorts [np.sort] is taken among. *)
Lemma insertion_sort_sorts : sorts insertion_sort.
Proof.
  intros l Hl. split.
  - intros i x y Hx Hy.
    apply (Sorted_adjacent fle (insertion_sort l)) with (i := i); auto.
    apply insertion_from_sorted; auto.
  - exists (insertion_sort l). split; [apply insertion_sort_perm|].
    assert (Hs : Forall (fun x => is_nan x = false) (insertion_sort l))
      by now rewrite insertion_sort_perm.
    induction Hs as [|x k Hx Hs IH]; constructor; auto.
    now apply SFeqb_feq, feq_refl.
Qed.

(** ** Reasoning about computations *)

Section Wp.
Context {A : Type}.
Implicit Types st : store A.

Lemma wp_ret {B : Type} (b : B) (Q : B -> store A -> Prop) st :
  Q b st -> wp (ret b) Q st.
Proof. intros H. now exists b, st. Qed.

Lemma wp_bind {B C : Type} (m : M A B) (k : B -> M A C)
    (Q : C -> store A -> Prop) st :
  wp m (fun b st' => wp (k b) Q st') st -> wp (bind m k) Q st.
Proof.
  intros (b & st' & Hm & c & st'' & Hk & HQ).
  exists c, st''. unfold bind. now rewrite Hm.
Qed.

Lemma wp_mono {B : Type} (m : M A B) (Q Q' : B -> store A -> Prop) st :
  wp m Q st -> (forall b st', Q b st' -> Q' b st') -> wp m Q' st.
Proof. intros (b & st' & Hm & HQ) H. exists b, st'. auto. Qed.

Lemma wp_index {B : Type} (l : list B) (i : nat) (x : B)
    (Q : B -> store A -> Prop) st :
  l !! i = Some x -> Q x st -> wp (index l i) Q st.
Proof. intros Hl HQ. exists x, st. unfold index. now rewrite Hl. Qed.

Lemma wp_name {B : Type} (x : B) (Q : B -> store A -> Prop) st :
  Q x st -> wp (name (Some x)) Q st.
Proof. intros HQ. now exists x, st. Qed.

Lemma wp_alloc (a : A) (Q : ref -> store A -> Prop) st :
  Q (RBuf (length (heap st))) (with_heap (fun h => h ++ [a]) st) ->
  wp (alloc a) Q st.
Proof. intros HQ. eexists _, _. split; [reflexivity | exact HQ]. Qed.

Lemma wp_read_buf (l : nat) (x : A) (Q : A -> store A -> Prop) st :
  heap st !! l = Some x -> Q x st -> wp (read (RBuf l)) Q st.
Proof.
  intros Hl HQ. exists x, st. unfold read, index. now rewrite Hl.
Qed.

Lemma wp_copy_col (t : nat) (x : A) (Q : ref -> store A -> Prop) st :
  coefs st !! t = Some x ->
  Q (RBuf (length (heap st))) (with_heap (fun h => h ++ [x]) st) ->
  wp (copy (RCol t)) Q st.
Proof.
  intros Hl HQ. eexists _, _. split; [|exact HQ].
  unfold copy, bind, read, index. now rewrite Hl.
Qed.

Lemma wp_copy_row (t : nat) (x : A) (Q : ref -> store A -> Prop) st :
  thetas st !! t = Some x ->
  Q (RBuf (length (heap st))) (with_heap (fun h => h ++ [x]) st) ->
  wp (copy (RRow t)) Q st.
Proof.
  intros Hl HQ. eexists _, _. split; [|exact HQ].
  unfold copy, bind, read, index. now rewrite Hl.
Qed.

Lemma wp_assign (len t : nat) (upd : store A -> store A)
    (Q : unit -> store A -> Prop) st :
  (t < len)%nat -> Q tt (upd st) -> wp (assign len t upd) Q st.
Proof.
  intros Ht HQ. exists tt, (upd st). unfold assign.
  now rewrite decide_True.
Qed.

Lemma wp_write_buf (l : nat) (a : A) (Q : unit -> store A -> Prop) st :
  (l < length (heap st))%nat ->
  Q tt (with_heap (<[l:=a]>) st) -> wp (write (RBuf l) a) Q st.
Proof. intros. now apply wp_assign. Qed.

Lemma wp_set_coefs (t : nat) (a : A) (Q : unit -> store A -> Prop) st :
  (t < length (coefs st))%nat ->
  Q tt (with_coefs (<[t:=a]>) st) -> wp (set_coefs t a) Q st.
Proof. intros. now apply wp_assign. Qed.

Lemma wp_set_thetas (t : nat) (a : A) (Q : unit -> store A -> Prop) st :
  (t < length (thetas st))%nat ->
  Q tt (with_thetas (<[t:=a]>) st) -> wp (set_thetas t a) Q st.
Proof. intros. now apply wp_assign. Qed.

Lemma wp_set_dual_gaps (t : nat) (g : val)
    (Q : unit -> store A -> Prop) st :
  (t < length (dual_gaps st))%nat ->
  Q tt (with_dual_gaps (<[t:=g]>) st) -> wp (set_dual_gaps t g) Q st.
Proof. intros. now apply wp_assign. Qed.

Lemma wp_set_n_iters (t : nat) (n : Z) (Q : unit -> store A -> Prop) st :
  (t < length (n_iters st))%nat ->
  Q tt (with_n_iters (<[t:=n]>) st) -> wp (set_n_iters t n) Q st.
Proof. intros. now apply wp_assign. Qed.

Lemma wp_emit (e : event A) (Q : unit -> store A -> Prop) st :
  Q tt (with_trace (fun tr => tr ++ [e]) st) -> wp (emit e) Q st.
Proof. intros HQ. eexists _, _. split; [reflexivity | exact HQ]. Qed.

Lemma wp_get_dual_gap (t : nat) (g : val) (Q : val -> store A -> Prop) st :
  dual_gaps st !! t = Some g -> Q g st -> wp (get_dual_gap t) Q st.
Proof.
  intros Hl HQ. exists g, st. unfold get_dual_gap, index. now rewrite Hl.
Qed.

Lemma wp_get_store (Q : store A -> store A -> Prop) st :
  Q st st -> wp get_store Q st.
Proof. intros HQ. now exists st, st. Qed.

Lemma for_range_snoc {L : Type} (body : nat -> L -> M A L)
    (n t : nat) (x : L) st :
  for_range body t (S n) x st
  = bind (for_range body t n x) (body (t + n)%nat) st.
Proof.
  revert t x st. induction n as [|n IH]; intros t x st.
  - simpl. unfold bind, ret. rewrite Nat.add_0_r.
    destruct (body t x st) as [[b|e] st']; reflexivity.
  - change (for_range body t (S (S n)) x st)
      with (bind (body t x) (for_range body (S t) (S n)) st).
    change (for_range body t (S n) x)
      with (bind (body t x) (for_range body (S t) n)).
    unfold bind.
    destruct (body t x st) as [[b|e] st']; [|reflexivity].
    rewrite IH. unfold bind. now rewrite Nat.add_succ_comm.
Qed.

End Wp.

(** ** One grid point of [celer_path] *)

Ltac store_simpl :=
  cbn [coefs thetas dual_gaps n_iters heap trace
       with_coefs with_thetas with_dual_gaps with_n_iters with_heap
       with_trace fst snd].

Ltac wp_auto :=
  store_simpl;
  repeat
    (lazymatch goal with
     | |- wp (bind _ _) _ _ => apply wp_bind
     | |- wp (ret _) _ _ => apply wp_ret
     | |- wp (alloc _) _ _ => apply wp_alloc
     | |- wp (emit _) _ _ => apply wp_emit
     | |- wp (name (Some _)) _ _ => apply wp_name
     | |- wp get_store _ _ => apply wp_get_store
     end; store_simpl).

Section CelerStep.
Variable K : kernels.
Variable a : celer_args.
Variable pb : pb_t.
Variable grp : partition.
Variable alphas : list val.

Lemma wp_warm_start (t n : nat) (alpha : val) (loc : locals)
    (st : store arr) :
  celer_inv a n t st loc -> (t < n)%nat ->
  wp (warm_start K a pb grp t alpha loc)
    (fun ws st' =>
       same_results st st' /\
       ws.1.1 = RBuf (heap_size t) /\
       ws.1.2 = RBuf (theta_slot t) /\
       l_Xw ws.2 = Some (RBuf 1) /\
       length (heap st') = heap_size (S t) /\
       exists w_in th_in : arr,
         heap st' !! heap_size t = Some w_in /\
         heap st' !! theta_slot t = Some th_in /\
         match t with
         | O => w_in = first_w a /\ l_p0 ws.2 = first_p0 a /\
                th_in = dual_init K pb grp alpha (first_Xw K a pb)
         | S t' => coefs st !! t' = Some w_in /\
                   l_p0 ws.2 = Z.max (count_nonzero w_in) 1 /\
                   thetas st !! t' = Some th_in
         end) st.
Proof.
  intros (Hc & Hth & Hg & Hni & Hh & Hloc) Ht.
  unfold warm_start. destruct t as [|t'].
  - subst loc. cbn [Nat.ltb Nat.leb l_Xw l_p0].
    unfold first_w, first_p0, first_Xw. simpl in Hh.
    apply length_zero_iff_nil in Hh.
    destruct st as [c th g ni h tr]. simpl in Hh. subst h.
    unfold same_results.
    destruct (a_coef_init a) as [coef_init|].
    + eexists _, _. split; [reflexivity|]. simpl.
      split; [repeat split|]. repeat (split; [reflexivity|]).
      eexists _, _. repeat split.
    + eexists _, _. split; [reflexivity|]. simpl.
      split; [repeat split|]. repeat (split; [reflexivity|]).
      eexists _, _. repeat split.
  - assert (Hlt : (t' < length (coefs st))%nat) by lia.
    assert (Hlt' : (t' < length (thetas st))%nat) by lia.
    apply lookup_lt_is_Some in Hlt as [wv Hwv].
    apply lookup_lt_is_Some in Hlt' as [tv Htv].
    replace (S t' - 1)%nat with t' by lia.
    cbn [Nat.ltb Nat.leb theta_slot heap_size] in *. wp_auto.
    eapply wp_copy_col; [eassumption|]. wp_auto.
    eapply wp_copy_row; [eassumption|]. wp_auto.
    assert (Hw : ((heap st ++ [wv]) ++ [tv]) !! length (heap st) = Some wv).
    { rewrite lookup_app_l by (rewrite length_app; simpl; lia).
      now rewrite lookup_app_r, Nat.sub_diag by lia. }
    assert (Hv : ((heap st ++ [wv]) ++ [tv]) !! S (length (heap st))
                 = Some tv).
    { rewrite lookup_app_r by (rewrite length_app; simpl; lia).
      rewrite length_app. cbn [length].
      replace (S (length (heap st)) - (length (heap st) + 1))%nat
        with 0%nat by lia.
      reflexivity. }
    eapply wp_read_buf; [exact Hw|]. wp_auto.
    split; [repeat split|]. cbn [fst snd l_Xw l_p0].
    rewrite !length_app, <- Hh. cbn [length].
    split; [reflexivity|]. split; [f_equal; lia|]. split; [assumption|].
    split; [lia | exists wv, tv; auto].
Qed.

Lemma wp_call3 (id : solver_id) (kernel : arr -> arr -> arr -> Z -> sol)
    (t : nat) (alpha : val) (iw ix it : nat) (p0 : Z) (wv xv tv : arr)
    (st : store arr) :
  heap st !! iw = Some wv ->
  heap st !! ix = Some xv -> heap st !! it = Some tv ->
  wp (call3 id kernel t alpha (RBuf iw) (RBuf ix) (RBuf it) p0)
    (fun s st' =>
       s = kernel wv xv tv p0 /\
       trace st' = trace st ++
         [Solve {| e_t := t; e_solver := id; e_alpha := alpha;
                   e_w := RBuf iw; e_Xw := Some (RBuf ix);
                   e_theta := Some (RBuf it); e_w_in := wv;
                   e_Xw_in := Some xv; e_theta_in := Some tv; e_p0 := p0;
                   e_sol0 := sol0 s; e_sol1 := sol1 s;
                   e_gaps := sol2 s |}] /\
       agree_except t st st') st.
Proof.
  intros Hw Hxv Htv.
  pose proof (lookup_lt_Some _ _ _ Hw).
  pose proof (lookup_lt_Some _ _ _ Hxv).
  pose proof (lookup_lt_Some _ _ _ Htv).
  unfold call3. wp_auto.
  eapply wp_read_buf; [eassumption|]. wp_auto.
  eapply wp_read_buf; [eassumption|]. wp_auto.
  eapply wp_read_buf; [eassumption|]. wp_auto.
  apply wp_write_buf; [assumption|]. wp_auto.
  apply wp_write_buf;
    [store_simpl; now rewrite ?length_insert|]. wp_auto.
  apply wp_write_buf;
    [store_simpl; now rewrite ?length_insert|]. wp_auto.
  split; [reflexivity|]. split; [reflexivity|].
  unfold agree_except. store_simpl. rewrite !length_insert. auto.
Qed.

Lemma wp_call1 (id : solver_id) (kernel : arr -> Z -> sol)
    (t : nat) (alpha : val) (iw : nat) (p0 : Z) (wv : arr)
    (st : store arr) :
  heap st !! iw = Some wv ->
  wp (call1 id kernel t alpha (RBuf iw) p0)
    (fun s st' =>
       s = kernel wv p0 /\
       trace st' = trace st ++
         [Solve {| e_t := t; e_solver := id; e_alpha := alpha;
                   e_w := RBuf iw; e_Xw := None; e_theta := None;
                   e_w_in := wv; e_Xw_in := None; e_theta_in := None;
                   e_p0 := p0;
                   e_sol0 := sol0 s; e_sol1 := sol1 s;
                   e_gaps := sol2 s |}] /\
       agree_except t st st') st.
Proof.
  intros Hw. pose proof (lookup_lt_Some _ _ _ Hw).
  unfold call1. wp_auto.
  eapply wp_read_buf; [eassumption|]. wp_auto.
  apply wp_write_buf; [assumption|]. wp_auto.
  split; [reflexivity|]. split; [reflexivity|].
  unfold agree_except. store_simpl. rewrite !length_insert. auto.
Qed.

Lemma wp_record_sol (t : nat) (s : sol) (st : store arr) :
  sol2 s <> [] ->
  (t < length (coefs st))%nat -> (t < length (thetas st))%nat ->
  (t < length (dual_gaps st))%nat ->
  wp (record_sol t s)
    (fun _ st' =>
       exists g : val,
         last (sol2 s) = Some g /\
         coefs st' = <[t:=sol0 s]> (coefs st) /\
         thetas st' = <[t:=sol1 s]> (thetas st) /\
         dual_gaps st' = <[t:=g]> (dual_gaps st) /\
         n_iters st' = n_iters st /\
         heap st' = heap st /\
         trace st' = trace st) st.
Proof.
  intros Hne Hc Hth Hg. unfold record_sol, last_gap.
  destruct (last (sol2 s)) as [g|] eqn:Hl.
  - wp_auto. apply wp_set_coefs; [assumption|]. wp_auto.
    apply wp_set_thetas; [assumption|]. wp_auto.
    apply wp_set_dual_gaps; [assumption|]. store_simpl.
    exists g. auto 10.
  - apply last_None in Hl. contradiction.
Qed.

Lemma agree_except_insert (t : nat) (st st' st'' : store arr)
    (c th : arr) (g : val) :
  agree_except t st st' ->
  coefs st'' = <[t:=c]> (coefs st') ->
  thetas st'' = <[t:=th]> (thetas st') ->
  dual_gaps st'' = <[t:=g]> (dual_gaps st') ->
  n_iters st'' = n_iters st' ->
  heap st'' = heap st' ->
  agree_except t st st''.
Proof.
  intros (Hc & Hth & Hg & Hn & Hh) Ec Eth Eg En Eh.
  unfold agree_except. rewrite Ec, Eth, Eg, En, Eh.
  repeat split; auto; intros v; rewrite list_insert_insert_eq; auto.
Qed.

Lemma agree_except_length (t : nat) (st st' : store arr) :
  agree_except t st st' ->
  length (coefs st') = length (coefs st) /\
  length (thetas st') = length (thetas st) /\
  length (dual_gaps st') = length (dual_gaps st).
Proof.
  intros (Hc & Hth & Hg & _).
  pose proof (f_equal length (Hc [])) as Lc.
  pose proof (f_equal length (Hth [])) as Lth.
  pose proof (f_equal length (Hg zero)) as Lg.
  rewrite !length_insert in Lc. rewrite !length_insert in Lth.
  rewrite !length_insert in Lg. auto.
Qed.

Lemma wp_inner_solve (t : nat) (alpha : val) (iw it : nat) (loc : locals)
    (wv xv tv : arr) (st : store arr) :
  gaps_reported K ->
  heap st !! iw = Some wv ->
  heap st !! 1%nat = Some xv -> heap st !! it = Some tv ->
  l_Xw loc = Some (RBuf 1) ->
  (t < length (coefs st))%nat -> (t < length (thetas st))%nat ->
  (t < length (dual_gaps st))%nat ->
  wp (inner_solve K a pb grp t alpha (RBuf iw) (RBuf it) loc)
    (fun s st' =>
       sol2 s <> [] /\
       trace st' = trace st ++
         [Solve {| e_t := t; e_solver := solver_of a pb; e_alpha := alpha;
                   e_w := RBuf iw;
                   e_Xw := match solver_of a pb with
                           | Newton_celer => None
                           | _ => Some (RBuf 1)
                           end;
                   e_theta := match solver_of a pb with
                              | Newton_celer => None
                              | _ => Some (RBuf it)
                              end;
                   e_w_in := wv;
                   e_Xw_in := match solver_of a pb with
                              | Newton_celer => None
                              | _ => Some xv
                              end;
                   e_theta_in := match solver_of a pb with
                                 | Newton_celer => None
                                 | _ => Some tv
                                 end;
                   e_p0 := l_p0 loc;
                   e_sol0 := sol0 s; e_sol1 := sol1 s;
                   e_gaps := sol2 s |}] /\
       agree_except t st st') st.
Proof.
  intros (Hgrp & Hcel & Hnew) Hw Hx Hit HXw Hc Hth Hg.
  unfold inner_solve, solver_of. rewrite HXw.
  destruct pb; [| destruct (a_use_PN a) |]; cbn [negb]; wp_auto.
  - eapply wp_mono; [apply wp_call3; eassumption|].
    intros s st' (-> & Htr & Hag). auto.
  - eapply wp_mono; [apply wp_call1; eassumption|].
    intros s st' (-> & Htr & Hag). auto.
  - eapply wp_mono; [apply wp_call3; eassumption|].
    intros s st' (-> & Htr & Hag). auto.
  - eapply wp_mono; [apply wp_call3; eassumption|].
    intros s st' (-> & Htr & Hag). wp_auto.
    destruct (agree_except_length _ _ _ Hag) as (Lc & Lth & Lg).
    eapply wp_mono;
      [apply wp_record_sol; [apply Hgrp | lia | lia | lia]|].
    intros _ st'' (g & _ & Ec & Eth & Eg & En & Eh & Etr). wp_auto.
    split; [apply Hgrp|]. split; [congruence|].
    eapply agree_except_insert; eauto.
Qed.

Lemma celer_step_spec (t n : nat) (loc : locals) (st : store arr) :
  gaps_reported K -> length alphas = n ->
  celer_inv a n t st loc -> (t < n)%nat ->
  wp (celer_step K a pb grp alphas t loc)
    (fun loc' st' =>
       celer_inv a n (S t) st' loc' /\
       celer_step_post K a pb grp alphas t st st') st.
Proof.
  intros HK Hn Hinv Ht.
  pose proof Hinv as (Hc & Hth & Hg & Hni & Hh & Hloc).
  assert (Ha : (t < length alphas)%nat) by lia.
  apply lookup_lt_is_Some in Ha as [alpha Halpha].
  unfold celer_step. wp_auto.
  eapply wp_index; [eassumption|]. wp_auto.
  eapply wp_mono; [eapply wp_warm_start; eassumption|].
  intros [[w theta] loc1] st1. cbn [fst snd].
  intros ((Ec1 & Eth1 & Eg1 & En1 & Etr1) & -> & -> & HXw & Hh1
          & w_in & th_in & Hwin & Hthin & Hcase).
  assert (Hx : (1 < length (heap st1))%nat) by (rewrite Hh1; simpl; lia).
  apply lookup_lt_is_Some in Hx as [xv Hxv].
  wp_auto.
  eapply wp_mono.
  { eapply wp_inner_solve; try eassumption.
    - rewrite Ec1. lia.
    - rewrite Eth1. lia.
    - rewrite Eg1. lia. }
  intros s st2 (Hne & Etr2 & Hag). wp_auto.
  destruct (agree_except_length _ _ _ Hag) as (Lc & Lth & Lg).
  eapply wp_mono.
  { apply wp_record_sol; [assumption | | | ].
    - rewrite Lc, Ec1. lia.
    - rewrite Lth, Eth1. lia.
    - rewrite Lg, Eg1. lia. }
  intros _ st3 (g & Hlast & Ec3 & Eth3 & Eg3 & En3 & Eh3 & Etr3).
  destruct Hag as (Ac & Ath & Ag & An & Ah).
  rewrite Ac, Ec1 in Ec3. rewrite Ath, Eth1 in Eth3.
  rewrite Ag, Eg1 in Eg3. rewrite An, En1 in En3.
  rewrite Etr2, Etr1 in Etr3.
  assert (Hgt : dual_gaps st3 !! t = Some g).
  { rewrite Eg3. apply list_lookup_insert_eq. lia. }
  wp_auto.
  set (c := {| e_t := t; e_solver := solver_of a pb; e_alpha := alpha;
               e_w := RBuf (heap_size t);
               e_Xw := match solver_of a pb with
                       | Newton_celer => None
                       | _ => Some (RBuf 1)
                       end;
               e_theta := match solver_of a pb with
                          | Newton_celer => None
                          | _ => Some (RBuf (theta_slot t))
                          end;
               e_w_in := w_in;
               e_Xw_in := match solver_of a pb with
                          | Newton_celer => None
                          | _ => Some xv
                          end;
               e_theta_in := match solver_of a pb with
                             | Newton_celer => None
                             | _ => Some th_in
                             end;
               e_p0 := l_p0 loc1;
               e_sol0 := sol0 s; e_sol1 := sol1 s;
               e_gaps := sol2 s |}) in *.
  assert (Hwarm : match t with
                  | O => e_w_in c = first_w a /\ e_p0 c = first_p0 a /\
                         th_in = dual_init K pb grp (e_alpha c)
                                   (first_Xw K a pb)
                  | S t' => coefs st !! t' = Some (e_w_in c) /\
                            e_p0 c = Z.max (count_nonzero (e_w_in c)) 1 /\
                            thetas st !! t' = Some th_in
                  end).
  { destruct t; exact Hcase. }
  assert (Hfinal : forall st4 : store arr,
    coefs st4 = coefs st3 -> thetas st4 = thetas st3 ->
    dual_gaps st4 = dual_gaps st3 -> heap st4 = heap st3 ->
    n_iters st4 = (if a_return_n_iter a
                   then <[t:=Z.of_nat (length (sol2 s))]> (n_iters st)
                   else n_iters st) ->
    trace st4 = trace st ++ Solve c
                  :: (if fgt g (a_tol a) then [Warn t] else []) ->
    celer_inv a n (S t) st4 loc1 /\ celer_step_post K a pb grp alphas t st st4).
  { intros st4 E1 E2 E3 E4 E5 E6. split.
    - unfold celer_inv. rewrite E1, E2, E3, E4, E5, Ec3, Eth3, Eg3, Eh3.
      rewrite !length_insert, Ah.
      destruct (a_return_n_iter a); rewrite ?length_insert; auto 10.
    - exists c, g, th_in. rewrite E1, E2, E3, E5, E6, Ec3, Eth3, Eg3.
      subst c. cbn [e_t e_solver e_alpha e_w e_Xw e_theta e_w_in e_p0
                    e_Xw_in e_theta_in e_sol0 e_sol1 e_gaps] in *.
      repeat (split; [first [assumption | reflexivity]|]).
      reflexivity. }
  assert (Hwarn : forall st4 : store arr,
    dual_gaps st4 !! t = Some g ->
    (forall st5 : store arr,
       coefs st5 = coefs st4 -> thetas st5 = thetas st4 ->
       dual_gaps st5 = dual_gaps st4 -> heap st5 = heap st4 ->
       n_iters st5 = n_iters st4 ->
       trace st5 = trace st4 ++ (if fgt g (a_tol a) then [Warn t] else [])
       -> celer_inv a n (S t) st5 loc1 /\
          celer_step_post K a pb grp alphas t st st5) ->
    wp (gap <~ get_dual_gap t ;;
        (if fgt gap (a_tol a) then emit (Warn t) else ret tt) ;;;
        ret loc1)
      (fun loc' st' => celer_inv a n (S t) st' loc' /\
                       celer_step_post K a pb grp alphas t st st') st4).
  { intros st4 Hg4 H. wp_auto.
    eapply wp_get_dual_gap; [eassumption|]. wp_auto.
    destruct (fgt g (a_tol a)); wp_auto; apply H; store_simpl; auto.
    now rewrite app_nil_r. }
  destruct (a_return_n_iter a) eqn:Hret.
  - apply wp_set_n_iters; [rewrite En3, Hni; lia|].
    apply Hwarn; [assumption|]. store_simpl.
    intros st5 E1 E2 E3 E4 E5 E6. apply Hfinal; auto.
    + now rewrite E5, En3.
    + rewrite E6, Etr3, <- app_assoc. reflexivity.
  - apply wp_ret. apply Hwarn; [assumption|].
    intros st5 E1 E2 E3 E4 E5 E6. apply Hfinal; auto.
    + now rewrite E5, En3.
    + rewrite E6, Etr3, <- app_assoc. reflexivity.
Qed.

End CelerStep.

(** ** The loop of [celer_path] *)

Lemma solves_app {A : Type} (tr tr' : list (event A)) :
  solves (tr ++ tr') = solves tr ++ solves tr'.
Proof.
  induction tr as [|[c|t] tr IH]; simpl; auto. now rewrite IH.
Qed.

Lemma warnings_app {A : Type} (tr tr' : list (event A)) :
  warnings (tr ++ tr') = warnings tr ++ warnings tr'.
Proof.
  induction tr as [|[c|t] tr IH]; simpl; auto. now rewrite IH.
Qed.

(** The residual [Xw] through one grid point. *)

Lemma wp_conj {A B : Type} (m : M A B) (Q Q' : B -> store A -> Prop)
    (st : store A) :
  wp m Q st -> wp m Q' st -> wp m (fun b st' => Q b st' /\ Q' b st') st.
Proof.
  intros (b & st' & Hm & HQ) (b' & st'' & Hm' & HQ').
  rewrite Hm in Hm'. injection Hm' as <- <-. exists b, st'. auto.
Qed.

Section CelerCarry.
Variable K : kernels.
Variable a : celer_args.
Variable pb : pb_t.
Variable grp : partition.
Variable alphas : list val.

Lemma wp_warm_start_Xw (t n : nat) (alpha : val) (loc : locals)
    (xv : arr) (st : store arr) :
  celer_inv a n t st loc -> (t < n)%nat ->
  match t with
  | O => xv = first_Xw K a pb
  | S _ => heap st !! 1%nat = Some xv
  end ->
  wp (warm_start K a pb grp t alpha loc)
    (fun _ st' => heap st' !! 1%nat = Some xv) st.
Proof.
  intros (Hc & Hth & Hg & Hni & Hh & Hloc) Ht Hxv.
  unfold warm_start. destruct t as [|t'].
  - subst loc xv. cbn [Nat.ltb Nat.leb l_Xw l_p0].
    unfold first_Xw. simpl in Hh.
    apply length_zero_iff_nil in Hh.
    destruct st as [c th g ni h tr]. simpl in Hh. subst h.
    destruct (a_coef_init a) as [coef_init|].
    + eexists _, _. split; [reflexivity|]. reflexivity.
    + eexists _, _. split; [reflexivity|]. reflexivity.
  - assert (Hlt : (t' < length (coefs st))%nat) by lia.
    assert (Hlt' : (t' < length (thetas st))%nat) by lia.
    apply lookup_lt_is_Some in Hlt as [wv Hwv].
    apply lookup_lt_is_Some in Hlt' as [tv Htv].
    pose proof (lookup_lt_Some _ _ _ Hxv) as Hx1.
    replace (S t' - 1)%nat with t' by lia.
    cbn [Nat.ltb Nat.leb theta_slot heap_size] in *. wp_auto.
    eapply wp_copy_col; [eassumption|]. wp_auto.
    eapply wp_copy_row; [eassumption|]. wp_auto.
    eapply wp_read_buf.
    { store_simpl.
      rewrite lookup_app_l by (rewrite length_app; simpl; lia).
      rewrite lookup_app_r, Nat.sub_diag by lia. reflexivity. }
    wp_auto.
    rewrite lookup_app_l by (rewrite length_app; simpl; lia).
    rewrite lookup_app_l by lia. assumption.
Qed.

Lemma wp_call3_Xw (id : solver_id) (kernel : arr -> arr -> arr -> Z -> sol)
    (t : nat) (alpha : val) (iw it : nat) (p0 : Z) (wv xv tv : arr)
    (st : store arr) :
  heap st !! iw = Some wv ->
  heap st !! 1%nat = Some xv -> heap st !! it = Some tv ->
  iw <> 1%nat -> it <> 1%nat ->
  wp (call3 id kernel t alpha (RBuf iw) (RBuf 1) (RBuf it) p0)
    (fun s st' =>
       s = kernel wv xv tv p0 /\ heap st' !! 1%nat = Some (m_Xw s)) st.
Proof.
  intros Hw Hxv Htv Nw Nt.
  pose proof (lookup_lt_Some _ _ _ Hw).
  pose proof (lookup_lt_Some _ _ _ Hxv).
  pose proof (lookup_lt_Some _ _ _ Htv).
  unfold call3. wp_auto.
  eapply wp_read_buf; [eassumption|]. wp_auto.
  eapply wp_read_buf; [eassumption|]. wp_auto.
  eapply wp_read_buf; [eassumption|]. wp_auto.
  apply wp_write_buf; [assumption|]. wp_auto.
  apply wp_write_buf;
    [store_simpl; now rewrite ?length_insert|]. wp_auto.
  apply wp_write_buf;
    [store_simpl; now rewrite ?length_insert|]. wp_auto.
  split; [reflexivity|].
  rewrite list_lookup_insert_ne by congruence.
  apply list_lookup_insert_eq. now rewrite length_insert.
Qed.

Lemma wp_call1_Xw (id : solver_id) (kernel : arr -> Z -> sol)
    (t : nat) (alpha : val) (iw : nat) (p0 : Z) (wv xv : arr)
    (st : store arr) :
  heap st !! iw = Some wv -> heap st !! 1%nat = Some xv -> iw <> 1%nat ->
  wp (call1 id kernel t alpha (RBuf iw) p0)
    (fun s st' => s = kernel wv p0 /\ heap st' !! 1%nat = Some xv) st.
Proof.
  intros Hw Hxv Nw. pose proof (lookup_lt_Some _ _ _ Hw).
  unfold call1. wp_auto.
  eapply wp_read_buf; [eassumption|]. wp_auto.
  apply wp_write_buf; [assumption|]. wp_auto.
  split; [reflexivity|].
  rewrite list_lookup_insert_ne by congruence. assumption.
Qed.

Lemma wp_inner_solve_Xw (t : nat) (alpha : val) (iw it : nat) (loc : locals)
    (wv xv tv : arr) (st : store arr) :
  gaps_reported K ->
  heap st !! iw = Some wv ->
  heap st !! 1%nat = Some xv -> heap st !! it = Some tv ->
  iw <> 1%nat -> it <> 1%nat ->
  l_Xw loc = Some (RBuf 1) ->
  (t < length (coefs st))%nat -> (t < length (thetas st))%nat ->
  (t < length (dual_gaps st))%nat ->
  wp (inner_solve K a pb grp t alpha (RBuf iw) (RBuf it) loc)
    (fun s st' =>
       s = match solver_of a pb with
           | Celer_grp => celer_grp K grp alpha wv xv tv (l_p0 loc)
           | Newton_celer => newton_celer K alpha wv (l_p0 loc)
           | _ => celer K pb alpha wv xv tv (l_p0 loc)
           end /\
       heap st' !! 1%nat = Some match solver_of a pb with
                                | Newton_celer => xv
                                | _ => m_Xw s
                                end) st.
Proof.
  intros HK Hw Hx Hit Nw Nt HXw Hc Hth Hg.
  pose proof HK as (Hgrp & Hcel & Hnew).
  unfold inner_solve, solver_of. rewrite HXw.
  destruct pb; [| destruct (a_use_PN a) |]; cbn [negb]; wp_auto.
  - apply wp_call3_Xw; assumption.
  - eapply wp_call1_Xw; eassumption.
  - apply wp_call3_Xw; assumption.
  - eapply wp_mono.
    { apply wp_conj;
        [apply (wp_call3 Celer_grp (celer_grp K grp alpha) t alpha iw 1 it
                  (l_p0 loc) wv xv tv st); assumption
        |apply (wp_call3_Xw Celer_grp (celer_grp K grp alpha) t alpha iw it
                  (l_p0 loc) wv xv tv st); assumption]. }
    intros s st' ((_ & _ & Hag) & -> & Hh1). wp_auto.
    destruct (agree_except_length _ _ _ Hag) as (Lc & Lth & Lg).
    eapply wp_mono;
      [apply wp_record_sol; [apply Hgrp | lia | lia | lia]|].
    intros _ st'' (g & _ & _ & _ & _ & _ & Eh & _). wp_auto.
    split; [reflexivity|]. now rewrite Eh.
Qed.

Lemma celer_step_carry (t n : nat) (loc : locals) (xv : arr)
    (st : store arr) :
  gaps_reported K -> length alphas = n ->
  celer_inv a n t st loc -> (t < n)%nat ->
  match t with
  | O => xv = first_Xw K a pb
  | S _ => heap st !! 1%nat = Some xv
  end ->
  wp (celer_step K a pb grp alphas t loc)
    (fun _ st' => celer_carry_post K a pb grp xv st st') st.
Proof.
  intros HK Hn Hinv Ht Hxv.
  pose proof Hinv as (Hc & Hth & Hg & Hni & Hh & Hloc).
  assert (Ha : (t < length alphas)%nat) by lia.
  apply lookup_lt_is_Some in Ha as [alpha Halpha].
  unfold celer_step. wp_auto.
  eapply wp_index; [eassumption|]. wp_auto.
  eapply wp_mono.
  { apply wp_conj;
      [eapply wp_warm_start; eassumption
      |eapply wp_warm_start_Xw; eassumption]. }
  intros [[w theta] loc1] st1. cbn [fst snd].
  intros (((Ec1 & Eth1 & Eg1 & En1 & Etr1) & -> & -> & HXw & Hh1
           & w_in & th_in & Hwin & Hthin & Hcase) & Hx1).
  assert (Nw : heap_size t <> 1%nat) by (destruct t; simpl; lia).
  assert (Nt : theta_slot t <> 1%nat) by (destruct t; simpl; lia).
  wp_auto.
  eapply wp_mono.
  { apply wp_conj.
    - eapply wp_inner_solve; try eassumption.
      + rewrite Ec1. lia.
      + rewrite Eth1. lia.
      + rewrite Eg1. lia.
    - eapply wp_inner_solve_Xw; try eassumption.
      + rewrite Ec1. lia.
      + rewrite Eth1. lia.
      + rewrite Eg1. lia. }
  intros s st2 ((Hne & Etr2 & Hag) & Hs & Hx2). wp_auto.
  destruct (agree_except_length _ _ _ Hag) as (Lc & Lth & Lg).
  eapply wp_mono.
  { apply wp_record_sol; [assumption | | | ].
    - rewrite Lc, Ec1. lia.
    - rewrite Lth, Eth1. lia.
    - rewrite Lg, Eg1. lia. }
  intros _ st3 (g & Hlast & Ec3 & Eth3 & Eg3 & En3 & Eh3 & Etr3).
  destruct Hag as (Ac & Ath & Ag & An & Ah).
  rewrite Etr2, Etr1 in Etr3.
  assert (Hgt : dual_gaps st3 !! t = Some g).
  { rewrite Eg3. apply list_lookup_insert_eq. rewrite Lg, Eg1. lia. }
  wp_auto.
  set (c := {| e_t := t; e_solver := solver_of a pb; e_alpha := alpha;
               e_w := RBuf (heap_size t);
               e_Xw := match solver_of a pb with
                       | Newton_celer => None
                       | _ => Some (RBuf 1)
                       end;
               e_theta := match solver_of a pb with
                          | Newton_celer => None
                          | _ => Some (RBuf (theta_slot t))
                          end;
               e_w_in := w_in;
               e_Xw_in := match solver_of a pb with
                          | Newton_celer => None
                          | _ => Some xv
                          end;
               e_theta_in := match solver_of a pb with
                             | Newton_celer => None
                             | _ => Some th_in
                             end;
               e_p0 := l_p0 loc1;
               e_sol0 := sol0 s; e_sol1 := sol1 s;
               e_gaps := sol2 s |}) in *.
  assert (Hret : returned K pb grp c s).
  { unfold returned, celer_sol. subst c.
    cbn [e_solver e_alpha e_w_in e_Xw_in e_theta_in e_p0 e_sol0 e_sol1
         e_gaps].
    rewrite Hs at 1. unfold solver_of.
    destruct pb; [| destruct (a_use_PN a) |]; auto. }
  assert (Hfinal : forall st4 : store arr,
    heap st4 = heap st3 ->
    trace st4 = trace st3 ++ (if fgt g (a_tol a) then [Warn t] else []) ->
    celer_carry_post K a pb grp xv st st4).
  { intros st4 E4 E6. exists c, s. split.
    - rewrite E6, Etr3, !solves_app. simpl.
      destruct (fgt g (a_tol a)); simpl; now rewrite app_nil_r.
    - split; [exact Hret|]. split; [reflexivity|].
      now rewrite E4, Eh3. }
  assert (Hwarn : forall st4 : store arr,
    dual_gaps st4 !! t = Some g ->
    heap st4 = heap st3 -> trace st4 = trace st3 ->
    wp (gap <~ get_dual_gap t ;;
        (if fgt gap (a_tol a) then emit (Warn t) else ret tt) ;;;
        ret loc1)
      (fun _ st' => celer_carry_post K a pb grp xv st st') st4).
  { intros st4 Hg4 E4 E6. wp_auto.
    eapply wp_get_dual_gap; [eassumption|]. wp_auto.
    destruct (fgt g (a_tol a)) eqn:Hf; wp_auto; apply Hfinal; store_simpl;
      rewrite ?Hf, ?E6, ?app_nil_r; auto. }
  destruct (a_return_n_iter a) eqn:Hret'.
  - apply wp_set_n_iters; [rewrite En3, An, En1, Hni; lia|].
    apply Hwarn; store_simpl; auto.
  - apply wp_ret. apply Hwarn; auto.
Qed.

End CelerCarry.

Section CelerLoop.
Variable K : kernels.
Variable a : celer_args.
Variable pb : pb_t.
Variable grp : partition.
Variable alphas : list val.

Local Abbreviation n := (length alphas).

Lemma celer_prefix_S (k : nat) :
  celer_prefix K a pb grp alphas (S k)
  = match celer_prefix K a pb grp alphas k with
    | (Ok loc, st) => celer_step K a pb grp alphas k loc st
    | (Raise e, st) => (Raise e, st)
    end.
Proof.
  unfold celer_prefix, bind, allocate, lift. cbv beta iota.
  destruct (group_norms K a pb grp); [|reflexivity].
  rewrite for_range_snoc. reflexivity.
Qed.

Lemma celer_loop_prefix :
  celer_loop K a pb grp alphas empty_store
  = match celer_prefix K a pb grp alphas n with
    | (Ok _, st) =>
        (Ok {| r_alphas := alphas;
               r_coefs := coefs st;
               r_dual_gaps := dual_gaps st;
               r_thetas := if a_return_thetas a then Some (thetas st)
                           else None;
               r_n_iters := if a_return_n_iter a then Some (n_iters st)
                            else None |}, st)
    | (Raise e, st) => (Raise e, st)
    end.
Proof.
  unfold celer_loop, celer_prefix, bind, allocate, get_store, ret, lift.
  fold n. destruct (group_norms K a pb grp); [|reflexivity].
  destruct (for_range _ _ _ _ _) as [[loc|e] st]; reflexivity.
Qed.

(** From here on the norms of lines 216 to 242 are taken without an
    exception. *)
Hypothesis norms_ok : group_norms K a pb grp = Ok tt.

Lemma celer_prefix_0 :
  celer_prefix K a pb grp alphas 0
  = (Ok {| l_Xw := None; l_p0 := a_p0 a |},
     {| coefs := repeat (zeros (a_n_features a)) n;
        thetas := repeat (zeros (a_n_samples a)) n;
        dual_gaps := repeat zero n;
        n_iters := if a_return_n_iter a then repeat 0 n else [];
        heap := []; trace := [] |}).
Proof.
  unfold celer_prefix, bind, allocate, lift. now rewrite norms_ok.
Qed.

Lemma celer_prefix_run (k : nat) :
  gaps_reported K -> (k <= n)%nat ->
  exists (loc : locals) (st : store arr),
    celer_prefix K a pb grp alphas k = (Ok loc, st) /\
    celer_inv a n k st loc /\
    run_inv K a pb grp alphas k st.
Proof.
  intros HK. induction k as [|k IH]; intros Hk.
  - eexists _, _. split; [apply celer_prefix_0|]. split.
    + unfold celer_inv. simpl. rewrite !repeat_length.
      destruct (a_return_n_iter a); rewrite ?repeat_length; auto 10.
    + split; [reflexivity|]. split; [reflexivity|].
      intros c Hc. simpl in Hc. now apply elem_of_nil in Hc.
  - destruct IH as (loc & st & Hrun & Hinv & Hs & Hw & Hall); [lia|].
    rewrite celer_prefix_S, Hrun.
    destruct (celer_step_spec K a pb grp alphas k n loc st HK eq_refl Hinv)
      as (loc' & st' & Hstep & Hinv' & Hpost); [lia|].
    exists loc', st'. split; [assumption|]. split; [assumption|].
    destruct Hpost as (c & g & th & Ha & Ht & Hsolver & Hew & HeXw & Heth
                       & Hwarm & Hthin & Hlast & Htr & Ec & Eth & Eg & En).
    destruct Hinv as (Lc & Lth & Lg & Ln & _).
    assert (Hsolves : solves (trace st') = solves (trace st) ++ [c]).
    { rewrite Htr, solves_app. simpl.
      now destruct (fgt g (a_tol a)). }
    assert (Hlen : length (solves (trace st)) = k).
    { rewrite <- (length_map e_t), Hs. apply length_seq. }
    split; [|split].
    + rewrite Hsolves, map_app, Hs, seq_S. simpl. now rewrite Ht.
    + rewrite Hsolves, Htr, warnings_app, List.filter_app, map_app, Hw.
      f_equal. simpl. unfold gap_exceeds. rewrite Hlast.
      destruct (fgt g (a_tol a)); simpl; now rewrite ?Ht.
    + intros c' Hc'. rewrite Hsolves in Hc'.
      apply elem_of_app in Hc' as [Hold|Hnew].
      * destruct (Hall c' Hold) as (Hho & Hws & Hst).
        assert (Hlt : (e_t c' < k)%nat).
        { assert (Hin : e_t c' ∈ seq 0 k).
          { rewrite <- Hs. apply list_elem_of_In, in_map.
            now apply list_elem_of_In. }
          apply elem_of_seq in Hin. lia. }
        split; [assumption|]. split.
        -- unfold warm_started in *. destruct Hws as (th' & Hth' & Hws).
           exists th'. split; [assumption|].
           destruct (e_t c') as [|t']; auto.
           destruct Hws as (Hp & c0 & Hc0 & Hwin). split; auto.
           exists c0. split; auto. rewrite Hsolves.
           now apply lookup_app_l_Some.
        -- destruct Hst as (S1 & S2 & S3 & S4).
           unfold stored. rewrite Ec, Eth, Eg, En.
           rewrite !list_lookup_insert_ne by lia.
           repeat split; auto. intros Hr. rewrite Hr.
           rewrite list_lookup_insert_ne by lia. auto.
      * apply list_elem_of_singleton in Hnew. subst c'.
        split; [|split].
        -- unfold handed_over. rewrite Ht. auto.
        -- unfold warm_started. exists th. split; [assumption|].
           rewrite Ht. destruct k as [|t']; auto.
           destruct Hwarm as (Hcol & Hp & Hrow). split; auto.
           assert (Hin : (t' < length (solves (trace st)))%nat) by lia.
           apply lookup_lt_is_Some in Hin as [c0 Hc0].
           assert (Ht0 : e_t c0 = t').
           { assert (Hm : map e_t (solves (trace st)) !! t'
                          = Some (e_t c0))
               by (rewrite lookup_map, Hc0; reflexivity).
             rewrite Hs, lookup_seq_lt in Hm by lia.
             simpl in Hm. congruence. }
           destruct (Hall c0) as (_ & _ & S1 & S2 & _).
           { apply list_elem_of_lookup. eauto. }
           rewrite Ht0 in S1, S2.
           exists c0. split; [|split; congruence].
           rewrite Hsolves. now apply lookup_app_l_Some.
        -- unfold stored. rewrite Ec, Eth, Eg, En, Ht.
           rewrite !list_lookup_insert_eq by lia.
           repeat split; auto. intros Hr. rewrite Hr.
           rewrite list_lookup_insert_eq; auto.
           rewrite Ln, Hr. lia.
Qed.

Lemma celer_prefix_step (k : nat) :
  gaps_reported K -> (k < n)%nat ->
  exists (loc loc' : locals) (st st' : store arr),
    celer_prefix K a pb grp alphas k = (Ok loc, st) /\
    celer_prefix K a pb grp alphas (S k) = (Ok loc', st') /\
    celer_inv a n k st loc /\
    celer_step_post K a pb grp alphas k st st'.
Proof.
  intros HK Hk.
  destruct (celer_prefix_run k HK) as (loc & st & Hrun & Hinv & _); [lia|].
  destruct (celer_step_spec K a pb grp alphas k n loc st HK eq_refl Hinv Hk)
    as (loc' & st' & Hstep & _ & Hpost).
  exists loc, loc', st, st'. rewrite celer_prefix_S, Hrun. auto.
Qed.

(** Later grid points leave the results of earlier ones alone. *)
Lemma celer_prefix_frame (k k' t : nat) :
  gaps_reported K -> (t < k)%nat -> (k <= k')%nat -> (k' <= n)%nat ->
  let st := (celer_prefix K a pb grp alphas k).2 in
  let st' := (celer_prefix K a pb grp alphas k').2 in
  coefs st' !! t = coefs st !! t /\
  thetas st' !! t = thetas st !! t /\
  dual_gaps st' !! t = dual_gaps st !! t /\
  n_iters st' !! t = n_iters st !! t.
Proof.
  intros HK Ht Hk. cbv zeta. induction Hk as [|k' Hk IH]; intros Hn.
  - auto.
  - destruct (celer_prefix_step k' HK) as
      (loc & loc' & st & st' & Hrun & Hrun' & _ & Hpost); [lia|].
    destruct IH as (Ic & Ith & Ig & In_); [lia|].
    rewrite Hrun in Ic, Ith, Ig, In_. rewrite Hrun'. cbn [snd] in *.
    destruct Hpost as (c & g & th & _ & _ & _ & _ & _ & _ & _ & _ & _ & _
                       & Ec & Eth & Eg & En).
    rewrite Ec, Eth, Eg, En.
    rewrite !list_lookup_insert_ne by lia.
    repeat split; auto.
    destruct (a_return_n_iter a); auto.
    now rewrite list_lookup_insert_ne by lia.
Qed.

(** The solves of the first [k] grid points ran the solvers, each on the
    residual the one before it left. *)
Lemma celer_prefix_carry (k : nat) :
  gaps_reported K -> (k <= n)%nat ->
  exists (loc : locals) (st : store arr),
    celer_prefix K a pb grp alphas k = (Ok loc, st) /\
    (forall c : solve_call arr, solves (trace st) !! 0%nat = Some c ->
       e_Xw_in c = match solver_of a pb with
                   | Newton_celer => None
                   | _ => Some (first_Xw K a pb)
                   end) /\
    celer_carried K a pb grp (solves (trace st)) /\
    (forall c : solve_call arr, c ∈ solves (trace st) ->
       exists s : sol, returned K pb grp c s) /\
    match k with
    | O => True
    | S k' =>
        exists (c : solve_call arr) (s : sol),
          solves (trace st) !! k' = Some c /\ returned K pb grp c s /\
          heap st !! 1%nat = Some match solver_of a pb with
                                  | Newton_celer => first_Xw K a pb
                                  | _ => m_Xw s
                                  end
    end.
Proof.
  intros HK. induction k as [|k IH]; intros Hk.
  - eexists _, _. split; [apply celer_prefix_0|]. cbn [trace solves].
    split; [intros c Hc; discriminate|].
    split; [intros t c c' Hc; discriminate|].
    split; [intros c Hc; now apply elem_of_nil in Hc | exact I].
  - destruct IH as (loc & st & Hrun & Hfirst & Hcar & Hret0 & Hlast); [lia|].
    destruct (celer_prefix_run k HK)
      as (loc0 & st0 & Hrun0 & Hinv & Hs & _); [lia|].
    rewrite Hrun in Hrun0. injection Hrun0 as <- <-.
    assert (Hlen : length (solves (trace st)) = k).
    { rewrite <- (length_map e_t), Hs. apply length_seq. }
    set (xv := match k with
               | O => first_Xw K a pb
               | S _ => match solver_of a pb with
                        | Newton_celer => first_Xw K a pb
                        | _ => match last (solves (trace st)) with
                               | Some c =>
                                   match celer_sol K pb grp c with
                                   | Some s => m_Xw s
                                   | None => []
                                   end
                               | None => []
                               end
                        end
               end).
    assert (Hxv : match k with
                  | O => xv = first_Xw K a pb
                  | S _ => heap st !! 1%nat = Some xv
                  end).
    { destruct k as [|k']; [reflexivity|].
      destruct Hlast as (c & s & Hc & (Hsol & _) & Hh1).
      rewrite Hh1. f_equal. unfold xv.
      assert (Hl : last (solves (trace st)) = Some c).
      { rewrite last_lookup, Hlen. exact Hc. }
      rewrite Hl, Hsol. reflexivity. }
    destruct (celer_step_carry K a pb grp alphas k n loc xv st HK eq_refl
                Hinv) as (loc' & st' & Hstep & c & s & Hsolves & Hret
                          & Hxin & Hh1); [lia | exact Hxv |].
    exists loc', st'. rewrite celer_prefix_S, Hrun.
    split; [exact Hstep|]. rewrite Hsolves.
    split; [|split; [|split]].
    + intros c0 Hc0. destruct k as [|k'].
      * apply length_zero_iff_nil in Hlen. rewrite Hlen in Hc0.
        simpl in Hc0. injection Hc0 as <-. exact Hxin.
      * apply Hfirst. rewrite lookup_app_l in Hc0 by lia. exact Hc0.
    + intros t c1 c2 H1 H2.
      destruct (decide (S t < k)%nat) as [Hlt|Hge].
      * rewrite lookup_app_l in H1 by lia.
        rewrite lookup_app_l in H2 by lia. eapply Hcar; eassumption.
      * assert (Hlt2 : (S t < length (solves (trace st) ++ [c]))%nat)
          by (eapply lookup_lt_Some; eassumption).
        rewrite length_app, Hlen in Hlt2. simpl in Hlt2.
        destruct k as [|k']; [lia|].
        assert (Et : t = k') by lia. subst t.
        rewrite lookup_app_l in H1 by lia.
        rewrite lookup_app_r, Hlen, Nat.sub_diag in H2 by lia.
        simpl in H2. injection H2 as <-.
        destruct Hlast as (c0 & s0 & Hc0 & Hrc0 & Hh0).
        rewrite Hc0 in H1. injection H1 as <-.
        exists s0. split; [assumption|].
        rewrite Hxin. rewrite Hh0 in Hxv.
        destruct (solver_of a pb); congruence.
    + intros c0 Hc0. apply elem_of_app in Hc0 as [Hc0|Hc0].
      * now apply Hret0.
      * apply list_elem_of_singleton in Hc0. subst c0. eauto.
    + exists c, s. split.
      { rewrite lookup_app_r, Hlen, Nat.sub_diag by lia. reflexivity. }
      split; [assumption|]. rewrite Hh1. f_equal.
      destruct (solver_of a pb); try reflexivity.
      unfold xv. destruct k as [|k']; reflexivity.
Qed.

End CelerLoop.

(** [celer_path] runs through once the grid and the norms are there. *)
Lemma celer_path_run (K : kernels) (a : celer_args) (pb : pb_t)
    (grp : partition) (alphas : list val) :
  set_up K a pb grp alphas -> gaps_reported K ->
  exists (loc : locals) (st : store arr),
    celer_prefix K a pb grp alphas (length alphas) = (Ok loc, st) /\
    celer_path K a
    = (Ok {| r_alphas := alphas;
             r_coefs := coefs st;
             r_dual_gaps := dual_gaps st;
             r_thetas := if a_return_thetas a then Some (thetas st)
                         else None;
             r_n_iters := if a_return_n_iter a then Some (n_iters st)
                          else None |}, st) /\
    celer_inv a (length alphas) (length alphas) st loc /\
    run_inv K a pb grp alphas (length alphas) st /\
    forall c : solve_call arr, c ∈ solves (trace st) ->
      exists s : sol, returned K pb grp c s.
Proof.
  intros (_ & _ & Hv & Hc & Ha & Hn) HK.
  destruct (celer_prefix_run K a pb grp alphas Hn (length alphas) HK)
    as (loc & st & Hrun & Hinv & Hall); [lia|].
  destruct (celer_prefix_carry K a pb grp alphas Hn (length alphas) HK)
    as (loc' & st' & Hrun' & _ & _ & Hret & _); [lia|].
  rewrite Hrun in Hrun'. injection Hrun' as <- <-.
  exists loc, st. split; [assumption|]. split; [|auto].
  unfold celer_path. rewrite Hv, Hc, Ha, celer_loop_prefix.
  now rewrite Hrun.
Qed.

Lemma NoDup_map_inj {A B : Type} (f : A -> B) (l : list A) (x y : A) :
  NoDup (map f l) -> x ∈ l -> y ∈ l -> f x = f y -> x = y.
Proof.
  intros Hnd Hx Hy Hf.
  apply list_elem_of_lookup in Hx as [i Hi].
  apply list_elem_of_lookup in Hy as [j Hj].
  assert (i = j).
  { eapply (NoDup_lookup (map f l)); [assumption| |];
      rewrite lookup_map; [rewrite Hi | rewrite Hj]; simpl;
      [reflexivity | now rewrite Hf]. }
  congruence.
Qed.

Lemma warned_iff {A : Type} (tol : val) (cs : list (solve_call A))
    (k : nat) (c : solve_call A) :
  map e_t cs = seq 0 k -> c ∈ cs ->
  e_t c ∈ map e_t (List.filter (gap_exceeds tol) cs)
  <-> gap_exceeds tol c = true.
Proof.
  intros Hs Hc.
  assert (Hnd : NoDup (map e_t cs)) by (rewrite Hs; apply NoDup_seq).
  split.
  - intros Hin. apply list_elem_of_In, in_map_iff in Hin
      as (c' & Ht & Hc').
    apply List.filter_In in Hc' as [Hc' Hp].
    assert (c' = c); [|congruence].
    eapply NoDup_map_inj; eauto. now apply list_elem_of_In.
  - intros Hp. apply list_elem_of_In, in_map, List.filter_In.
    split; [now apply list_elem_of_In | assumption].
Qed.

(** ** [celer_path]: warnings, grid points, warm starts *)

Lemma echo_gaps_reported (gap : val) : gaps_reported (echo_kernels gap).
Proof. repeat split; intros; discriminate. Qed.

(** C1. When the set-up of [celer_path] goes through (the validation, the
    grid, the norms of the groups) and the solvers report their gaps,
    [celer_path] returns its results for the whole grid: as many columns of
    [coefs] and entries of [dual_gaps] as there are [alphas], [thetas] and
    [n_iters] when asked for. It runs one solve per grid point in order;
    each is a call of the solver on the arrays it was handed, the gap
    stored for the grid point is the last one this call reported, and a
    warning is issued at the grid point exactly when that gap exceeds
    [tol], after which the next grid point is solved like the others. *)
Theorem celer_path_warns (K : kernels) (a : celer_args) (pb : pb_t)
    (grp : partition) (alphas : list val) :
  set_up K a pb grp alphas -> gaps_reported K ->
  exists (r : path_results) (st : store arr),
    celer_path K a = (Ok r, st) /\
    r_alphas r = alphas /\
    let n := length alphas in
    length (r_coefs r) = n /\
    length (r_dual_gaps r) = n /\
    (exists ths, length ths = n /\
       r_thetas r = if a_return_thetas a then Some ths else None) /\
    (exists its, (a_return_n_iter a = true -> length its = n) /\
       r_n_iters r = if a_return_n_iter a then Some its else None) /\
    map e_t (solves (trace st)) = seq 0 n /\
    warnings (trace st)
    = map e_t (List.filter (gap_exceeds (a_tol a)) (solves (trace st))) /\
    forall c : solve_call arr, c ∈ solves (trace st) ->
      exists (s : sol) (g : val),
        celer_sol K pb grp c = Some s /\
        e_gaps c = sol2 s /\
        last (sol2 s) = Some g /\
        r_dual_gaps r !! e_t c = Some g /\
        (e_t c ∈ warnings (trace st) <-> fgt g (a_tol a) = true).
Proof.
  intros Hset HK. pose proof Hset as (_ & _ & Hv & _ & Ha & Hn).
  destruct (celer_path_run K a pb grp alphas Hset HK)
    as (loc & st & _ & Hpath & Hinv & (Hs & Hw & Hall) & Hret).
  destruct Hinv as (Lc & Lth & Lg & Ln & _).
  eexists _, st. split; [exact Hpath|]. cbn [r_alphas r_coefs r_dual_gaps
    r_thetas r_n_iters].
  split; [reflexivity|].
  split; [assumption|]. split; [assumption|].
  split; [exists (thetas st); auto|].
  split.
  { exists (n_iters st). split; [|reflexivity].
    intros Hr. now rewrite Hr in Ln. }
  split; [assumption|]. split; [assumption|].
  intros c Hc. destruct (Hall c Hc) as (_ & _ & _ & _ & S3 & _).
  destruct (Hret c Hc) as (s & Hsol & _ & _ & Eg).
  assert (Hg : is_Some (dual_gaps st !! e_t c)).
  { apply lookup_lt_is_Some. rewrite Lg.
    assert (Hin : e_t c ∈ seq 0 (length alphas)).
    { rewrite <- Hs. apply list_elem_of_In, in_map.
      now apply list_elem_of_In. }
    apply elem_of_seq in Hin. lia. }
  destruct Hg as [g Hg]. rewrite Hg in S3. rewrite Eg in S3.
  exists s, g. split; [exact Hsol|]. split; [exact Eg|].
  split; [now symmetry|]. split; [exact Hg|].
  rewrite Hw, (warned_iff (a_tol a) _ _ c Hs Hc).
  unfold gap_exceeds. rewrite Eg, <- S3. reflexivity.
Qed.

Lemma celer_path_warns_witness :
  let a := small_args "Lasso" None None None in
  set_up (echo_kernels one) a LASSO None [one; one] /\
  gaps_reported (echo_kernels one) /\
  exists (r : path_results) (st : store arr),
    celer_path (echo_kernels one) a = (Ok r, st) /\
    length (r_coefs r) = 2%nat /\
    warnings (trace st) = [0%nat; 1%nat].
Proof.
  intros a.
  assert (Hset : set_up (echo_kernels one) a LASSO None [one; one]).
  { split; [split; [reflexivity | exact I]|].
    split; [intros H; discriminate|]. repeat split. }
  split; [exact Hset|]. split; [exact (echo_gaps_reported one)|].
  destruct (celer_path_warns (echo_kernels one) a LASSO None [one; one]
              Hset (echo_gaps_reported one))
    as (r & st & Hrun & _ & Hlen & _).
  exists r, st. split; [exact Hrun|]. split; [exact Hlen|].
  vm_compute in Hrun. injection Hrun as _ <-. reflexivity.
Defined.

(** C7. When its set-up goes through and the solvers report their gaps,
    [celer_path] solves every grid point once, in the order of the grid and
    starting with the first [alpha]. The solve of grid point [t] is a call
    of the solver with [alphas[t]]; it changes [coefs], [thetas] and
    [dual_gaps] at position [t] only, where the results hold what the
    solver returned: its coefficients, its dual point and the last of its
    gaps. *)
Theorem celer_path_grid (K : kernels) (a : celer_args) (pb : pb_t)
    (grp : partition) (alphas : list val) :
  set_up K a pb grp alphas -> gaps_reported K ->
  exists (r : path_results) (st : store arr),
    celer_path K a = (Ok r, st) /\
    r_alphas r = alphas /\
    map e_t (solves (trace st)) = seq 0 (length alphas) /\
    (forall c : solve_call arr, c ∈ solves (trace st) ->
       exists s : sol,
         celer_sol K pb grp c = Some s /\
         alphas !! e_t c = Some (e_alpha c) /\
         r_coefs r !! e_t c = Some (sol0 s) /\
         thetas st !! e_t c = Some (sol1 s) /\
         r_dual_gaps r !! e_t c = last (sol2 s)) /\
    (r_thetas r = if a_return_thetas a then Some (thetas st) else None) /\
    (forall t : nat, (t < length alphas)%nat ->
       exists (loc loc' : locals) (st1 st2 : store arr)
              (c : solve_call arr) (s : sol) (g : val),
         celer_prefix K a pb grp alphas t = (Ok loc, st1) /\
         celer_prefix K a pb grp alphas (S t) = (Ok loc', st2) /\
         solves (trace st2) = solves (trace st1) ++ [c] /\
         e_t c = t /\ celer_sol K pb grp c = Some s /\
         last (sol2 s) = Some g /\
         coefs st2 = <[t:=sol0 s]> (coefs st1) /\
         thetas st2 = <[t:=sol1 s]> (thetas st1) /\
         dual_gaps st2 = <[t:=g]> (dual_gaps st1)).
Proof.
  intros Hset HK. pose proof Hset as (_ & _ & Hv & _ & Ha & Hn).
  destruct (celer_path_run K a pb grp alphas Hset HK)
    as (loc & st & _ & Hpath & Hinv & (Hs & Hw & Hall) & Hret).
  eexists _, st. split; [exact Hpath|]. cbn [r_alphas r_coefs r_dual_gaps
    r_thetas r_n_iters].
  split; [reflexivity|].
  split; [assumption|]. split; [|split; [reflexivity|]].
  - intros c Hc.
    destruct (Hall c Hc) as ((Hal & _) & _ & S1 & S2 & S3 & _).
    destruct (Hret c Hc) as (s & Hsol & E0 & E1 & Eg).
    exists s. rewrite <- E0, <- E1, <- Eg. auto.
  - intros t Ht.
    destruct (celer_prefix_step K a pb grp alphas Hn t HK Ht)
      as (l1 & l2 & st1 & st2 & H1 & H2 & _ & Hpost).
    destruct Hpost as (c & g & th & _ & Et & _ & _ & _ & _ & _ & _ & Hlast
                       & Htr & Ec & Eth & Eg & _).
    assert (Hsolves : solves (trace st2) = solves (trace st1) ++ [c]).
    { rewrite Htr, solves_app. simpl. now destruct (fgt g (a_tol a)). }
    destruct (celer_prefix_carry K a pb grp alphas Hn (S t) HK)
      as (l2' & st2' & H2' & _ & _ & Hret2 & _); [lia|].
    rewrite H2 in H2'. injection H2' as <- <-.
    destruct (Hret2 c) as (s & Hsol & E0 & E1 & Eg').
    { rewrite Hsolves. apply elem_of_app. right.
      now apply list_elem_of_singleton. }
    exists l1, l2, st1, st2, c, s, g.
    rewrite <- E0, <- E1, <- Eg'. auto 10.
Qed.

Lemma celer_path_grid_witness :
  let a := small_args "GroupLasso" None None (Some (GSizes [1; 2])) in
  let grp := Some ([0; 1; 3], [0; 1; 2]) in
  set_up (echo_kernels zero) a GRPLASSO grp [one; one] /\
  gaps_reported (echo_kernels zero) /\
  exists (r : path_results) (st : store arr),
    celer_path (echo_kernels zero) a = (Ok r, st) /\
    map e_t (solves (trace st)) = [0%nat; 1%nat] /\
    map e_solver (solves (trace st)) = [Celer_grp; Celer_grp].
Proof.
  intros a grp.
  assert (Hset : set_up (echo_kernels zero) a GRPLASSO grp [one; one]).
  { split; [split; [reflexivity | exact I]|].
    split; [intros _; repeat constructor; discriminate|]. repeat split. }
  split; [exact Hset|]. split; [exact (echo_gaps_reported zero)|].
  destruct (celer_path_grid (echo_kernels zero) a GRPLASSO grp [one; one]
              Hset (echo_gaps_reported zero))
    as (r & st & Hrun & _ & Hs & _).
  exists r, st. split; [exact Hrun|]. split; [exact Hs|].
  vm_compute in Hrun. injection Hrun as _ <-. reflexivity.
Defined.

(** C4 (as amended). The working-set size handed to the solver is: at the
    first grid point, [p0] as given when there is no [coef_init], and the
    largest of [p0] and the number of non-zero entries of [coef_init]
    otherwise; at every later grid point, the largest of 1 and the number
    of non-zero coefficients returned for the previous grid point, which
    are the coefficients the solve starts from. This holds of every run of
    [celer_path] whose set-up goes through and whose solvers report their
    gaps. *)
Theorem celer_path_working_set (K : kernels) (a : celer_args) (pb : pb_t)
    (grp : partition) (alphas : list val) :
  set_up K a pb grp alphas -> gaps_reported K ->
  exists (r : path_results) (st : store arr),
    celer_path K a = (Ok r, st) /\
    forall c : solve_call arr, c ∈ solves (trace st) ->
      match e_t c with
      | O =>
          match a_coef_init a with
          | Some coef_init =>
              e_w_in c = coef_init /\
              e_p0 c = Z.max (count_nonzero coef_init) (a_p0 a)
          | None => e_p0 c = a_p0 a
          end
      | S t' =>
          r_coefs r !! t' = Some (e_w_in c) /\
          e_p0 c = Z.max (count_nonzero (e_w_in c)) 1
      end.
Proof.
  intros Hset HK. pose proof Hset as (_ & _ & Hv & _ & Ha & Hn).
  destruct (celer_path_run K a pb grp alphas Hset HK)
    as (loc & st & _ & Hpath & Hinv & (Hs & Hw & Hall) & _).
  eexists _, st. split; [exact Hpath|]. cbn [r_coefs].
  intros c Hc. destruct (Hall c Hc) as (_ & (th & _ & Hwarm) & _).
  unfold first_w, first_p0 in Hwarm.
  destruct (e_t c) as [|t'].
  - destruct (a_coef_init a); tauto.
  - destruct Hwarm as (Hp & c' & Hc' & Hin & _). split; [|assumption].
    assert (Ht' : e_t c' = t').
    { assert (Hm : map e_t (solves (trace st)) !! t' = Some (e_t c'))
        by (rewrite lookup_map, Hc'; reflexivity).
      rewrite Hs in Hm. apply lookup_seq in Hm. lia. }
    destruct (Hall c') as (_ & _ & S1 & _).
    { apply list_elem_of_lookup. eauto. }
    rewrite Ht' in S1. congruence.
Qed.

Lemma celer_path_working_set_witness :
  let a := small_args "lasso" None (Some [one; zero; zero]) None in
  set_up (echo_kernels zero) a LASSO None [one; one] /\
  gaps_reported (echo_kernels zero) /\
  exists (st : store arr) (c : solve_call arr),
    (celer_path (echo_kernels zero) a).2 = st /\
    solves (trace st) !! 0%nat = Some c /\ e_p0 c = 10.
Proof.
  intros a.
  assert (Hset : set_up (echo_kernels zero) a LASSO None [one; one]).
  { split; [split; reflexivity|].
    split; [intros H; discriminate|]. repeat split. }
  split; [exact Hset|]. split; [exact (echo_gaps_reported zero)|].
  destruct (celer_path_working_set (echo_kernels zero) a LASSO None
              [one; one] Hset (echo_gaps_reported zero))
    as (r & st & Hrun & Hall).
  exists st. rewrite Hrun. cbn [snd].
  vm_compute in Hrun. injection Hrun as _ <-.
  eexists. split; [reflexivity|]. split; reflexivity.
Defined.

(** C4, as stated, fails: started from an all-zero [coef_init] with
    [p0 = 10], the first solve gets 10 and the second one 1, where the
    smallest of the number of non-zero coordinates and [p0] is 0. *)
Lemma working_set_is_not_the_smallest :
  exists c0 c1 : solve_call arr,
    solves (trace (celer_path (echo_kernels zero)
                     (small_args "lasso" None (Some [zero; zero; zero])
                        None)).2)
    = [c0; c1] /\
    count_nonzero (e_w_in c0) = 0 /\
    e_p0 c0 = 10 /\ e_p0 c0 <> Z.min (count_nonzero (e_w_in c0)) 10 /\
    count_nonzero (e_w_in c1) = 0 /\
    e_p0 c1 = 1 /\ e_p0 c1 <> Z.min (count_nonzero (e_w_in c1)) 10.
Proof.
  eexists _, _. split; [vm_compute; reflexivity|].
  vm_compute. repeat split; congruence.
Qed.

(** ** Validation *)

Section RaisesOnly.
Context {A : Type}.
Variable P : exn -> Prop.

Lemma ro_ret {B : Type} (b : B) : raises_only P (@ret A B b).
Proof. intros st st' e H. discriminate. Qed.

Lemma ro_raise {B : Type} (e : exn) : P e -> raises_only P (@raise A B e).
Proof. intros He st st' e' H. injection H as <- _. assumption. Qed.

Lemma ro_bind {B C : Type} (m : M A B) (k : B -> M A C) :
  raises_only P m -> (forall b, raises_only P (k b)) ->
  raises_only P (bind m k).
Proof.
  intros Hm Hk st st' e. unfold bind.
  destruct (m st) as [[b|e'] st1] eqn:E.
  - apply Hk.
  - intros H. injection H as <- _. eapply Hm; eauto.
Qed.

Lemma ro_total {B : Type} (m : M A B) :
  (forall st, exists b st', m st = (Ok b, st')) -> raises_only P m.
Proof.
  intros H st st' e Hm. destruct (H st) as (b & st1 & E). congruence.
Qed.

Hypothesis index_error : P IndexError.
Hypothesis name_error : P NameError.

Lemma ro_index {B : Type} (l : list B) (i : nat) :
  raises_only P (@index A B l i).
Proof.
  unfold index. destruct (l !! i); [apply ro_ret | now apply ro_raise].
Qed.

Lemma ro_name {B : Type} (x : option B) : raises_only P (@name A B x).
Proof.
  unfold name. destruct x; [apply ro_ret | now apply ro_raise].
Qed.

Lemma ro_read (r : ref) : raises_only P (@read A r).
Proof.
  intros st st' e. unfold read. destruct r; apply ro_index.
Qed.

Lemma ro_alloc (x : A) : raises_only P (alloc x).
Proof. intros st st' e H. discriminate. Qed.

Lemma ro_copy (r : ref) : raises_only P (@copy A r).
Proof.
  unfold copy. apply ro_bind; [apply ro_read | intros; apply ro_alloc].
Qed.

Lemma ro_assign (len t : nat) (upd : store A -> store A) :
  raises_only P (assign len t upd).
Proof.
  intros st st' e. unfold assign. destruct (decide _); [discriminate|].
  intros H. injection H as <- _. assumption.
Qed.

Lemma ro_write (r : ref) (x : A) : raises_only P (write r x).
Proof.
  destruct r; intros st st' e; apply ro_assign.
Qed.

Lemma ro_emit (ev : event A) : raises_only P (emit ev).
Proof. intros st st' e H. discriminate. Qed.

Lemma ro_for_range {L : Type} (body : nat -> L -> M A L) (n t : nat)
    (x : L) :
  (forall t' x', raises_only P (body t' x')) ->
  raises_only P (for_range body t n x).
Proof.
  intros Hb. revert t x. induction n as [|n IH]; intros t x; simpl.
  - apply ro_ret.
  - apply ro_bind; auto.
Qed.

End RaisesOnly.

Ltac ro_auto :=
  repeat first
    [ apply ro_ret | apply ro_alloc | apply ro_emit
    | apply ro_index; assumption | apply ro_name; assumption
    | apply ro_read; assumption | apply ro_copy; assumption
    | apply ro_write; assumption | apply ro_assign; assumption
    | apply ro_bind; [|intros]
    | match goal with
      | |- raises_only _ (if ?b then _ else _) => destruct b
      | |- raises_only _ (match ?x with _ => _ end) => destruct x
      end ].

(** The grid points of [celer_path] raise nothing but [IndexError] and
    [NameError]. *)
Lemma celer_steps_raise (K : kernels) (a : celer_args) (pb : pb_t)
    (grp : partition) (alphas : list val) (n : nat) (loc : locals) :
  raises_only (fun e => e = IndexError \/ e = NameError)
    (for_range (celer_step K a pb grp alphas) 0 n loc).
Proof.
  assert (Hi : (fun e => e = IndexError \/ e = NameError) IndexError)
    by now left.
  assert (Hn : (fun e => e = IndexError \/ e = NameError) NameError)
    by now right.
  apply ro_for_range. intros t loc'.
  unfold celer_step, warm_start, inner_solve, record_sol, last_gap,
    call3, call1, set_coefs, set_thetas, set_dual_gaps, set_n_iters,
    get_dual_gap.
  ro_auto; try (apply ro_raise; now left);
    intros st st' e; first [apply (ro_assign _ Hi) | apply (ro_index _ Hi)].
Qed.

(** When [celer_loop] raises, either the norms of the groups did, with the
    result arrays allocated and nothing else done, or a grid point did. *)
Lemma celer_loop_raise (K : kernels) (a : celer_args) (pb : pb_t)
    (grp : partition) (alphas : list val) (e : exn) :
  (celer_loop K a pb grp alphas empty_store).1 = Raise e ->
  (group_norms K a pb grp = Raise e /\
   celer_loop K a pb grp alphas empty_store
   = (Raise e,
      (allocate (zeros (a_n_features a)) (zeros (a_n_samples a))
         (length alphas) (a_return_n_iter a) empty_store).2)) \/
  (group_norms K a pb grp = Ok tt /\ (e = IndexError \/ e = NameError)).
Proof.
  unfold celer_loop, bind, allocate, lift, get_store, ret.
  destruct (group_norms K a pb grp) as [[]|e'].
  - destruct (for_range _ _ _ _ _) as [[loc|e'] st'] eqn:E;
      [discriminate|].
    intros H. injection H as ->. right. split; [reflexivity|].
    exact (celer_steps_raise K a pb grp alphas _ _ _ _ _ E).
  - intros H. injection H as ->. left. auto.
Qed.

Lemma collect_raise {B : Type} (l : list (result B)) (e : exn) :
  collect l = Raise e -> In (Raise e) l.
Proof.
  induction l as [|[b|e'] l IH]; simpl; [discriminate| |].
  - destruct (collect l); [discriminate|].
    intros H. right. apply IH. congruence.
  - intros H. left. congruence.
Qed.

(** [alpha_max] raises nothing but [IndexError] and [NameError]. *)
Lemma alpha_max_raise (K : kernels) (a : celer_args) (pb : pb_t)
    (grp : partition) (e : exn) :
  alpha_max K a pb grp = Raise e -> e = IndexError \/ e = NameError.
Proof.
  unfold alpha_max. destruct pb; try discriminate.
  destruct grp as [[grp_ptr grp_indices]|].
  - destruct (collect _) as [cols|e'] eqn:E; [discriminate|].
    intros H. injection H as ->. left.
    apply collect_raise, in_map_iff in E as (g & Hg & _).
    unfold group_columns, group_features, select_columns in Hg.
    destruct (grp_ptr !! g), (grp_ptr !! S g); try congruence.
    destruct (forallb _ _); congruence.
  - intros H. injection H as <-. now right.
Qed.

(** The grid raises [ValueError] when [np.geomspace] does, and only
    then. *)
Lemma make_alphas_value_error (K : kernels) (a : celer_args) (pb : pb_t)
    (grp : partition) :
  make_alphas K a pb grp = Raise ValueError <->
  a_alphas a = None /\
  geomspace_rejects (a_eps a) (a_n_alphas a) = true /\
  exists alpha_max0 : val, alpha_max K a pb grp = Ok alpha_max0.
Proof.
  unfold make_alphas. destruct (a_alphas a) as [alphas|].
  - split; [discriminate | intros (H & _); discriminate].
  - destruct (alpha_max K a pb grp) as [am|e] eqn:E.
    + destruct (geomspace_rejects _ _).
      * split; eauto.
      * split; [discriminate | intros (_ & H & _); discriminate].
    + split.
      * intros H. injection H as ->.
        apply alpha_max_raise in E. destruct E; discriminate.
      * intros (_ & _ & am & H). discriminate.
Qed.

Lemma has_bad_label_spec (y : arr) :
  has_bad_label y = true <->
  exists x : val, In x y /\ SFeqb x minus_one = false /\ SFeqb x one = false.
Proof.
  unfold has_bad_label, bad_label. rewrite existsb_exists.
  split; intros (x & Hx & H); exists x; (split; [assumption|]).
  - apply negb_true_iff, orb_false_iff in H. assumption.
  - apply negb_true_iff, orb_false_iff. assumption.
Qed.

Lemma grp_converter_value_error (groups : groups_t) (n : Z) :
  groups <> GInt 0 -> groups <> GSizes [] -> groups <> GIndexLists [] ->
  _grp_converter groups n = Raise ValueError <->
  (exists k : Z, groups = GInt k /\ n mod k <> 0) \/ groups = GOther.
Proof.
  intros H0 Hs Hl. destruct groups as [k|[|s sizes]|[|l ls]|]; simpl;
    try congruence.
  - destruct (Z.eqb_spec k 0) as [->|Hk]; [congruence|].
    destruct (Z.eqb_spec (n mod k) 0) as [Hm|Hm]; simpl.
    + split; [discriminate|].
      intros [(k' & E & Hk')|E]; [|discriminate].
      injection E as <-. contradiction.
    + split; [|reflexivity]. intros _. left. eauto.
  - split; [discriminate|]. intros [(k & E & _)|E]; discriminate.
  - split; [discriminate|]. intros [(k & E & _)|E]; discriminate.
  - split; auto.
Qed.

Lemma validate_value_error (a : celer_args) :
  groups_regular a ->
  validate a = Raise ValueError <-> value_error_cases a.
Proof.
  intros (H0 & Hs & Hl). unfold validate, value_error_cases. cbv zeta.
  destruct (String.eqb_spec (lower (a_pb a)) "lasso") as [E1|E1];
    [| destruct (String.eqb_spec (lower (a_pb a)) "logreg") as [E2|E2];
       [| destruct (String.eqb_spec (lower (a_pb a)) "grouplasso")
            as [E3|E3]]];
    cbn [orb negb].
  - rewrite E1. split; [discriminate|].
    intros [(H & _)|[(H & _)|(H & _)]]; congruence.
  - rewrite E2. split.
    + destruct (has_bad_label (a_y a)) eqn:Hb; [|discriminate].
      intros _. right. left. split; [reflexivity|].
      now apply has_bad_label_spec.
    + intros [(_ & H & _)|[(_ & Hb)|(H & _)]]; try congruence.
      apply has_bad_label_spec in Hb. now rewrite Hb.
  - rewrite E3. destruct (a_groups a) as [groups|] eqn:Eg.
    + pose proof (grp_converter_value_error groups
                    (Z.of_nat (a_n_features a))) as Hconv.
      destruct (_grp_converter groups (Z.of_nat (a_n_features a)))
        as [grp|e] eqn:Ec.
      * split; [discriminate|].
        intros [(_ & _ & H)|[(H & _)|(_ & H)]]; try congruence.
        assert (Hr : Ok grp = Raise ValueError); [|discriminate].
        apply Hconv; try congruence.
        destruct H as [H|[(k & E & Hk)|H]]; [discriminate| |].
        -- left. exists k. split; congruence.
        -- right. congruence.
      * split.
        -- intros H. injection H as ->. right. right.
           split; [reflexivity|]. right.
           destruct Hconv as [Hconv _]; try congruence.
           destruct (Hconv eq_refl) as [(k & -> & Hk) | ->]; eauto.
        -- intros [(_ & _ & H)|[(H & _)|(_ & H)]]; try congruence.
           f_equal. assert (Hr : Raise e = Raise (A := list Z * list Z)
                                  ValueError); [|congruence].
           apply Hconv; try congruence.
           destruct H as [H|[(k & E & Hk)|H]]; [discriminate| |].
           ++ left. exists k. split; congruence.
           ++ right. congruence.
    + split; [|reflexivity]. intros _. right. right. auto.
  - split; [|reflexivity]. intros _. left. auto.
Qed.

(** What [validate] returns for the group Lasso, and for it only, is the
    partition of [_grp_converter]. *)
Lemma validate_ok (a : celer_args) (pb : pb_t) (grp : partition) :
  validate a = Ok (pb, grp) ->
  (pb = GRPLASSO <-> lower (a_pb a) = "grouplasso"%string) /\
  (pb = GRPLASSO ->
   exists (groups : groups_t) (grp_ptr grp_indices : list Z),
     a_groups a = Some groups /\
     _grp_converter groups (Z.of_nat (a_n_features a))
     = Ok (grp_ptr, grp_indices) /\
     grp = Some (grp_ptr, grp_indices)).
Proof.
  unfold validate. cbv zeta.
  destruct (String.eqb_spec (lower (a_pb a)) "lasso") as [E1|E1];
    [| destruct (String.eqb_spec (lower (a_pb a)) "logreg") as [E2|E2];
       [| destruct (String.eqb_spec (lower (a_pb a)) "grouplasso")
            as [E3|E3]]];
    cbn [orb negb].
  - intros H. injection H as <- <-. rewrite E1.
    repeat split; discriminate.
  - destruct (has_bad_label (a_y a)); [discriminate|].
    intros H. injection H as <- <-. rewrite E2.
    repeat split; discriminate.
  - destruct (a_groups a) as [groups|]; [|discriminate].
    destruct (_grp_converter groups (Z.of_nat (a_n_features a)))
      as [[grp_ptr grp_indices]|e] eqn:Ec; [|discriminate].
    intros H. injection H as <- <-. split; [tauto|].
    intros _. exists groups, grp_ptr, grp_indices. auto.
  - discriminate.
Qed.

(** [grp_ptr] comes back empty, and [n_groups] negative, for a negative
    group size only. *)
Lemma grp_converter_no_group (groups : groups_t) (n : Z)
    (grp_ptr grp_indices : list Z) :
  0 <= n -> _grp_converter groups n = Ok (grp_ptr, grp_indices) ->
  n_groups grp_ptr < 0 <->
  exists k : Z, groups = GInt k /\ k < 0 /\ n mod k = 0 /\ 0 < n.
Proof.
  intros Hn. unfold n_groups.
  destruct groups as [k|[|s sizes]|[|l ls]|]; simpl; try discriminate.
  - destruct (Z.eqb_spec k 0) as [->|Hk]; [discriminate|].
    destruct (Z.eqb_spec (n mod k) 0) as [Hm|Hm]; [|discriminate].
    simpl. intros H. injection H as <- _.
    unfold Np.astype_int32. rewrite !length_map, arange_length.
    pose proof (Z.div_exact n k Hk) as [_ Hq]. specialize (Hq Hm).
    split.
    + intros Hlt. exists k. repeat split; auto; nia.
    + intros (k' & E & Hk' & _ & Hn'). injection E as <-. nia.
  - intros H. injection H as <- _.
    unfold Np.astype_int32. cbn [map length].
    split; [lia|]. intros (k & E & _). discriminate.
  - intros H. injection H as <- _.
    unfold Np.astype_int32. cbn [map length].
    split; [lia|]. intros (k & E & _). discriminate.
Qed.

(** With a negative group size that divides [n_features], the validation
    and [alpha_max] go through, and the norms raise [ValueError]. *)
Lemma negative_group_size_run (K : kernels) (a : celer_args) :
  negative_group_size a ->
  exists grp : partition,
    validate a = Ok (GRPLASSO, grp) /\
    alpha_max K a GRPLASSO grp = Ok (alpha_max_grplasso K grp) /\
    group_norms K a GRPLASSO grp = Raise ValueError.
Proof.
  intros (Hpb & k & Hg & Hk & Hm & Hn).
  assert (Hk0 : k <> 0) by lia.
  pose proof (Z.div_exact (Z.of_nat (a_n_features a)) k Hk0) as [_ Hq].
  specialize (Hq Hm).
  assert (Hptr : Np.arange (Z.of_nat (a_n_features a) / k + 1) = []).
  { unfold Np.arange.
    replace (Z.to_nat (Z.of_nat (a_n_features a) / k + 1)) with 0%nat
      by nia.
    reflexivity. }
  exists (Some ([], Np.astype_int32 (Np.arange (Z.of_nat (a_n_features a))))).
  split; [|split; reflexivity].
  unfold validate. cbv zeta. rewrite Hpb, Hg. cbn [String.eqb orb negb].
  change (String.eqb "grouplasso" "lasso") with false.
  change (String.eqb "grouplasso" "logreg") with false.
  change (String.eqb "grouplasso" "grouplasso") with true.
  cbn [orb negb]. unfold _grp_converter.
  destruct (Z.eqb_spec k 0) as [|_]; [contradiction|].
  rewrite Hm, Hptr. reflexivity.
Qed.

Lemma no_grid_dec (K : kernels) (a : celer_args) :
  no_grid K a \/ ~ no_grid K a.
Proof.
  unfold no_grid.
  destruct (a_alphas a); [right; intros (H & _); discriminate|].
  destruct (geomspace_rejects _ _);
    [|right; intros (_ & H & _); discriminate].
  destruct (validate a) as [[pb grp]|e] eqn:Ev;
    [|right; intros (_ & _ & pb & grp & am & H & _); discriminate].
  destruct (alpha_max K a pb grp) as [am|e] eqn:Ea.
  - left. eauto 10.
  - right. intros (_ & _ & pb' & grp' & am & H & H').
    injection H as <- <-. congruence.
Qed.

(** C3 (as amended). Take well shaped arrays that [check_array] accepts,
    [groups] neither the integer 0 nor an empty list, with integers that
    fit [int64], and a norm that raises [ValueError] on no group. Then
    [celer_path] raises [ValueError] exactly in these cases, and in each of
    them before any solver is called. Either the problem name, compared
    without case, is none of lasso, logreg and grouplasso; or it is logreg
    and [y] holds a value other than -1.0 and 1.0; or it is grouplasso and
    [groups] is [None], or an integer that does not divide [n_features], or
    neither an integer nor a list of integers or of lists. Or the grid is
    to be computed and [np.geomspace] rejects [eps] or [n_alphas]. In
    these cases nothing was allocated. Or the problem is grouplasso and
    [groups] is a negative integer that divides [n_features]: then the
    result arrays were allocated, and nothing else was done. *)
Theorem celer_path_value_error (K : kernels) (a : celer_args) :
  groups_regular a -> groups_fit a -> well_shaped a ->
  check_array K = Ok tt -> norms_defined K a ->
  ((celer_path K a).1 = Raise ValueError
   <-> value_error_cases a \/ no_grid K a \/ negative_group_size a) /\
  (value_error_cases a \/ no_grid K a ->
   celer_path K a = (Raise ValueError, empty_store)) /\
  (negative_group_size a -> ~ no_grid K a ->
   exists alphas : list val,
     celer_path K a
     = (Raise ValueError,
        (allocate (zeros (a_n_features a)) (zeros (a_n_samples a))
           (length alphas) (a_return_n_iter a) empty_store).2)) /\
  ((celer_path K a).1 = Raise ValueError ->
   solves (trace (celer_path K a).2) = []).
Proof.
  intros Hreg _ _ Hcheck Hnorm.
  pose proof (validate_value_error a Hreg) as Hv.
  assert (Hearly : value_error_cases a \/ no_grid K a ->
                   celer_path K a = (Raise ValueError, empty_store)).
  { intros [H|(Hal & Hgeo & pb & grp & am & E & Eam)].
    - apply Hv in H. unfold celer_path. now rewrite H.
    - unfold celer_path. rewrite E, Hcheck.
      assert (Ha : make_alphas K a pb grp = Raise ValueError)
        by (apply make_alphas_value_error; eauto).
      now rewrite Ha. }
  assert (Hneg : negative_group_size a -> ~ no_grid K a ->
            exists alphas : list val,
              celer_path K a
              = (Raise ValueError,
                 (allocate (zeros (a_n_features a)) (zeros (a_n_samples a))
                    (length alphas) (a_return_n_iter a) empty_store).2)).
  { intros H Hno.
    destruct (negative_group_size_run K a H) as (grp & E & Eam & En).
    assert (Ha : exists alphas, make_alphas K a GRPLASSO grp = Ok alphas).
    { unfold make_alphas. rewrite Eam.
      destruct (a_alphas a) as [alphas|] eqn:Eal; [eauto|].
      destruct (geomspace_rejects _ _) eqn:Eg; [|eauto].
      exfalso. apply Hno. split; [assumption|]. split; [assumption|].
      eauto. }
    destruct Ha as (alphas & Ha).
    exists alphas. unfold celer_path. rewrite E, Hcheck, Ha.
    unfold celer_loop, bind, allocate, lift. now rewrite En. }
  assert (Hiff : (celer_path K a).1 = Raise ValueError
                 <-> value_error_cases a \/ no_grid K a
                     \/ negative_group_size a);
    [|split; [exact Hiff|]; split; [assumption|]; split; [assumption|];
      intros H; apply Hiff in H as [H|[H|H]];
      [now rewrite (Hearly (or_introl H))
      |now rewrite (Hearly (or_intror H))
      |destruct (no_grid_dec K a) as [Hg|Hg];
       [now rewrite (Hearly (or_intror Hg))
       |destruct (Hneg H Hg) as (alphas & ->); reflexivity]]].
  split.
  - unfold celer_path. destruct (validate a) as [[pb grp]|e] eqn:E.
    + rewrite Hcheck.
      destruct (make_alphas K a pb grp) as [alphas|e] eqn:Ea.
      * intros H. right. right.
        destruct (celer_loop_raise K a pb grp alphas ValueError H)
          as [[Hn _]|[_ [Hn|Hn]]]; try discriminate.
        destruct (validate_ok a pb grp E) as [Hpb Hgrp].
        unfold group_norms in Hn. destruct pb; try discriminate.
        destruct (Hgrp eq_refl) as (groups & grp_ptr & grp_indices
                                    & Hg & Hc & ->).
        destruct (Z.ltb_spec (n_groups grp_ptr) 0) as [Hlt|Hge].
        -- pose proof (grp_converter_no_group groups
                         (Z.of_nat (a_n_features a)) grp_ptr grp_indices
                         ltac:(lia) Hc) as [Hno _].
           destruct (Hno Hlt) as (k & -> & Hk & Hm & Hpos).
           split; [now apply Hpb|]. exists k. repeat split; auto. lia.
        -- destruct (collect _) as [norms|e] eqn:Ec; [discriminate|].
           injection Hn as ->.
           apply collect_raise, in_map_iff in Ec as (g & Hg' & _).
           now apply (Hnorm grp_ptr grp_indices g) in Hg'.
      * cbn [fst]. intros H. injection H as ->. right. left.
        apply make_alphas_value_error in Ea as (Hal & Hgeo & am & Eam).
        split; [assumption|]. split; [assumption|]. eauto.
    + cbn [fst]. intros H. injection H as ->. left. now apply Hv.
  - intros [H|[H|H]].
    + now rewrite (Hearly (or_introl H)).
    + now rewrite (Hearly (or_intror H)).
    + destruct (no_grid_dec K a) as [Hg|Hg].
      * now rewrite (Hearly (or_intror Hg)).
      * destruct (Hneg H Hg) as (alphas & ->). reflexivity.
Qed.

Lemma echo_norms_defined (gap : val) (a : celer_args) :
  norms_defined (echo_kernels gap) a.
Proof.
  intros grp_ptr grp_indices g _. unfold group_norm_at.
  destruct (grp_ptr !! g), (grp_ptr !! S g); try discriminate.
  destruct (select_columns _ _) as [cols|e] eqn:Es.
  - destruct (_ && _); discriminate.
  - unfold select_columns in Es.
    destruct (forallb _ _); [discriminate|]. injection Es as <-.
    discriminate.
Qed.

Lemma celer_path_value_error_witness :
  let a := small_args "GroupLasso" None None (Some (GInt (-1))) in
  groups_regular a /\ groups_fit a /\ well_shaped a /\
  check_array (echo_kernels zero) = Ok tt /\
  norms_defined (echo_kernels zero) a /\
  negative_group_size a /\ ~ no_grid (echo_kernels zero) a /\
  celer_path (echo_kernels zero) a
  = (Raise ValueError,
     {| coefs := [zeros 3; zeros 3]; thetas := [zeros 2; zeros 2];
        dual_gaps := [zero; zero]; n_iters := [0; 0];
        heap := []; trace := [] |}).
Proof.
  intros a.
  assert (Hreg : groups_regular a) by (repeat split; discriminate).
  assert (Hfit : groups_fit a) by (intros _; split; discriminate).
  assert (Hshape : well_shaped a) by (split; [reflexivity | exact I]).
  assert (Hneg : negative_group_size a).
  { split; [reflexivity|]. exists (-1). split; [reflexivity|].
    split; [lia|]. split; [reflexivity|]. simpl. lia. }
  assert (Hgrid : ~ no_grid (echo_kernels zero) a)
    by (intros (_ & H & _); discriminate).
  split; [exact Hreg|]. split; [exact Hfit|]. split; [exact Hshape|].
  split; [reflexivity|].
  split; [exact (echo_norms_defined zero a)|]. split; [exact Hneg|].
  split; [exact Hgrid|].
  destruct (celer_path_value_error (echo_kernels zero) a Hreg Hfit Hshape
              eq_refl (echo_norms_defined zero a)) as (_ & _ & Hrun & _).
  destruct (Hrun Hneg Hgrid) as (alphas & E). rewrite E.
  vm_compute in E. injection E as E. f_equal.
  destruct alphas as [|x [|y [|z alphas]]]; try discriminate. reflexivity.
Defined.

(** C3, as stated, fails four ways: a group size that does not divide
    [n_features] is not looked at for the Lasso; the group size 0 raises
    [ZeroDivisionError] and the empty list [IndexError], not [ValueError];
    and the group size -1, which divides [n_features] and is an integer,
    raises [ValueError] all the same, once the result arrays are
    allocated. *)
Lemma value_error_not_in_all_listed_cases :
  3 mod 2 <> 0 /\
  (exists r, (celer_path (echo_kernels zero)
                (small_args "lasso" None None (Some (GInt 2)))).1 = Ok r) /\
  (celer_path (echo_kernels zero)
     (small_args "grouplasso" None None (Some (GInt 0)))).1
  = Raise ZeroDivisionError /\
  (celer_path (echo_kernels zero)
     (small_args "grouplasso" None None (Some (GSizes [])))).1
  = Raise IndexError /\
  3 mod (-1) = 0 /\
  ~ value_error_cases (small_args "grouplasso" None None (Some (GInt (-1))))
  /\
  (celer_path (echo_kernels zero)
     (small_args "grouplasso" None None (Some (GInt (-1))))).1
  = Raise ValueError /\
  coefs (celer_path (echo_kernels zero)
           (small_args "grouplasso" None None (Some (GInt (-1))))).2
  = [zeros 3; zeros 3].
Proof.
  split; [discriminate|]. split; [eexists; vm_compute; reflexivity|].
  split; [reflexivity|]. split; [reflexivity|]. split; [reflexivity|].
  split; [|split; reflexivity].
  intros [(_ & _ & H)|[(H & _)|(_ & [H|[(k & E & Hk)|H]])]].
  - now apply H.
  - discriminate.
  - discriminate.
  - injection E as <-. now apply Hk.
  - discriminate.
Qed.

(** ** One grid point of [mtl_path] *)

Lemma wp_column0 {A : Type} (W : mat) (Q : arr -> store A -> Prop)
    (st : store A) :
  (0 < n_cols W)%nat -> Q (first_column W) st -> wp (column0 W) Q st.
Proof.
  intros Hc HQ. exists (first_column W), st. unfold column0.
  now rewrite decide_True.
Qed.

Section MtlStep.
Variable K : mtl_kernels.
Variable b : mtl_args.
Variable alphas : list val.

Lemma wp_call_mtl (t : nat) (alpha : val) (iw : nat) (p_t : Z)
    (wv rv tv : mat) (st : store mat) :
  heap st !! iw = Some wv -> heap st !! 0%nat = Some rv ->
  heap st !! 1%nat = Some tv ->
  wp (call_mtl K t alpha (RBuf iw) (RBuf 0) (RBuf 1) p_t)
    (fun s st' =>
       s = celer_mtl K alpha wv rv tv p_t /\
       trace st' = trace st ++
         [Solve {| e_t := t; e_solver := Celer_mtl; e_alpha := alpha;
                   e_w := RBuf iw; e_Xw := Some (RBuf 0);
                   e_theta := Some (RBuf 1); e_w_in := wv;
                   e_Xw_in := Some rv; e_theta_in := Some tv; e_p0 := p_t;
                   e_sol0 := msol0 s; e_sol1 := msol1 s;
                   e_gaps := [msol2 s] |}] /\
       coefs st' = coefs st /\ thetas st' = thetas st /\
       dual_gaps st' = dual_gaps st /\
       length (heap st') = length (heap st)) st.
Proof.
  intros Hw Hr Ht.
  pose proof (lookup_lt_Some _ _ _ Hw).
  pose proof (lookup_lt_Some _ _ _ Hr).
  pose proof (lookup_lt_Some _ _ _ Ht).
  unfold call_mtl. wp_auto.
  eapply wp_read_buf; [eassumption|]. wp_auto.
  eapply wp_read_buf; [eassumption|]. wp_auto.
  eapply wp_read_buf; [eassumption|]. wp_auto.
  apply wp_write_buf; [assumption|]. wp_auto.
  apply wp_write_buf;
    [store_simpl; now rewrite ?length_insert|]. wp_auto.
  apply wp_write_buf;
    [store_simpl; now rewrite ?length_insert|]. wp_auto.
  rewrite !length_insert. auto 10.
Qed.

Lemma mtl_step_spec (t n : nat) (st : store mat) :
  (forall alpha W R theta p0,
     (0 < n_cols (msol0 (celer_mtl K alpha W R theta p0)))%nat) ->
  length alphas = n -> mtl_inv b n t st -> (t < n)%nat ->
  wp (mtl_step K b alphas (RBuf 0) (RBuf 1) t tt)
    (fun _ st' => mtl_inv b n (S t) st' /\
                  mtl_step_post K b alphas t st st') st.
Proof.
  intros HK Hn (Hc & Hth & Hg & Hh & Hprev) Ht.
  assert (Ha : (t < length alphas)%nat) by lia.
  apply lookup_lt_is_Some in Ha as [alpha Halpha].
  assert (Hr : (0 < length (heap st))%nat) by lia.
  assert (Hv : (1 < length (heap st))%nat) by lia.
  apply lookup_lt_is_Some in Hr as [rv Hrv].
  apply lookup_lt_is_Some in Hv as [tv Htv].
  assert (Hw : exists wv : mat,
             coefs st !! Nat.pred t = Some wv /\
             match t with
             | O => True
             | S _ => (0 < n_cols wv)%nat
             end).
  { destruct t as [|t']; [|destruct Hprev as (W & HW & Hcols); eauto].
    assert (H0 : (0 < length (coefs st))%nat) by lia.
    apply lookup_lt_is_Some in H0 as [wv Hwv]. eauto. }
  destruct Hw as (wv & Hwv & Hcols).
  set (p_t := match t with
              | O => 10
              | S _ => Z.max (count_nonzero (first_column wv)) (b_p0 b)
              end).
  assert (Hwarm : wp
    (if (0 <? t)%nat
     then W <~ copy (RCol (t - 1)) ;;
          wv <~ read W ;;
          c <~ column0 wv ;;
          ret (W, Z.max (count_nonzero c) (b_p0 b))
     else W <~ copy (RCol t) ;; ret (W, 10))
    (fun Wp st' => Wp = (RBuf (length (heap st)), p_t) /\
                   st' = with_heap (fun h => h ++ [wv]) st) st).
  { destruct t as [|t']; cbn [Nat.ltb Nat.leb Nat.pred] in *.
    - wp_auto. eapply wp_copy_col; [eassumption|]. wp_auto. auto.
    - replace (S t' - 1)%nat with t' by lia. wp_auto.
      eapply wp_copy_col; [eassumption|]. wp_auto.
      eapply wp_read_buf.
      { store_simpl.
        rewrite lookup_app_r, Nat.sub_diag by lia. reflexivity. }
      wp_auto. apply wp_column0; [assumption|]. wp_auto. auto. }
  unfold mtl_step. wp_auto.
  eapply wp_mono; [exact Hwarm|].
  intros Wp st1 (-> & ->). wp_auto.
  eapply wp_index; [eassumption|]. wp_auto.
  eapply wp_mono.
  { eapply (wp_call_mtl t alpha (length (heap st)) p_t wv rv tv);
      store_simpl.
    - rewrite lookup_app_r, Nat.sub_diag by lia. reflexivity.
    - rewrite lookup_app_l by lia. assumption.
    - rewrite lookup_app_l by lia. assumption. }
  store_simpl.
  intros s st2 (Hs & Etr & Ec & Eth & Eg & Eh). wp_auto.
  rewrite length_app in Eh. cbn [length] in Eh.
  apply wp_set_coefs; [rewrite Ec; lia|]. wp_auto.
  apply wp_set_thetas; [store_simpl; rewrite Eth; lia|]. wp_auto.
  apply wp_set_dual_gaps; [store_simpl; rewrite Eg; lia|]. store_simpl.
  split.
  - unfold mtl_inv. store_simpl. rewrite !length_insert, Ec, Eth, Eg, Eh.
    repeat split; try lia.
    exists (msol0 s). split; [apply list_lookup_insert_eq; lia|].
    rewrite Hs. apply HK.
  - unfold mtl_step_post. store_simpl.
    exists {| e_t := t; e_solver := Celer_mtl; e_alpha := alpha;
              e_w := RBuf (length (heap st)); e_Xw := Some (RBuf 0);
              e_theta := Some (RBuf 1); e_w_in := wv;
              e_Xw_in := Some rv; e_theta_in := Some tv; e_p0 := p_t;
              e_sol0 := msol0 s; e_sol1 := msol1 s;
              e_gaps := [msol2 s] |}, rv, tv.
    cbn [e_t e_solver e_alpha e_w e_Xw e_theta e_w_in e_p0 e_sol0 e_sol1
         e_gaps e_Xw_in e_theta_in].
    rewrite <- Hs, Ec, Eth, Eg, Etr, Hh.
    repeat split; auto.
Qed.

End MtlStep.

(** ** The loop of [mtl_path] *)

Section MtlLoop.
Variable K : mtl_kernels.
Variable b : mtl_args.

Local Abbreviation alphas := (mtl_alphas K b).
Local Abbreviation n := (length (mtl_alphas K b)).

Lemma mtl_prefix_S (k : nat) :
  mtl_prefix K b (S k)
  = match mtl_prefix K b k with
    | (Ok _, st) => mtl_step K b alphas (RBuf 0) (RBuf 1) k tt st
    | (Raise e, st) => (Raise e, st)
    end.
Proof.
  unfold mtl_prefix, bind, mtl_allocate, alloc. cbv beta iota.
  cbn [heap with_heap empty_store length app].
  rewrite for_range_snoc. unfold bind. fold alphas.
  destruct (for_range _ _ _ _ _) as [[[]|e] st]; reflexivity.
Qed.

Lemma mtl_path_prefix :
  mtl_path K b
  = match mtl_prefix K b n with
    | (Ok _, st) =>
        (Ok {| q_alphas := alphas;
               q_coefs := map swapaxes (coefs st);
               q_gaps := dual_gaps st;
               q_thetas := if b_return_thetas b then Some (thetas st)
                           else None |}, st)
    | (Raise e, st) => (Raise e, st)
    end.
Proof.
  unfold mtl_path, mtl_loop, mtl_prefix, bind, mtl_allocate, alloc,
    get_store, ret.
  cbv beta iota zeta. cbn [heap with_heap empty_store length app].
  fold alphas. fold n.
  destruct (for_range _ _ _ _ _) as [[[]|e] st]; reflexivity.
Qed.

Lemma mtl_prefix_0 :
  mtl_regular K b ->
  exists st : store mat,
    mtl_prefix K b 0 = (Ok tt, st) /\ mtl_inv b n 0 st /\ trace st = [].
Proof.
  intros [Hci _]. eexists. split; [reflexivity|].
  split; [|reflexivity]. unfold mtl_inv, mtl_coefs0.
  cbn [coefs thetas dual_gaps heap with_heap empty_store app length].
  fold alphas. fold n. rewrite !repeat_length.
  repeat split; auto.
  destruct (b_coef_init b) as [ci|].
  - rewrite length_map. apply Hci.
  - now rewrite repeat_length.
Qed.

Lemma mtl_prefix_run (k : nat) :
  mtl_regular K b -> (k <= n)%nat ->
  exists st : store mat,
    mtl_prefix K b k = (Ok tt, st) /\
    mtl_inv b n k st /\
    mtl_run_inv K b k st.
Proof.
  intros HK. induction k as [|k IH]; intros Hk.
  - destruct (mtl_prefix_0 HK) as (st & Hrun & Hinv & Htr).
    exists st. split; [assumption|]. split; [assumption|].
    unfold mtl_run_inv. rewrite Htr. split; [reflexivity|].
    intros c Hc. simpl in Hc. now apply elem_of_nil in Hc.
  - destruct IH as (st & Hrun & Hinv & Hs & Hall); [lia|].
    rewrite mtl_prefix_S, Hrun.
    destruct (mtl_step_spec K b alphas k n st (proj2 HK) eq_refl Hinv)
      as ([] & st' & Hstep & Hinv' & Hpost); [lia|].
    exists st'. split; [assumption|]. split; [assumption|].
    destruct Hpost as (c & rv & tv & Ha & Ht & Hsv & Hew & HeXw & Heth
                       & Hwin & Hp & Hrv & Htv & Hxin & Hthin & Hsol & Htr
                       & Ec & Eth).
    cbv zeta in Hsol. destruct Hsol as (E0 & E1 & Eg & Edg).
    destruct Hinv as (Lc & Lth & Lg & Lh & Hk0).
    assert (Hsolves : solves (trace st') = solves (trace st) ++ [c]).
    { rewrite Htr, solves_app. reflexivity. }
    assert (Hlen : length (solves (trace st)) = k).
    { rewrite <- (length_map e_t), Hs. apply length_seq. }
    split.
    + rewrite Hsolves, map_app, Hs, seq_S. simpl. now rewrite Ht.
    + intros c' Hc'. rewrite Hsolves in Hc'.
      apply elem_of_app in Hc' as [Hold|Hnew].
      * destruct (Hall c' Hold)
          as (F1 & F2 & F3 & F4 & F5 & F6 & F7 & g & F8 & F9).
        assert (Hlt : (e_t c' < k)%nat).
        { assert (Hin : e_t c' ∈ seq 0 k).
          { rewrite <- Hs. apply list_elem_of_In, in_map.
            now apply list_elem_of_In. }
          apply elem_of_seq in Hin. lia. }
        unfold mtl_solve_facts. rewrite Ec, Eth, Edg.
        rewrite !list_lookup_insert_ne by lia.
        repeat split; auto; [|eauto].
        destruct (e_t c') as [|t']; auto.
        destruct F5 as (Hp' & c0 & Hc0 & Hin0). split; auto.
        exists c0. split; auto. rewrite Hsolves.
        now apply lookup_app_l_Some.
      * apply list_elem_of_singleton in Hnew. subst c'.
        unfold mtl_solve_facts. rewrite Ec, Eth, Edg, Ht.
        rewrite !list_lookup_insert_eq by lia.
        repeat split; auto; [|eauto].
        destruct k as [|t'].
        -- destruct Hk0 as (Hc0 & Hh0).
           rewrite Hh0 in Hrv, Htv. cbn in Hrv, Htv.
           injection Hrv as <-. injection Htv as <-.
           unfold mtl_first_call. fold alphas. fold n.
           cbn [Nat.pred] in Hwin. rewrite Hc0 in Hwin.
           rewrite Ha, Hwin. rewrite Hp in E0, E1, Eg.
           destruct c as [ct csolver calpha cw cXw ctheta cwin cxin cthin
                            cp0 cs0 cs1 cgaps].
           cbn [e_t e_solver e_alpha e_w e_Xw e_theta e_w_in e_p0 e_sol0
                e_sol1 e_gaps e_Xw_in e_theta_in] in *.
           subst. reflexivity.
        -- cbn [Nat.pred] in Hwin. split; auto.
           assert (Hin : (t' < length (solves (trace st)))%nat) by lia.
           apply lookup_lt_is_Some in Hin as [c0 Hc0].
           exists c0. split.
           ++ rewrite Hsolves. now apply lookup_app_l_Some.
           ++ assert (Ht0 : e_t c0 = t').
              { assert (Hm : map e_t (solves (trace st)) !! t'
                             = Some (e_t c0))
                  by (rewrite lookup_map, Hc0; reflexivity).
                rewrite Hs in Hm. apply lookup_seq in Hm. lia. }
              destruct (Hall c0) as (_ & _ & _ & _ & _ & S1 & _).
              { apply list_elem_of_lookup. eauto. }
              rewrite Ht0 in S1. congruence.
Qed.

Lemma mtl_prefix_step (k : nat) :
  mtl_regular K b -> (k < n)%nat ->
  exists st st' : store mat,
    mtl_prefix K b k = (Ok tt, st) /\
    mtl_prefix K b (S k) = (Ok tt, st') /\
    mtl_step_post K b alphas k st st'.
Proof.
  intros HK Hk.
  destruct (mtl_prefix_run k HK) as (st & Hrun & Hinv & _); [lia|].
  destruct (mtl_step_spec K b alphas k n st (proj2 HK) eq_refl Hinv Hk)
    as ([] & st' & Hstep & _ & Hpost).
  exists st, st'. rewrite mtl_prefix_S, Hrun. auto.
Qed.

Lemma mtl_prefix_frame (k k' t : nat) :
  mtl_regular K b -> (t < k)%nat -> (k <= k')%nat -> (k' <= n)%nat ->
  let st := (mtl_prefix K b k).2 in
  let st' := (mtl_prefix K b k').2 in
  coefs st' !! t = coefs st !! t /\
  thetas st' !! t = thetas st !! t /\
  dual_gaps st' !! t = dual_gaps st !! t.
Proof.
  intros HK Ht Hk. cbv zeta. induction Hk as [|k' Hk IH]; intros Hn.
  - auto.
  - destruct (mtl_prefix_step k' HK) as (st & st' & Hrun & Hrun' & Hpost);
      [lia|].
    destruct IH as (Ic & Ith & Ig); [lia|].
    rewrite Hrun in Ic, Ith, Ig. rewrite Hrun'. cbn [snd] in *.
    destruct Hpost as (c & rv & tv & _ & _ & _ & _ & _ & _ & _ & _ & _ & _
                       & _ & _ & Hsol & _ & Ec & Eth).
    cbv zeta in Hsol. destruct Hsol as (_ & _ & _ & Eg).
    rewrite Ec, Eth, Eg.
    rewrite !list_lookup_insert_ne by lia. auto.
Qed.

End MtlLoop.

Lemma mtl_path_run (K : mtl_kernels) (b : mtl_args) :
  mtl_regular K b ->
  let alphas := mtl_alphas K b in
  exists st : store mat,
    mtl_prefix K b (length alphas) = (Ok tt, st) /\
    mtl_path K b
    = (Ok {| q_alphas := alphas;
             q_coefs := map swapaxes (coefs st);
             q_gaps := dual_gaps st;
             q_thetas := if b_return_thetas b then Some (thetas st)
                         else None |}, st) /\
    mtl_run_inv K b (length alphas) st.
Proof.
  intros HK alphas.
  destruct (mtl_prefix_run K b (length alphas) HK) as (st & Hrun & _ & Hall);
    [unfold alphas; lia|].
  exists st. split; [assumption|]. split; [|assumption].
  rewrite mtl_path_prefix. fold alphas. now rewrite Hrun.
Qed.

Lemma echo_mtl_regular (alphas : option (list val)) (p0 : Z) :
  mtl_regular echo_mtl_kernels (small_mtl_args alphas p0).
Proof. split; [exact I | intros; simpl; lia]. Qed.

(** ** [mtl_path]: the working-set size *)



(** ** Warm starts and stored results *)

Lemma slots_distinct (t t' : nat) :
  (heap_size t = heap_size t' -> t = t') /\
  (theta_slot t = theta_slot t' -> t = t') /\
  heap_size t <> theta_slot t'.
Proof. destruct t, t'; simpl; lia. Qed.

Lemma celer_private_arrays (a : celer_args) (pb : pb_t) (alphas : list val)
    (cs : list (solve_call arr)) :
  (forall c, c ∈ cs -> handed_over a pb alphas c) ->
  private_arrays cs /\ forall c, c ∈ cs -> NoDup (own_arrays c).
Proof.
  intros Hall.
  assert (Hown : forall c r, c ∈ cs -> r ∈ own_arrays c ->
            r = RBuf (heap_size (e_t c)) \/ r = RBuf (theta_slot (e_t c))).
  { intros c r Hc Hr. destruct (Hall c Hc) as (_ & _ & Hw & _ & Hth).
    unfold own_arrays in Hr. rewrite Hw, Hth in Hr.
    destruct (solver_of a pb);
      repeat (apply elem_of_cons in Hr as [Hr|Hr]; auto);
      now apply elem_of_nil in Hr. }
  split.
  - intros c c' r Hc Hc' Hr Hr'.
    pose proof (slots_distinct (e_t c) (e_t c')) as (S1 & S2 & S3).
    pose proof (slots_distinct (e_t c') (e_t c)) as (_ & _ & S4).
    destruct (Hown c r Hc Hr) as [E|E], (Hown c' r Hc' Hr') as [E'|E'];
      (split; [eauto|]); rewrite E in E'; injection E' as E';
      auto; congruence.
  - intros c Hc. destruct (Hall c Hc) as (_ & _ & Hw & _ & Hth).
    unfold own_arrays. rewrite Hw, Hth.
    pose proof (slots_distinct (e_t c) (e_t c)) as (_ & _ & S3).
    destruct (solver_of a pb); repeat constructor;
      try (intros H; apply elem_of_nil in H; contradiction);
      intros H; apply list_elem_of_singleton in H; congruence.
Qed.

(** C8 (as amended). In [celer_path] every solve is handed primal and dual
    arrays of its own, copies that no other solve is handed and that are
    neither columns of [coefs] nor rows of [thetas]; after the first grid
    point the coefficients and the dual point it starts from are those
    stored for the previous grid point. In [mtl_path] every solve is handed
    a coefficient array of its own, but one residual array and one dual
    array serve all the solves. In both, what is stored for a grid point is
    left as it is by every later grid point. For [celer_path] this is
    said of the runs whose set-up goes through and whose solvers report
    their gaps; for [mtl_path], of the runs on a grid [np.geomspace]
    accepts, a [coef_init] with a slice per grid point and a solver that
    returns coefficients for a task at least. *)
Theorem warm_starts_are_copies (K : kernels) (a : celer_args) (pb : pb_t)
    (grp : partition) (alphas : list val) (Km : mtl_kernels) (b : mtl_args) :
  set_up K a pb grp alphas -> gaps_reported K ->
  mtl_grid_accepted b -> mtl_regular Km b ->
  (exists (r : path_results) (st : store arr),
     celer_path K a = (Ok r, st) /\
     r_alphas r = alphas /\
     st = (celer_prefix K a pb grp alphas (length alphas)).2 /\
     private_arrays (solves (trace st)) /\
     (forall c, c ∈ solves (trace st) -> NoDup (own_arrays c)) /\
     (forall c t', c ∈ solves (trace st) -> e_t c = S t' ->
        r_coefs r !! t' = Some (e_w_in c) /\
        forall th, e_theta_in c = Some th -> thetas st !! t' = Some th) /\
     (forall t k k' : nat,
        (t < k)%nat -> (k <= k')%nat -> (k' <= length alphas)%nat ->
        let st1 := (celer_prefix K a pb grp alphas k).2 in
        let st2 := (celer_prefix K a pb grp alphas k').2 in
        coefs st2 !! t = coefs st1 !! t /\
        thetas st2 !! t = thetas st1 !! t /\
        dual_gaps st2 !! t = dual_gaps st1 !! t)) /\
  (exists (r : mtl_results) (st : store mat),
     mtl_path Km b = (Ok r, st) /\
     st = (mtl_prefix Km b (length (q_alphas r))).2 /\
     (forall c c', c ∈ solves (trace st) -> c' ∈ solves (trace st) ->
        e_w c = e_w c' -> e_t c = e_t c') /\
     (forall c, c ∈ solves (trace st) ->
        (exists l : nat, e_w c = RBuf l) /\
        e_Xw c = Some (RBuf 0) /\ e_theta c = Some (RBuf 1)) /\
     (forall t k k' : nat,
        (t < k)%nat -> (k <= k')%nat -> (k' <= length (q_alphas r))%nat ->
        let st1 := (mtl_prefix Km b k).2 in
        let st2 := (mtl_prefix Km b k').2 in
        coefs st2 !! t = coefs st1 !! t /\
        thetas st2 !! t = thetas st1 !! t /\
        dual_gaps st2 !! t = dual_gaps st1 !! t)).
Proof.
  intros Hset HK _ HKm. pose proof Hset as (_ & _ & Hv & _ & Ha & Hn). split.
  - destruct (celer_path_run K a pb grp alphas Hset HK)
      as (loc & st & Hrun & Hpath & Hinv & (Hs & Hw & Hall) & _).
    eexists _, st. split; [exact Hpath|]. cbn [r_alphas r_coefs].
    split; [reflexivity|]. split; [now rewrite Hrun|].
    destruct (celer_private_arrays a pb alphas
                (solves (trace st))) as [Hpriv Hnd].
    { intros c Hc. now destruct (Hall c Hc). }
    split; [assumption|]. split; [assumption|]. split.
    + intros c t' Hc Ht.
      destruct (Hall c Hc) as (_ & (th0 & Hth0 & Hwarm) & _).
      rewrite Ht in Hwarm.
      destruct Hwarm as (_ & c' & Hc' & Hin & Hdual).
      assert (Ht' : e_t c' = t').
      { assert (Hm : map e_t (solves (trace st)) !! t' = Some (e_t c'))
          by (rewrite lookup_map, Hc'; reflexivity).
        rewrite Hs in Hm. apply lookup_seq in Hm. lia. }
      destruct (Hall c') as (_ & _ & S1 & S2 & _).
      { apply list_elem_of_lookup. eauto. }
      rewrite Ht' in S1, S2. split; [congruence|].
      intros th Hth. rewrite Hth in Hth0.
      destruct (solver_of a pb); congruence.
    + intros t k k' Ht Hk Hk'.
      destruct (celer_prefix_frame K a pb grp alphas Hn
                  k k' t HK Ht Hk Hk') as (F1 & F2 & F3 & _).
      auto.
  - destruct (mtl_path_run Km b HKm) as (st & Hrun & Hpath & Hs & Hall).
    eexists _, st. split; [exact Hpath|]. cbn [q_alphas].
    split; [now rewrite Hrun|]. split; [|split].
    + intros c c' Hc Hc' Hw.
      destruct (Hall c Hc) as (_ & E & _).
      destruct (Hall c' Hc') as (_ & E' & _).
      rewrite E, E' in Hw. injection Hw as Hw. lia.
    + intros c Hc. destruct (Hall c Hc) as (_ & E & EX & Eth & _). eauto.
    + intros t k k' Ht Hk Hk'.
      apply (mtl_prefix_frame Km b k k' t HKm Ht Hk Hk').
Qed.

Lemma warm_starts_are_copies_witness :
  let a := small_args "lasso" None None None in
  set_up (echo_kernels zero) a LASSO None [one; one] /\
  gaps_reported (echo_kernels zero) /\
  mtl_grid_accepted (small_mtl_args None 10) /\
  mtl_regular echo_mtl_kernels (small_mtl_args None 10) /\
  (exists (r : path_results) (st : store arr),
     celer_path (echo_kernels zero) a = (Ok r, st) /\
     private_arrays (solves (trace st))) /\
  (exists (r : mtl_results) (st : store mat),
     mtl_path echo_mtl_kernels (small_mtl_args None 10) = (Ok r, st) /\
     forall c, c ∈ solves (trace st) -> e_theta c = Some (RBuf 1)).
Proof.
  intros a.
  assert (Hset : set_up (echo_kernels zero) a LASSO None [one; one]).
  { split; [split; [reflexivity | exact I]|].
    split; [intros H; discriminate|]. repeat split. }
  assert (Hgrid : mtl_grid_accepted (small_mtl_args None 10))
    by (intros _; reflexivity).
  split; [exact Hset|]. split; [exact (echo_gaps_reported zero)|].
  split; [exact Hgrid|]. split; [exact (echo_mtl_regular None 10)|].
  destruct (warm_starts_are_copies (echo_kernels zero) a LASSO None
              [one; one] echo_mtl_kernels (small_mtl_args None 10)
              Hset (echo_gaps_reported zero) Hgrid
              (echo_mtl_regular None 10))
    as [(r & st & Hrun & _ & _ & Hpriv & _)
        (rm & stm & Hrunm & _ & _ & Hsh & _)].
  split.
  - exists r, st. split; [exact Hrun | exact Hpriv].
  - exists rm, stm. split; [exact Hrunm|].
    intros c Hc. now destruct (Hsh c Hc) as (_ & _ & E).
Defined.

(** C8, as stated, fails for the dual state of [mtl_path]: the solves of
    two grid points are handed the very same [theta] array, and the same
    residual array. *)
Lemma mtl_dual_point_is_shared :
  exists c0 c1 : solve_call mat,
    solves (trace (mtl_path echo_mtl_kernels (small_mtl_args None 10)).2)
    = [c0; c1] /\
    e_t c0 = 0%nat /\ e_t c1 = 1%nat /\
    e_theta c0 = Some (RBuf 1) /\ e_theta c1 = Some (RBuf 1) /\
    e_Xw c0 = e_Xw c1 /\
    ~ private_arrays [c0; c1].
Proof.
  eexists _, _. split; [vm_compute; reflexivity|].
  repeat (split; [reflexivity|]).
  intros Hpriv.
  match type of Hpriv with
  | private_arrays [?c0; ?c1] =>
      destruct (Hpriv c0 c1 (RBuf 1)) as [_ Ht]
  end.
  - apply elem_of_cons. now left.
  - apply elem_of_cons. right. apply elem_of_cons. now left.
  - cbn. apply elem_of_cons. right. apply elem_of_cons. now left.
  - cbn. apply elem_of_cons. right. apply elem_of_cons. now left.
  - discriminate.
Qed.

(** ** The grid *)

Lemma celer_path_alphas (K : kernels) (a : celer_args) (alphas : list val)
    (pb : pb_t) (grp : partition) :
  a_alphas a = Some alphas ->
  make_alphas K a pb grp = Ok (sort_descending (np_sort K) alphas).
Proof. intros H. unfold make_alphas. now rewrite H. Qed.

(** C6 (as amended). Caller-supplied [alphas] without NaN are replaced, in
    [celer_path] and in [mtl_path], by [np.sort(alphas)[::-1]], and this
    re-sorted grid is the [alphas] of the results. With [np.sort] a sort
    (ascending order, same values), the grid holds the values supplied, each
    as many times, in non-increasing order; it is strictly descending
    exactly when no value was supplied twice. For [celer_path] this is said
    of the runs whose set-up goes through and whose solvers report their
    gaps. *)
Theorem alphas_resorted (alphas : list val) :
  Forall (fun x => is_nan x = false) alphas ->
  (forall (K : kernels) (a : celer_args) (pb : pb_t) (grp : partition)
          (grid : list val),
     sorts (np_sort K) -> a_alphas a = Some alphas ->
     set_up K a pb grp grid -> gaps_reported K ->
     exists (r : path_results) (st : store arr),
       celer_path K a = (Ok r, st) /\
       r_alphas r = sort_descending (np_sort K) alphas /\
       same_values (r_alphas r) alphas /\
       descending (r_alphas r) /\
       (strictly_descending (r_alphas r) <-> pairwise_distinct alphas)) /\
  (forall (K : mtl_kernels) (b : mtl_args),
     sorts (mtl_np_sort K) -> b_alphas b = Some alphas -> mtl_regular K b ->
     exists (r : mtl_results) (st : store mat),
       mtl_path K b = (Ok r, st) /\
       q_alphas r = sort_descending (mtl_np_sort K) alphas /\
       same_values (q_alphas r) alphas /\
       descending (q_alphas r) /\
       (strictly_descending (q_alphas r) <-> pairwise_distinct alphas)).
Proof.
  intros Hnan. split.
  - intros K a pb grp grid Hsort Ha Hset HK.
    destruct (celer_path_run K a pb grp grid Hset HK)
      as (loc & st & _ & Hpath & _).
    destruct Hset as (_ & _ & _ & _ & Hgrid & _).
    rewrite (celer_path_alphas K a alphas pb grp Ha) in Hgrid.
    injection Hgrid as <-.
    eexists _, st. split; [exact Hpath|]. cbn [r_alphas].
    split; [reflexivity|].
    split; [now apply sort_descending_values|].
    split; [now apply sort_descending_descending|].
    now apply sort_descending_strict.
  - intros K b Hsort Hb HK.
    destruct (mtl_path_run K b HK) as (st & _ & Hpath & _).
    eexists _, st. split; [exact Hpath|]. cbn [q_alphas].
    unfold mtl_alphas. rewrite Hb.
    split; [reflexivity|].
    split; [now apply sort_descending_values|].
    split; [now apply sort_descending_descending|].
    now apply sort_descending_strict.
Qed.

Lemma alphas_resorted_witness :
  let alphas := [zero; one; minus_one] in
  let a := small_args "lasso" (Some alphas) None None in
  Forall (fun x => is_nan x = false) alphas /\
  sorts (np_sort (echo_kernels zero)) /\
  a_alphas a = Some alphas /\
  set_up (echo_kernels zero) a LASSO None [one; zero; minus_one] /\
  gaps_reported (echo_kernels zero) /\
  exists (r : path_results) (st : store arr),
    celer_path (echo_kernels zero) a = (Ok r, st) /\
    r_alphas r = [one; zero; minus_one] /\
    descending (r_alphas r) /\
    (strictly_descending (r_alphas r) <-> pairwise_distinct alphas).
Proof.
  intros alphas a.
  assert (Hnan : Forall (fun x => is_nan x = false) alphas)
    by (repeat constructor).
  assert (Hset : set_up (echo_kernels zero) a LASSO None
                   [one; zero; minus_one]).
  { split; [split; [reflexivity | exact I]|].
    split; [intros H; discriminate|]. repeat split. }
  split; [exact Hnan|]. split; [exact insertion_sort_sorts|].
  split; [reflexivity|]. split; [exact Hset|].
  split; [exact (echo_gaps_reported zero)|].
  destruct (alphas_resorted alphas Hnan) as [Hcel _].
  destruct (Hcel (echo_kernels zero) a LASSO None [one; zero; minus_one]
              insertion_sort_sorts eq_refl Hset (echo_gaps_reported zero))
    as (r & st & Hrun & Hr & _ & Hd & Hs).
  exists r, st. split; [exact Hrun|].
  split; [rewrite Hr; reflexivity|]. split; [exact Hd | exact Hs].
Defined.

(** C6, as stated, fails when [alphas] holds a value twice: the re-sorted
    grid that [celer_path] and [mtl_path] return keeps both, so it is not
    strictly descending. With a NaN, which [np.sort] puts last and the
    reversal first, as here, the grid is not even descending. *)
Lemma resorted_alphas_keep_ties :
  (exists (r : path_results) (st : store arr),
     celer_path (echo_kernels zero)
       (small_args "lasso" (Some [one; zero; one]) None None) = (Ok r, st) /\
     r_alphas r = [one; one; zero] /\
     ~ strictly_descending (r_alphas r)) /\
  (exists (r : mtl_results) (st : store mat),
     mtl_path echo_mtl_kernels (small_mtl_args (Some [one; zero; one]) 10)
     = (Ok r, st) /\
     q_alphas r = [one; one; zero] /\
     ~ strictly_descending (q_alphas r)) /\
  sort_descending insertion_sort [S754_nan; one] = [S754_nan; one] /\
  ~ descending (sort_descending insertion_sort [S754_nan; one]).
Proof.
  split; [|split; [|split]].
  - eexists _, _. split; [vm_compute; reflexivity|]. split; [reflexivity|].
    intros H. specialize (H 0%nat one one eq_refl eq_refl). discriminate.
  - eexists _, _. split; [vm_compute; reflexivity|]. split; [reflexivity|].
    intros H. specialize (H 0%nat one one eq_refl eq_refl). discriminate.
  - reflexivity.
  - intros H. specialize (H 0%nat S754_nan one eq_refl eq_refl).
    discriminate.
Qed.

(** ** [alpha_max] and implicit centring *)

(** C5 fails on the code when [X_offset] is given, as the comment at line
    175 says. For the one column [(1, 3)] with offset 2 and scale 1 and
    [y = (1, 2)], the grid starts at [alpha_max = 7/2], computed from the
    column as stored; on the centred column the all-zero coefficient vector
    already minimises the objective at the penalty 1, below [alpha_max]. *)
Theorem alpha_max_ignores_centring :
  (Exact.alpha_max_lasso [[1; 3]] [1; 2] == 7 # 2)%Q /\
  (1 < Exact.alpha_max_lasso [[1; 3]] [1; 2])%Q /\
  forall w0 : Q,
    (Exact.lasso_objective (Exact.centred [[1; 3]] [2] [1]) [1; 2] 1 [0]
     <= Exact.lasso_objective (Exact.centred [[1; 3]] [2] [1]) [1; 2] 1
          [w0])%Q.
Proof.
  split; [reflexivity|]. split; [reflexivity|]. intros w0.
  unfold Exact.lasso_objective, Exact.Xw, Exact.centred, Exact.dot,
    Exact.norm1.
  cbn [zip_with zip map fold_right repeat length fst snd].
  change (Qabs 0) with 0%Q. change (inject_Z (Z.of_nat 2)) with 2%Q.
  change (2 / 1)%Q with 2%Q. change (2 * 2)%Q with 4%Q.
  unfold Qdiv. change (/ 4)%Q with (1 # 4)%Q.
  assert (Hsq : (0 <= w0 * w0)%Q) by Lqa.nra.
  destruct (Qlt_le_dec w0 0) as [H|H].
  - rewrite (Qabs_neg w0) by lra. lra.
  - rewrite (Qabs_pos w0) by lra. lra.
Qed.

(** * Further properties *)

(** ** [_grp_converter]: errors, groups and sizes *)

(** X1. On integers that fit [int64], [_grp_converter] raises in four
    cases and no other: the group size 0 ([ZeroDivisionError] from
    [n_features % 0]); a non-zero group size that does not divide
    [n_features] ([ValueError]); an empty list ([IndexError] from
    [groups[0]]); an argument that is neither an integer nor a list
    ([ValueError]). A non-empty list of such integers is never rejected,
    whatever [n_features] is. *)
Theorem grp_converter_raises (groups : groups_t) (n_features : Z) (e : exn) :
  groups_int64 groups ->
  _grp_converter groups n_features = Raise e <->
  (groups = GInt 0 /\ e = ZeroDivisionError) \/
  (exists k : Z, groups = GInt k /\ k <> 0 /\ n_features mod k <> 0 /\
                 e = ValueError) \/
  ((groups = GSizes [] \/ groups = GIndexLists []) /\ e = IndexError) \/
  (groups = GOther /\ e = ValueError).
Proof.
  intros _. destruct groups as [k|[|s sizes]|[|l ls]|]; simpl.
  - destruct (Z.eqb_spec k 0) as [->|Hk].
    + split.
      * intros H. injection H as <-. auto.
      * intros [[_ ->]|[(k & E & Hk & _)|[[[E|E] _]|[E _]]]];
          try discriminate; try reflexivity.
        injection E as <-. contradiction.
    + destruct (Z.eqb_spec (n_features mod k) 0) as [Hm|Hm]; simpl.
      * split; [discriminate|].
        intros [[E _]|[(k' & E & _ & Hk' & _)|[[[E|E] _]|[E _]]]];
          try discriminate.
        -- injection E as ->. contradiction.
        -- injection E as <-. contradiction.
      * split.
        -- intros H. injection H as <-. right. left. exists k. auto.
        -- intros [[E _]|[(k' & _ & _ & _ & ->)|[[[E|E] _]|[E _]]]];
             try discriminate; try reflexivity.
           injection E as ->. contradiction.
  - split.
    + intros H. injection H as <-. auto 6.
    + intros [[E _]|[(k' & E & _)|[[_ ->]|[E _]]]];
        try discriminate; reflexivity.
  - split; [discriminate|].
    intros [[E _]|[(k' & E & _)|[[[E|E] _]|[E _]]]]; discriminate.
  - split.
    + intros H. injection H as <-. auto 6.
    + intros [[E _]|[(k' & E & _)|[[_ ->]|[E _]]]];
        try discriminate; reflexivity.
  - split; [discriminate|].
    intros [[E _]|[(k' & E & _)|[[[E|E] _]|[E _]]]]; discriminate.
  - split.
    + intros H. injection H as <-. auto 6.
    + intros [[E _]|[(k' & E & _)|[[[E|E] _]|[_ ->]]]];
        try discriminate; reflexivity.
Qed.

Lemma grp_converter_raises_witness :
  groups_int64 (GInt 2) /\
  _grp_converter (GInt 2) 3 = Raise ValueError /\
  groups_int64 (GSizes [9223372036854775807]) /\
  forall e : exn, _grp_converter (GSizes [9223372036854775807]) 3 <> Raise e.
Proof.
  assert (H2 : groups_int64 (GInt 2)) by (split; discriminate).
  assert (Hs : groups_int64 (GSizes [9223372036854775807]))
    by (repeat constructor; discriminate).
  split; [exact H2|]. split.
  - apply (grp_converter_raises (GInt 2) 3 ValueError H2).
    right. left. exists 2. repeat split; discriminate.
  - split; [exact Hs|]. intros e He.
    apply (grp_converter_raises (GSizes [9223372036854775807]) 3 e Hs) in He.
    destruct He as [[E _]|[(k & E & _)|[[[E|E] _]|[E _]]]]; discriminate.
Defined.

Lemma slice_within {A : Type} (l : list A) (s e : nat) :
  (s <= e)%nat -> (e <= length l)%nat ->
  slice l (Z.of_nat s) (Z.of_nat e) = take (e - s) (drop s l).
Proof.
  intros Hse He. unfold slice, slice_bound.
  destruct (Z.ltb_spec (Z.of_nat s) 0) as [?|_]; [lia|].
  destruct (Z.ltb_spec (Z.of_nat e) 0) as [?|_]; [lia|].
  rewrite !Z.min_l by lia. f_equal; [lia | f_equal; lia].
Qed.

Lemma slice_concat_part {A : Type} (ls : list (list A)) (g : nat)
    (l : list A) :
  ls !! g = Some l ->
  slice (concat ls) (Z.of_nat (length (concat (take g ls))))
    (Z.of_nat (length (concat (take (S g) ls)))) = l.
Proof.
  intros Hg.
  assert (Hs : take (S g) ls = take g ls ++ [l]) by now apply take_S_r.
  assert (Hls : concat ls
                = concat (take g ls) ++ l ++ concat (drop (S g) ls)).
  { rewrite <- (take_drop_middle ls g l Hg) at 1.
    now rewrite concat_app. }
  rewrite Hs, concat_app. simpl. rewrite app_nil_r, length_app.
  rewrite slice_within.
  - rewrite Hls, drop_app_length.
    replace (length (concat (take g ls)) + length l
             - length (concat (take g ls)))%nat with (length l) by lia.
    now rewrite take_app_length.
  - lia.
  - rewrite Hls, !length_app. lia.
Qed.

(** X2. Round trip: for a non-empty list of index lists whose
    entries fit [np.int32], cutting the returned [grp_indices] at the returned
    [grp_ptr], as the loops over the groups do, gives back the lists that
    were passed, and [n_groups] is their number. *)
Theorem grp_converter_lists_roundtrip (ls : list (list Z)) (n_features : Z) :
  ls <> [] ->
  Z.of_nat (length (concat ls)) <= 2147483647 ->
  Forall Np.int32_range (concat ls) ->
  exists grp_ptr grp_indices : list Z,
    _grp_converter (GIndexLists ls) n_features = Ok (grp_ptr, grp_indices) /\
    n_groups grp_ptr = Z.of_nat (length ls) /\
    groups_of grp_ptr grp_indices = map Ok ls.
Proof.
  intros Hne Hlen Hr. eexists _, _.
  split; [now apply convert_lists|].
  assert (Hn : n_groups (Np.cumsum (0 :: map (fun l => Z.of_nat (length l)) ls))
               = Z.of_nat (length ls)).
  { unfold n_groups. rewrite boundaries_length, length_map. lia. }
  split; [exact Hn|].
  unfold groups_of. rewrite Hn, Nat2Z.id.
  apply list_eq. intros g. rewrite !lookup_map.
  destruct (ls !! g) as [l|] eqn:Hg.
  - pose proof (lookup_lt_Some _ _ _ Hg) as Hlt.
    rewrite lookup_seq_lt by assumption. simpl. f_equal.
    unfold group_features.
    rewrite !boundaries_lookup by (rewrite length_map; lia).
    rewrite !take_map, !sum_list_lengths.
    f_equal. now apply slice_concat_part.
  - apply lookup_ge_None in Hg.
    rewrite (proj2 (lookup_ge_None _ _)); [reflexivity|].
    now rewrite length_seq.
Qed.

Lemma grp_converter_lists_roundtrip_witness :
  let ls := [[0; 2; 5]; [1; 3]; [4]] in
  ls <> [] /\
  Z.of_nat (length (concat ls)) <= 2147483647 /\
  Forall Np.int32_range (concat ls) /\
  exists grp_ptr grp_indices : list Z,
    _grp_converter (GIndexLists ls) 6 = Ok (grp_ptr, grp_indices) /\
    groups_of grp_ptr grp_indices = map Ok ls.
Proof.
  cbv zeta.
  assert (H1 : [[0; 2; 5]; [1; 3]; [4]] <> @nil (list Z)) by discriminate.
  assert (H2 : Z.of_nat (length (concat [[0; 2; 5]; [1; 3]; [4]]))
               <= 2147483647) by (simpl; lia).
  assert (H3 : Forall Np.int32_range (concat [[0; 2; 5]; [1; 3]; [4]])).
  { repeat constructor; unfold Np.int32_range; lia. }
  split; [exact H1|]. split; [exact H2|]. split; [exact H3|].
  destruct (grp_converter_lists_roundtrip _ 6 H1 H2 H3)
    as (p & i & Hc & _ & Hg).
  exists p, i. split; [exact Hc | exact Hg].
Defined.

Lemma sum_list_take_repeat (k : Z) (m i : nat) :
  (i <= m)%nat -> sum_list (take i (repeat k m)) = k * Z.of_nat i.
Proof.
  revert m. induction i as [|i IH]; intros m Hi.
  - simpl. lia.
  - destruct m as [|m]; [lia|]. simpl. rewrite IH by lia. lia.
Qed.

(** X4. The integer group size [k] is the list of [m] sizes all equal
    to [k]: both arguments are converted to the same arrays when
    [n_features = k * m]. *)
Theorem grp_converter_equal_sizes (k m : Z) :
  1 <= k -> 1 <= m -> k * m <= 2147483647 ->
  _grp_converter (GSizes (repeat k (Z.to_nat m))) (k * m)
  = _grp_converter (GInt k) (k * m).
Proof.
  intros Hk Hm Hn.
  assert (Hmod : (k * m) mod k = 0) by (rewrite Z.mul_comm; apply Z_mod_mult).
  assert (Hdiv : k * m / k = m) by (rewrite Z.mul_comm; apply Z_div_mult; lia).
  rewrite convert_int by (try assumption; nia).
  rewrite convert_sizes.
  - f_equal. f_equal. rewrite Hdiv. apply list_eq. intros i.
    destruct (decide (i <= Z.to_nat m)%nat) as [Hi|Hi].
    + rewrite boundaries_lookup by (rewrite repeat_length; lia).
      rewrite sum_list_take_repeat by lia.
      rewrite lookup_map, arange_lookup by lia. reflexivity.
    + rewrite (proj2 (lookup_ge_None _ _))
        by (rewrite boundaries_length, repeat_length; lia).
      rewrite (proj2 (lookup_ge_None _ _)); [reflexivity|].
      rewrite length_map, arange_length. lia.
  - destruct (Z.to_nat m) eqn:E; [lia | discriminate].
  - nia.
  - intros i Hi. rewrite repeat_length in Hi.
    rewrite sum_list_take_repeat by assumption.
    unfold Np.int32_range. nia.
Qed.

Lemma grp_converter_equal_sizes_witness :
  1 <= 3 /\ 1 <= 2 /\ 3 * 2 <= 2147483647 /\
  _grp_converter (GSizes [3; 3]) 6 = _grp_converter (GInt 3) 6.
Proof.
  assert (H1 : 1 <= 3) by lia. assert (H2 : 1 <= 2) by lia.
  assert (H3 : 3 * 2 <= 2147483647) by lia.
  split; [exact H1|]. split; [exact H2|]. split; [exact H3|].
  exact (grp_converter_equal_sizes 3 2 H1 H2 H3).
Defined.

Lemma take_min_length {A : Type} (k : nat) (l : list A) :
  take k l = take (Nat.min k (length l)) l.
Proof.
  destruct (decide (k <= length l)%nat).
  - now rewrite Nat.min_l by lia.
  - rewrite Nat.min_r by lia. rewrite firstn_all. apply take_ge. lia.
Qed.

Lemma slice_clipped {A : Type} (l : list A) (s e : Z) :
  0 <= s <= e ->
  slice l s e
  = take (Nat.min (Z.to_nat e) (length l) - Nat.min (Z.to_nat s) (length l))
         (drop (Nat.min (Z.to_nat s) (length l)) l).
Proof.
  intros Hse. unfold slice, slice_bound.
  destruct (Z.ltb_spec s 0) as [?|_]; [lia|].
  destruct (Z.ltb_spec e 0) as [?|_]; [lia|].
  f_equal; [lia | f_equal; lia].
Qed.

(** Consecutive slices at non-decreasing bounds make up a prefix. *)
Lemma concat_slices {A : Type} (l : list A) (b : nat -> Z) (m : nat) :
  b 0%nat = 0 -> (forall g : nat, b g <= b (S g)) ->
  concat (map (fun g => slice l (b g) (b (S g))) (seq 0 m))
  = take (Z.to_nat (b m)) l.
Proof.
  intros H0 Hmono.
  assert (Hpos : forall g : nat, 0 <= b g).
  { induction g as [|g IH]; [lia | specialize (Hmono g); lia]. }
  induction m as [|m IH].
  - simpl. now rewrite H0.
  - rewrite seq_S, map_app, concat_app, IH. simpl. rewrite app_nil_r.
    rewrite slice_clipped by (split; [apply Hpos | apply Hmono]).
    rewrite (take_min_length (Z.to_nat (b m))).
    rewrite (take_min_length (Z.to_nat (b (S m)))).
    rewrite take_take_drop. f_equal.
    specialize (Hmono m). specialize (Hpos m). lia.
Qed.

Lemma take_arange (k : nat) (n : Z) :
  take k (Np.arange n) = Np.arange (Z.min (Z.of_nat k) n).
Proof.
  unfold Np.arange. rewrite take_map, take_seq. do 2 f_equal. lia.
Qed.

Lemma sum_list_take_mono (l : list Z) (g : nat) :
  Forall (fun s => 0 <= s) l ->
  sum_list (take g l) <= sum_list (take (S g) l).
Proof.
  intros H. revert g. induction H as [|x l Hx _ IH]; intros g.
  - destruct g; simpl; lia.
  - destruct g as [|g]; simpl.
    + destruct l; simpl; lia.
    + specialize (IH g). simpl in IH. lia.
Qed.

Lemma sum_list_take_le (l : list Z) (g : nat) :
  Forall (fun s => 0 <= s) l -> 0 <= sum_list (take g l) <= sum_list l.
Proof.
  intros H. revert g. induction H as [|x l Hx _ IH]; intros g.
  - destruct g; simpl; lia.
  - destruct g as [|g]; simpl.
    + specialize (IH 0%nat). rewrite take_0 in IH. simpl in IH. lia.
    + specialize (IH g). lia.
Qed.

(** X5. What a list of sizes covers. For non-negative sizes the
    groups, cut out of [grp_indices] as the loops over the groups do, are
    consecutive runs of features that make up [0, 1, ...,
    min(sum(sizes), n_features) - 1]: features past the sum of the sizes are
    in no group, sizes past [n_features] are cut short without an error, and
    when the sum is at most [n_features] group [g] has [sizes[g]]
    features. *)
Theorem grp_converter_sizes_cover (sizes : list Z) (n_features : Z) :
  sizes <> [] -> 0 <= n_features <= 2147483647 ->
  Forall (fun s => 0 <= s) sizes -> sum_list sizes <= 2147483647 ->
  exists (grp_ptr grp_indices : list Z) (parts : list (list Z)),
    _grp_converter (GSizes sizes) n_features = Ok (grp_ptr, grp_indices) /\
    groups_of grp_ptr grp_indices = map Ok parts /\
    length parts = length sizes /\
    concat parts = Np.arange (Z.min (sum_list sizes) n_features) /\
    (sum_list sizes <= n_features ->
     map (fun l => Z.of_nat (length l)) parts = sizes).
Proof.
  intros Hne Hn Hpos Hsum.
  set (b := fun g : nat => sum_list (take g sizes)).
  set (parts := map (fun g => slice (Np.arange n_features) (b g) (b (S g)))
                  (seq 0 (length sizes))).
  exists (Np.cumsum (0 :: sizes)), (Np.arange n_features), parts.
  split.
  { apply convert_sizes; try assumption. intros i _.
    pose proof (sum_list_take_le sizes i Hpos).
    unfold Np.int32_range. lia. }
  split.
  { unfold groups_of, n_groups. rewrite boundaries_length.
    replace (Z.to_nat (Z.of_nat (S (length sizes)) - 1))
      with (length sizes) by lia.
    unfold parts. rewrite map_map. apply map_ext_in. intros g Hg.
    apply in_seq in Hg. unfold group_features.
    rewrite !boundaries_lookup by lia. reflexivity. }
  split; [unfold parts; now rewrite length_map, length_seq|].
  split.
  { unfold parts. rewrite concat_slices.
    - rewrite take_arange. f_equal. unfold b. rewrite firstn_all.
      pose proof (sum_list_take_le sizes 0 Hpos). rewrite take_0 in H.
      pose proof (sum_list_take_le sizes (length sizes) Hpos) as H'.
      rewrite firstn_all in H'. lia.
    - reflexivity.
    - intros g. now apply sum_list_take_mono. }
  intros Hle. unfold parts. rewrite map_map.
  apply list_eq. intros g. rewrite lookup_map.
  destruct (sizes !! g) as [s|] eqn:Hg.
  - pose proof (lookup_lt_Some _ _ _ Hg) as Hlt.
    rewrite lookup_seq_lt by assumption. simpl. f_equal.
    pose proof (sum_list_take_le sizes g Hpos) as Hb.
    pose proof (sum_list_take_le sizes (S g) Hpos) as Hb'.
    assert (HS : b (S g) = b g + s).
    { unfold b. rewrite (take_S_r _ _ _ Hg).
      clear. induction (take g sizes); simpl; lia. }
    assert (Hs : 0 <= s).
    { rewrite Forall_forall in Hpos. apply Hpos.
      eapply list_elem_of_lookup_2. eassumption. }
    fold (b g) in Hb. fold (b (S g)) in Hb'.
    rewrite slice_clipped by lia.
    rewrite length_take, length_drop, arange_length. lia.
  - apply lookup_ge_None in Hg.
    rewrite (proj2 (lookup_ge_None _ _)); [reflexivity|].
    now rewrite length_seq.
Qed.

Lemma grp_converter_sizes_cover_witness :
  [1; 2] <> @nil Z /\ 0 <= 10 <= 2147483647 /\
  Forall (fun s => 0 <= s) [1; 2] /\ sum_list [1; 2] <= 2147483647 /\
  exists (grp_ptr grp_indices : list Z) (parts : list (list Z)),
    _grp_converter (GSizes [1; 2]) 10 = Ok (grp_ptr, grp_indices) /\
    groups_of grp_ptr grp_indices = map Ok parts /\
    concat parts = [0; 1; 2].
Proof.
  assert (H1 : [1; 2] <> @nil Z) by discriminate.
  assert (H2 : 0 <= 10 <= 2147483647) by lia.
  assert (H3 : Forall (fun s => 0 <= s) [1; 2]) by (repeat constructor; lia).
  assert (H4 : sum_list [1; 2] <= 2147483647) by (simpl; lia).
  split; [exact H1|]. split; [exact H2|]. split; [exact H3|].
  split; [exact H4|].
  destruct (grp_converter_sizes_cover _ 10 H1 H2 H3 H4)
    as (p & i & parts & Hc & Hg & _ & Hcat & _).
  exists p, i, parts. split; [exact Hc|]. split; [exact Hg | exact Hcat].
Defined.

(** ** From the two arrays back to the lists *)

Lemma monotone_nth (p : list Z) (g h : nat) :
  monotone p -> (g <= h)%nat -> (h < length p)%nat ->
  nth g p 0 <= nth h p 0.
Proof.
  intros Hm Hgh Hh.
  assert (Hg : (g < length p)%nat) by lia.
  apply lookup_lt_is_Some in Hg as [x Hx].
  apply lookup_lt_is_Some in Hh as [y Hy].
  rewrite !nth_lookup, Hx, Hy. simpl.
  eapply monotone_le; eassumption.
Qed.

Lemma sum_list_app (l l' : list Z) :
  sum_list (l ++ l') = sum_list l + sum_list l'.
Proof. induction l as [|x l IH]; simpl; lia. Qed.

Lemma sum_list_diffs (b : nat -> Z) (g : nat) :
  sum_list (map (fun h => b (S h) - b h) (seq 0 g)) = b g - b 0%nat.
Proof.
  induction g as [|g IH]; [simpl; lia|].
  rewrite seq_S, map_app, sum_list_app, IH. simpl. lia.
Qed.

(** X3. Round trip, the other way: take boundaries [grp_ptr] that start
    at 0, do not decrease and end at the length of [grp_indices], and cut
    [grp_indices] at them as the loops over the groups do. Converting the
    list of these groups gives back [grp_ptr] and [grp_indices]. *)
Theorem grp_converter_groups_roundtrip (grp_ptr grp_indices : list Z)
    (n_features : Z) :
  (2 <= length grp_ptr)%nat ->
  head grp_ptr = Some 0 -> monotone grp_ptr ->
  last grp_ptr = Some (Z.of_nat (length grp_indices)) ->
  Z.of_nat (length grp_indices) <= 2147483647 ->
  Forall Np.int32_range grp_indices ->
  exists parts : list (list Z),
    groups_of grp_ptr grp_indices = map Ok parts /\
    _grp_converter (GIndexLists parts) n_features
    = Ok (grp_ptr, grp_indices).
Proof.
  intros Hlen Hhead Hmono Hlast Hfit Hr.
  set (m := (length grp_ptr - 1)%nat).
  set (b := fun g : nat => nth (Nat.min g m) grp_ptr 0).
  assert (Hb0 : b 0%nat = 0).
  { unfold b. rewrite Nat.min_0_l, nth_lookup, <- head_lookup0, Hhead.
    reflexivity. }
  assert (Hbm : b m = Z.of_nat (length grp_indices)).
  { unfold b. rewrite Nat.min_id, nth_lookup.
    rewrite last_lookup in Hlast.
    replace (Init.Nat.pred (length grp_ptr)) with m in Hlast by (unfold m; lia).
    now rewrite Hlast. }
  assert (Hbmono : forall g : nat, b g <= b (S g)).
  { intros g. unfold b. apply monotone_nth; [assumption | lia|].
    unfold m. lia. }
  assert (Hble : forall g h : nat, (g <= h)%nat -> b g <= b h).
  { intros g h Hgh. induction Hgh as [|h Hgh IH]; [lia|].
    specialize (Hbmono h). lia. }
  assert (Hbound : forall g : nat, 0 <= b g <= Z.of_nat (length grp_indices)).
  { intros g. split.
    - rewrite <- Hb0. apply Hble. lia.
    - rewrite <- Hbm. destruct (decide (g <= m)%nat).
      + now apply Hble.
      + assert (E : b g = b m); [|lia].
        unfold b. rewrite Nat.min_id, Nat.min_r by lia. reflexivity. }
  assert (Hnth : forall g : nat, (g <= m)%nat ->
             grp_ptr !! g = Some (b g)).
  { intros g Hg. unfold b. rewrite Nat.min_l by assumption.
    assert (Hlt : (g < length grp_ptr)%nat) by (unfold m in Hg; lia).
    apply lookup_lt_is_Some in Hlt as [x Hx].
    now rewrite nth_lookup, Hx. }
  set (parts := map (fun g => slice grp_indices (b g) (b (S g))) (seq 0 m)).
  exists parts.
  assert (Hcat : concat parts = grp_indices).
  { unfold parts. rewrite concat_slices by assumption.
    rewrite Hbm, Nat2Z.id. apply firstn_all. }
  assert (Hsize : map (fun l => Z.of_nat (length l)) parts
                  = map (fun g => b (S g) - b g) (seq 0 m)).
  { unfold parts. rewrite map_map. apply map_ext. intros g.
    pose proof (Hbound g). pose proof (Hbound (S g)).
    pose proof (Hbmono g).
    replace (b g) with (Z.of_nat (Z.to_nat (b g))) by lia.
    replace (b (S g)) with (Z.of_nat (Z.to_nat (b (S g)))) at 1 by lia.
    rewrite slice_within by lia.
    rewrite length_take, length_drop. lia. }
  split.
  - unfold groups_of, n_groups.
    replace (Z.to_nat (Z.of_nat (length grp_ptr) - 1)) with m
      by (unfold m; lia).
    unfold parts. rewrite map_map. apply map_ext_in. intros g Hg.
    apply in_seq in Hg. unfold group_features.
    rewrite !Hnth by lia. reflexivity.
  - rewrite convert_lists.
    + f_equal. f_equal; [|exact Hcat].
      apply list_eq. intros g.
      destruct (decide (g <= m)%nat) as [Hg|Hg].
      * rewrite boundaries_lookup
          by (unfold parts; rewrite !length_map, length_seq; lia).
        rewrite Hnth by assumption. f_equal.
        rewrite Hsize, take_map, take_seq.
        rewrite Nat.min_l by lia.
        rewrite sum_list_diffs. lia.
      * rewrite !(proj2 (lookup_ge_None _ _)); [reflexivity| |].
        -- unfold m in Hg. lia.
        -- rewrite boundaries_length. unfold parts.
           rewrite !length_map, length_seq. lia.
    + unfold parts. destruct m as [|m'] eqn:E; [unfold m in E; lia|].
      discriminate.
    + now rewrite Hcat.
    + now rewrite Hcat.
Qed.

Lemma grp_converter_groups_roundtrip_witness :
  (2 <= length [0; 3; 5; 6]%Z)%nat /\
  head [0; 3; 5; 6] = Some 0 /\ monotone [0; 3; 5; 6] /\
  last [0; 3; 5; 6] = Some (Z.of_nat (length [0; 2; 5; 1; 3; 4])) /\
  Z.of_nat (length [0; 2; 5; 1; 3; 4]) <= 2147483647 /\
  Forall Np.int32_range [0; 2; 5; 1; 3; 4] /\
  exists parts : list (list Z),
    groups_of [0; 3; 5; 6] [0; 2; 5; 1; 3; 4] = map Ok parts /\
    _grp_converter (GIndexLists parts) 6
    = Ok ([0; 3; 5; 6], [0; 2; 5; 1; 3; 4]).
Proof.
  assert (H1 : (2 <= length [0; 3; 5; 6]%Z)%nat) by (simpl; lia).
  assert (H2 : head [0; 3; 5; 6] = Some 0) by reflexivity.
  assert (H3 : monotone [0; 3; 5; 6]).
  { intros [|[|[|[|i]]]] x y Hx Hy; simpl in *;
      try discriminate; injection Hx as <-; injection Hy as <-; lia. }
  assert (H4 : last [0; 3; 5; 6]
               = Some (Z.of_nat (length [0; 2; 5; 1; 3; 4]))) by reflexivity.
  assert (H5 : Z.of_nat (length [0; 2; 5; 1; 3; 4]) <= 2147483647)
    by (simpl; lia).
  assert (H6 : Forall Np.int32_range [0; 2; 5; 1; 3; 4]).
  { repeat constructor; unfold Np.int32_range; lia. }
  repeat (split; [assumption|]).
  exact (grp_converter_groups_roundtrip _ _ 6 H1 H2 H3 H4 H5 H6).
Defined.

(** ** [celer_path]: the problem name, the solver, the iteration counts *)

(** X6. The problem name is compared without case: two calls whose
    [pb] have the same lower-case form, all else equal, return the same
    results, run the same solves and leave the same memory. *)
Theorem celer_path_pb_case (K : kernels) (a : celer_args) (s : string) :
  lower s = lower (a_pb a) ->
  celer_path K (with_pb a s) = celer_path K a.
Proof.
  intros Hs. unfold celer_path.
  assert (Hv : validate (with_pb a s) = validate a).
  { unfold validate. cbn [with_pb a_pb a_y a_groups a_n_features].
    now rewrite Hs. }
  rewrite Hv. destruct (validate a) as [[pb grp]|e]; [|reflexivity].
  destruct a. reflexivity.
Qed.

Lemma celer_path_pb_case_witness :
  lower "LaSSo" = lower (a_pb (small_args "lasso" None None None)) /\
  celer_path (echo_kernels one)
    (with_pb (small_args "lasso" None None None) "LaSSo")
  = celer_path (echo_kernels one) (small_args "lasso" None None None).
Proof.
  assert (H : lower "LaSSo" = lower (a_pb (small_args "lasso" None None None)))
    by reflexivity.
  split; [exact H|].
  exact (celer_path_pb_case (echo_kernels one)
           (small_args "lasso" None None None) "LaSSo" H).
Defined.

(** X7. Every solve of a path that goes through is done by the same
    solver: [celer_grp] for the group Lasso, [celer] for the Lasso and for
    logistic regression without [use_PN], [newton_celer] for logistic
    regression with [use_PN] ([use_PN] is not looked at otherwise).
    [newton_celer] is handed [w] only; the two others are handed three
    distinct arrays, [Xw] being the same array at every grid point. *)
Theorem celer_path_solver (K : kernels) (a : celer_args) (pb : pb_t)
    (grp : partition) (alphas : list val) :
  set_up K a pb grp alphas -> gaps_reported K ->
  exists (r : path_results) (st : store arr),
    celer_path K a = (Ok r, st) /\
    forall c : solve_call arr, c ∈ solves (trace st) ->
      e_solver c = match pb with
                   | GRPLASSO => Celer_grp
                   | LASSO => Celer
                   | LOGREG => if a_use_PN a then Newton_celer else Celer
                   end /\
      match e_solver c with
      | Newton_celer => e_Xw c = None /\ e_theta c = None
      | _ => e_Xw c = Some (RBuf 1) /\
             exists l : nat, e_theta c = Some (RBuf l) /\ l <> 1%nat /\
                             e_w c <> RBuf l /\ e_w c <> RBuf 1
      end.
Proof.
  intros Hset HK. pose proof Hset as (_ & _ & Hv & _ & Ha & Hn).
  destruct (celer_path_run K a pb grp alphas Hset HK)
    as (loc & st & _ & Hpath & _ & (_ & _ & Hall) & _).
  eexists _, st. split; [exact Hpath|].
  intros c Hc. destruct (Hall c Hc) as ((_ & Hsv & Hw & Hx & Hth) & _).
  split; [exact Hsv|]. rewrite Hsv. unfold solver_of in *.
  assert (Hne : theta_slot (e_t c) <> 1%nat /\
                heap_size (e_t c) <> theta_slot (e_t c) /\
                heap_size (e_t c) <> 1%nat).
  { destruct (e_t c); simpl; lia. }
  destruct Hne as (N1 & N2 & N3).
  destruct pb; [| destruct (a_use_PN a) |]; try (split; assumption);
    (split; [assumption|]); exists (theta_slot (e_t c));
    (split; [assumption|]); rewrite Hw; repeat split; congruence.
Qed.

Lemma celer_path_solver_witness :
  let a := small_args "logreg" None None None in
  set_up (echo_kernels zero) a LOGREG None [one; one] /\
  gaps_reported (echo_kernels zero) /\
  exists (r : path_results) (st : store arr),
    celer_path (echo_kernels zero) a = (Ok r, st) /\
    map e_solver (solves (trace st)) = [Celer; Celer].
Proof.
  intros a.
  assert (Hset : set_up (echo_kernels zero) a LOGREG None [one; one]).
  { split; [split; [reflexivity | exact I]|].
    split; [intros H; discriminate|]. repeat split. }
  split; [exact Hset|]. split; [exact (echo_gaps_reported zero)|].
  destruct (celer_path_solver (echo_kernels zero) a LOGREG None [one; one]
              Hset (echo_gaps_reported zero))
    as (r & st & Hrun & _).
  exists r, st. split; [exact Hrun|].
  vm_compute in Hrun. injection Hrun as _ <-. reflexivity.
Defined.

(** X8. With [return_n_iter], a path that goes through returns
    [n_iters] with one entry per grid point: the number of duality gaps the
    solver reported at that grid point, at least 1. *)
Theorem celer_path_n_iters (K : kernels) (a : celer_args) (pb : pb_t)
    (grp : partition) (alphas : list val) :
  set_up K a pb grp alphas -> gaps_reported K ->
  a_return_n_iter a = true ->
  exists (r : path_results) (st : store arr) (its : list Z),
    celer_path K a = (Ok r, st) /\
    r_n_iters r = Some its /\
    length its = length (r_alphas r) /\
    forall c : solve_call arr, c ∈ solves (trace st) ->
      exists s : sol,
        celer_sol K pb grp c = Some s /\
        its !! e_t c = Some (Z.of_nat (length (sol2 s))) /\
        (1 <= length (sol2 s))%nat.
Proof.
  intros Hset HK Hret. pose proof Hset as (_ & _ & Hv & _ & Ha & Hn).
  destruct (celer_path_run K a pb grp alphas Hset HK)
    as (loc & st & _ & Hpath & Hinv & (_ & _ & Hall) & Hsol).
  destruct Hinv as (_ & _ & Lg & Ln & _). rewrite Hret in Ln.
  eexists _, st, (n_iters st). split; [exact Hpath|].
  cbn [r_n_iters r_alphas]. rewrite Hret.
  split; [reflexivity|]. split; [exact Ln|].
  intros c Hc. destruct (Hall c Hc) as ((Hal & _) & _ & _ & _ & S3 & S4).
  destruct (Hsol c Hc) as (s & Hs & _ & _ & Eg).
  exists s. split; [exact Hs|]. rewrite <- Eg.
  split; [now apply S4|].
  destruct (e_gaps c) as [|g gs] eqn:E; [|simpl; lia].
  assert (Hlt : (e_t c < length (dual_gaps st))%nat).
  { apply lookup_lt_Some in Hal. lia. }
  apply lookup_lt_is_Some in Hlt as [g Hg]. rewrite Hg in S3. discriminate.
Qed.

Lemma celer_path_n_iters_witness :
  let a := small_args "lasso" None None None in
  set_up (echo_kernels zero) a LASSO None [one; one] /\
  gaps_reported (echo_kernels zero) /\
  a_return_n_iter a = true /\
  exists (r : path_results) (st : store arr),
    celer_path (echo_kernels zero) a = (Ok r, st) /\
    r_n_iters r = Some [1; 1].
Proof.
  intros a.
  assert (Hset : set_up (echo_kernels zero) a LASSO None [one; one]).
  { split; [split; [reflexivity | exact I]|].
    split; [intros H; discriminate|]. repeat split. }
  split; [exact Hset|]. split; [exact (echo_gaps_reported zero)|].
  split; [reflexivity|].
  destruct (celer_path_n_iters (echo_kernels zero) a LASSO None [one; one]
              Hset (echo_gaps_reported zero) eq_refl)
    as (r & st & its & Hrun & _).
  exists r, st. split; [exact Hrun|].
  vm_compute in Hrun. injection Hrun as <- _. reflexivity.
Defined.

(** ** [celer_path]: what is carried from one grid point to the next *)

(** X9. In a run of [celer_path] that goes through, the first solve
    starts from [coef_init] or zeros, with the residual and the dual point
    computed from them. Every later solve starts from the coefficients and
    the dual point the solve before it returned, but finds in [Xw] what
    that solve left there in place: [Xw] is never copied nor recomputed.
    [newton_celer] is handed neither [Xw] nor [theta]. *)
Theorem celer_path_in_place (K : kernels) (a : celer_args) (pb : pb_t)
    (grp : partition) (alphas : list val) :
  set_up K a pb grp alphas -> gaps_reported K ->
  exists (r : path_results) (st : store arr),
    celer_path K a = (Ok r, st) /\
    (forall c : solve_call arr, solves (trace st) !! 0%nat = Some c ->
       e_w_in c = first_w a /\
       match e_solver c with
       | Newton_celer => e_Xw_in c = None /\ e_theta_in c = None
       | _ => e_Xw_in c = Some (first_Xw K a pb) /\
              e_theta_in c
              = Some (dual_init K pb grp (e_alpha c) (first_Xw K a pb))
       end) /\
    (forall (t : nat) (c c' : solve_call arr),
       solves (trace st) !! t = Some c ->
       solves (trace st) !! S t = Some c' ->
       exists s : sol,
         celer_sol K pb grp c = Some s /\
         e_sol0 c = sol0 s /\ e_sol1 c = sol1 s /\ e_gaps c = sol2 s /\
         e_w_in c' = sol0 s /\
         match e_solver c' with
         | Newton_celer => e_Xw_in c' = None /\ e_theta_in c' = None
         | _ => e_Xw_in c' = Some (m_Xw s) /\
                e_theta_in c' = Some (sol1 s)
         end).
Proof.
  intros Hset HK. pose proof Hset as (_ & _ & Hv & _ & Ha & Hn).
  destruct (celer_path_run K a pb grp alphas Hset HK)
    as (loc & st & Hrun & Hpath & _ & (Hs & _ & Hall) & _).
  destruct (celer_prefix_carry K a pb grp alphas Hn (length alphas) HK)
    as (loc' & st' & Hrun' & Hfirst & Hcar & _); [lia|].
  rewrite Hrun in Hrun'. injection Hrun' as <- <-.
  assert (Hidx : forall t c, solves (trace st) !! t = Some c -> e_t c = t).
  { intros t c Hc.
    assert (Hm : map e_t (solves (trace st)) !! t = Some (e_t c))
      by (rewrite lookup_map, Hc; reflexivity).
    rewrite Hs in Hm. apply lookup_seq in Hm. lia. }
  eexists _, st. split; [exact Hpath|]. split.
  - intros c Hc. pose proof (Hidx _ _ Hc) as Ht.
    destruct (Hall c) as ((_ & Hsv & _) & (th & Hth & Hwarm) & _);
      [eapply list_elem_of_lookup_2; eassumption|].
    rewrite Ht in Hwarm. destruct Hwarm as (Hw & _ & Hd).
    split; [exact Hw|]. rewrite (Hfirst c Hc), Hth, Hsv, Hd.
    destruct (solver_of a pb); auto.
  - intros t c c' Hc Hc'. pose proof (Hidx _ _ Hc') as Ht'.
    destruct (Hcar t c c' Hc Hc') as (s & (Hsol & E0 & E1 & Eg) & Hx).
    destruct (Hall c') as ((_ & Hsv & _) & (th & Hth & Hwarm) & _);
      [eapply list_elem_of_lookup_2; eassumption|].
    rewrite Ht' in Hwarm. destruct Hwarm as (_ & c0 & Hc0 & Hw & Hd).
    rewrite Hc in Hc0. injection Hc0 as <-.
    exists s. repeat (split; [assumption|]).
    split; [congruence|]. rewrite Hx, Hth, Hsv, Hd, E1.
    destruct (solver_of a pb); auto.
Qed.

Lemma celer_path_in_place_witness :
  let a := small_args "lasso" None None None in
  set_up (echo_kernels zero) a LASSO None [one; one] /\
  gaps_reported (echo_kernels zero) /\
  exists (r : path_results) (st : store arr) (c c' : solve_call arr),
    celer_path (echo_kernels zero) a = (Ok r, st) /\
    solves (trace st) = [c; c'] /\
    e_Xw_in c' = Some [one; minus_one].
Proof.
  intros a.
  assert (Hset : set_up (echo_kernels zero) a LASSO None [one; one]).
  { split; [split; [reflexivity | exact I]|].
    split; [intros H; discriminate|]. repeat split. }
  split; [exact Hset|]. split; [exact (echo_gaps_reported zero)|].
  destruct (celer_path_in_place (echo_kernels zero) a LASSO None [one; one]
              Hset (echo_gaps_reported zero))
    as (r & st & Hrun & _).
  exists r, st. vm_compute in Hrun. injection Hrun as <- <-.
  eexists _, _. split; [reflexivity|]. split; reflexivity.
Defined.

(** ** [celer_path]: a group that names a missing column *)

(** A loop whose iterations raise nothing but [IndexError], and one of
    which raises, raises [IndexError]. *)
Lemma collect_index_error {B : Type} (l : list (result B)) :
  (forall e : exn, In (Raise e) l -> e = IndexError) ->
  (exists e : exn, In (Raise e) l) ->
  collect l = Raise IndexError.
Proof.
  induction l as [|[b|e] l IH]; intros Hall (e0 & Hin); simpl in *.
  - contradiction.
  - destruct Hin as [Hin|Hin]; [discriminate|].
    rewrite IH; [reflexivity | intros e' He'; apply Hall; auto | eauto].
  - f_equal. apply Hall. now left.
Qed.

Lemma select_columns_missing (n : Z) (cols : list Z) (j : Z) :
  In j cols -> valid_index n j = false ->
  select_columns n cols = Raise IndexError.
Proof.
  intros Hin Hj. unfold select_columns.
  destruct (forallb (valid_index n) cols) eqn:E; [|reflexivity].
  rewrite forallb_forall in E. rewrite (E j Hin) in Hj. discriminate.
Qed.

(** X10. For the group Lasso, once the validation and [check_array] are
    passed, a group that names a column [X] does not have makes
    [celer_path] raise [IndexError] before any solver is called: at line
    187, with nothing allocated, when the grid is to be computed; at line
    220 or before, with the result arrays allocated and nothing else done,
    when [alphas] is given and the norm raises on no group. *)
Theorem celer_path_raises (K : kernels) (a : celer_args)
    (grp_ptr grp_indices cols : list Z) (g : nat) (j : Z) :
  groups_fit a -> well_shaped a ->
  validate a = Ok (GRPLASSO, Some (grp_ptr, grp_indices)) ->
  check_array K = Ok tt ->
  (Z.of_nat g < n_groups grp_ptr) ->
  group_features grp_ptr grp_indices g = Ok cols ->
  In j cols -> valid_index (Z.of_nat (a_n_features a)) j = false ->
  (a_alphas a = None ->
   celer_path K a = (Raise IndexError, empty_store)) /\
  (forall alphas : list val,
     a_alphas a = Some alphas -> norm_total K ->
     celer_path K a
     = (Raise IndexError,
        (allocate (zeros (a_n_features a)) (zeros (a_n_samples a))
           (length (sort_descending (np_sort K) alphas))
           (a_return_n_iter a) empty_store).2)).
Proof.
  intros _ _ Hv Hc Hg Hf Hj Hbad.
  assert (Hin : In g (seq 0 (Z.to_nat (n_groups grp_ptr)))).
  { apply in_seq. lia. }
  split.
  - intros Hal. unfold celer_path. rewrite Hv, Hc.
    unfold make_alphas, alpha_max. rewrite Hal.
    rewrite collect_index_error; [reflexivity| |].
    + intros e He. apply in_map_iff in He as (g' & Hg' & _).
      unfold group_columns, group_features, select_columns in Hg'.
      destruct (grp_ptr !! g'), (grp_ptr !! S g'); try congruence.
      destruct (forallb _ _); congruence.
    + exists IndexError. apply in_map_iff. exists g. split; [|assumption].
      unfold group_columns. rewrite Hf.
      now apply (select_columns_missing _ _ j).
  - intros alphas Hal Hnorm. unfold celer_path. rewrite Hv, Hc.
    unfold make_alphas. rewrite Hal.
    unfold celer_loop, bind, allocate, lift, group_norms.
    destruct (Z.ltb_spec (n_groups grp_ptr) 0) as [Hlt|_]; [lia|].
    rewrite collect_index_error; [reflexivity| |].
    + intros e He. apply in_map_iff in He as (g' & Hg' & _).
      unfold group_norm_at, select_columns in Hg'.
      destruct (grp_ptr !! g'), (grp_ptr !! S g'); try congruence.
      destruct (forallb _ _); [|congruence].
      destruct (_ && _); [congruence|].
      destruct (Hnorm (slice grp_indices z z0) z z0) as [v Hv'].
      congruence.
    + exists IndexError. apply in_map_iff. exists g. split; [|assumption].
      unfold group_norm_at. unfold group_features in Hf.
      destruct (grp_ptr !! g), (grp_ptr !! S g); try discriminate.
      injection Hf as <-.
      now rewrite (select_columns_missing _ _ j Hj Hbad).
Qed.

Lemma celer_path_raises_witness :
  let a := small_args "grouplasso" (Some [one]) None
             (Some (GIndexLists [[0; 1]; [5]])) in
  groups_fit a /\ well_shaped a /\
  validate a = Ok (GRPLASSO, Some ([0; 2; 3], [0; 1; 5])) /\
  check_array (echo_kernels zero) = Ok tt /\
  group_features [0; 2; 3] [0; 1; 5] 1 = Ok [5] /\
  valid_index 3 5 = false /\
  norm_total (echo_kernels zero) /\
  celer_path (echo_kernels zero) a
  = (Raise IndexError,
     {| coefs := [zeros 3]; thetas := [zeros 2]; dual_gaps := [zero];
        n_iters := [0]; heap := []; trace := [] |}).
Proof.
  intros a.
  assert (Hfit : groups_fit a).
  { intros _. repeat constructor; discriminate. }
  assert (Hshape : well_shaped a) by (split; [reflexivity | exact I]).
  assert (Hnorm : norm_total (echo_kernels zero))
    by (intros cols s e; eexists; reflexivity).
  split; [exact Hfit|]. split; [exact Hshape|]. split; [reflexivity|].
  split; [reflexivity|]. split; [reflexivity|]. split; [reflexivity|].
  split; [exact Hnorm|].
  destruct (celer_path_raises (echo_kernels zero) a [0; 2; 3] [0; 1; 5] [5]
              1 5 Hfit Hshape eq_refl eq_refl eq_refl eq_refl
              ltac:(now left) eq_refl) as [_ Hrun].
  exact (Hrun [one] eq_refl Hnorm).
Defined.

Section MtlExact.
Variable K : mtl_kernels.
Variable b : mtl_args.
Variable alphas : list val.

Lemma mtl_step_exact (t : nat) (alpha : val) (W R theta : mat)
    (st : store mat) :
  alphas !! t = Some alpha ->
  coefs st !! Nat.pred t = Some W ->
  (t <> 0%nat -> (0 < n_cols W)%nat) ->
  heap st !! 0%nat = Some R -> heap st !! 1%nat = Some theta ->
  (t < length (coefs st))%nat -> (t < length (thetas st))%nat ->
  (t < length (dual_gaps st))%nat ->
  mtl_step K b alphas (RBuf 0) (RBuf 1) t tt st
  = (Ok tt, mtl_next K b t alpha W R theta st).
Proof.
  intros Ha Hw Hcols Hr Hth Lc Lth Lg.
  pose proof (lookup_lt_Some _ _ _ Hr) as Hr'.
  pose proof (lookup_lt_Some _ _ _ Hth) as Hth'.
  assert (H : wp (mtl_step K b alphas (RBuf 0) (RBuf 1) t tt)
                (fun _ st' => st' = mtl_next K b t alpha W R theta st) st).
  { assert (Hwarm : wp
      (if (0 <? t)%nat
       then W <~ copy (RCol (t - 1)) ;;
            wv <~ read W ;;
            c <~ column0 wv ;;
            ret (W, Z.max (count_nonzero c) (b_p0 b))
       else W <~ copy (RCol t) ;; ret (W, 10))
      (fun Wp st' => Wp = (RBuf (length (heap st)), mtl_p_t b t W) /\
                     st' = with_heap (fun h => h ++ [W]) st) st).
    { destruct t as [|t']; cbn [Nat.ltb Nat.leb Nat.pred] in *.
      - wp_auto. eapply wp_copy_col; [eassumption|]. wp_auto. auto.
      - replace (S t' - 1)%nat with t' by lia. wp_auto.
        eapply wp_copy_col; [eassumption|]. wp_auto.
        eapply wp_read_buf.
        { store_simpl.
          rewrite lookup_app_r, Nat.sub_diag by lia. reflexivity. }
        wp_auto. apply wp_column0; [apply Hcols; lia|]. wp_auto. auto. }
    unfold mtl_step. wp_auto.
    eapply wp_mono; [exact Hwarm|].
    intros Wp st1 (-> & ->). wp_auto.
    eapply wp_index; [eassumption|]. wp_auto.
    unfold call_mtl. wp_auto.
    eapply wp_read_buf.
    { store_simpl. rewrite lookup_app_r, Nat.sub_diag by lia. reflexivity. }
    wp_auto. eapply wp_read_buf.
    { store_simpl. rewrite lookup_app_l by lia. eassumption. }
    wp_auto. eapply wp_read_buf.
    { store_simpl. rewrite lookup_app_l by lia. eassumption. }
    wp_auto. apply wp_write_buf.
    { store_simpl. rewrite length_app. simpl. lia. }
    wp_auto. apply wp_write_buf.
    { store_simpl. rewrite length_insert, length_app. simpl. lia. }
    wp_auto. apply wp_write_buf.
    { store_simpl. rewrite !length_insert, length_app. simpl. lia. }
    wp_auto. apply wp_set_coefs; [store_simpl; lia|]. wp_auto.
    apply wp_set_thetas; [store_simpl; lia|]. wp_auto.
    apply wp_set_dual_gaps; [store_simpl; lia|]. store_simpl.
    reflexivity. }
  destruct H as ([] & st' & Hrun & ->). exact Hrun.
Qed.

End MtlExact.

Section MtlCarry.
Variable K : mtl_kernels.
Variable b : mtl_args.

Local Abbreviation alphas := (mtl_alphas K b).
Local Abbreviation n := (length (mtl_alphas K b)).

Lemma mtl_prefix_exact (k : nat) :
  mtl_regular K b -> (k < n)%nat ->
  exists (st : store mat) (alpha : val) (W R theta : mat),
    mtl_prefix K b k = (Ok tt, st) /\
    alphas !! k = Some alpha /\
    coefs st !! Nat.pred k = Some W /\
    (k <> 0%nat -> (0 < n_cols W)%nat) /\
    heap st !! 0%nat = Some R /\ heap st !! 1%nat = Some theta /\
    (n <= length (coefs st))%nat /\ length (thetas st) = n /\
    length (dual_gaps st) = n /\
    mtl_prefix K b (S k) = (Ok tt, mtl_next K b k alpha W R theta st).
Proof.
  intros HK Hk.
  destruct (mtl_prefix_run K b k HK) as (st & Hrun & Hinv & _); [lia|].
  destruct Hinv as (Lc & Lth & Lg & Lh & Hprev).
  assert (Ha : (k < length alphas)%nat) by lia.
  apply lookup_lt_is_Some in Ha as [alpha Halpha].
  assert (Hr : (0 < length (heap st))%nat) by lia.
  assert (Hv : (1 < length (heap st))%nat) by lia.
  apply lookup_lt_is_Some in Hr as [R HR].
  apply lookup_lt_is_Some in Hv as [theta Hth].
  assert (Hw : exists W : mat,
             coefs st !! Nat.pred k = Some W /\
             (k <> 0%nat -> (0 < n_cols W)%nat)).
  { destruct k as [|k'].
    - assert (H0 : (0 < length (coefs st))%nat) by lia.
      apply lookup_lt_is_Some in H0 as [W HW]. exists W. split; [exact HW|].
      congruence.
    - destruct Hprev as (W & HW & Hcols). exists W. auto. }
  destruct Hw as (W & HW & Hcols).
  exists st, alpha, W, R, theta.
  repeat (split; [assumption|]).
  rewrite mtl_prefix_S, Hrun.
  apply mtl_step_exact; auto; lia.
Qed.

Lemma mtl_prefix_0_exact :
  mtl_prefix K b 0
  = (Ok tt,
     {| coefs := mtl_coefs0 b n;
        thetas := repeat (mat_zeros (b_n_samples b) (n_cols (b_Y b))) n;
        dual_gaps := repeat zero n;
        n_iters := [];
        heap := [b_Y b; mat_zeros (length (rows (b_Y b))) (n_cols (b_Y b))];
        trace := [] |}).
Proof. reflexivity. Qed.

Lemma mtl_prefix_carry (k : nat) :
  mtl_regular K b -> (k <= n)%nat ->
  exists st : store mat,
    mtl_prefix K b k = (Ok tt, st) /\
    length (solves (trace st)) = k /\
    warnings (trace st) = [] /\
    (forall c : solve_call mat, solves (trace st) !! 0%nat = Some c ->
       e_w_in c = default (mat_zeros 0 0) (mtl_coefs0 b n !! 0%nat) /\
       e_Xw_in c = Some (b_Y b) /\
       e_theta_in c
       = Some (mat_zeros (length (rows (b_Y b))) (n_cols (b_Y b)))) /\
    mtl_carried K (solves (trace st)) /\
    match k with
    | O => coefs st = mtl_coefs0 b n /\
           heap st = [b_Y b;
                      mat_zeros (length (rows (b_Y b))) (n_cols (b_Y b))]
    | S k' =>
        exists (c : solve_call mat) (s : sol_mtl),
          solves (trace st) !! k' = Some c /\ mtl_sol K c = Some s /\
          heap st !! 0%nat = Some (mm_R s) /\
          heap st !! 1%nat = Some (mm_theta s) /\
          coefs st !! k' = Some (msol0 s)
    end.
Proof.
  intros HK. induction k as [|k IH]; intros Hk.
  - eexists. split; [apply mtl_prefix_0_exact|]. cbn [trace coefs heap].
    split; [reflexivity|]. split; [reflexivity|].
    split; [intros c Hc; discriminate|].
    split; [intros t c c' Hc; discriminate | auto].
  - destruct IH as (st & Hrun & Hlen & Hwarn & Hfirst & Hcar & Hlast); [lia|].
    destruct (mtl_prefix_exact k HK)
      as (st0 & alpha & W & R & theta & Hrun0 & Ha & HW & Hcols & HR & Hth
          & Lc & Lth & Lg & Hnext); [lia|].
    rewrite Hrun in Hrun0. injection Hrun0 as <-.
    exists (mtl_next K b k alpha W R theta st).
    split; [exact Hnext|].
    set (s := celer_mtl K alpha W R theta (mtl_p_t b k W)).
    set (c := {| e_t := k; e_solver := Celer_mtl; e_alpha := alpha;
                 e_w := RBuf (length (heap st)); e_Xw := Some (RBuf 0);
                 e_theta := Some (RBuf 1); e_w_in := W;
                 e_Xw_in := Some R; e_theta_in := Some theta;
                 e_p0 := mtl_p_t b k W;
                 e_sol0 := msol0 s; e_sol1 := msol1 s;
                 e_gaps := [msol2 s] |}).
    assert (Htr : trace (mtl_next K b k alpha W R theta st)
                  = trace st ++ [Solve c]) by reflexivity.
    assert (Hsolves : solves (trace (mtl_next K b k alpha W R theta st))
                      = solves (trace st) ++ [c]).
    { rewrite Htr, solves_app. reflexivity. }
    assert (Hsol : mtl_sol K c = Some s) by reflexivity.
    assert (Hh : (2 <= length (heap st))%nat).
    { apply lookup_lt_Some in Hth. lia. }
    rewrite Hsolves.
    split; [rewrite length_app, Hlen; simpl; lia|].
    split; [rewrite Htr, warnings_app, Hwarn; reflexivity|].
    split; [|split].
    + intros c0 Hc0. destruct k as [|k'].
      * destruct Hlast as (Hc00 & Hh0).
        apply length_zero_iff_nil in Hlen. rewrite Hlen in Hc0.
        simpl in Hc0. injection Hc0 as <-. cbn [e_w_in e_Xw_in e_theta_in c].
        rewrite Hh0 in HR, Hth. simpl in HR, Hth.
        injection HR as <-. injection Hth as <-.
        cbn [Nat.pred] in HW. rewrite Hc00 in HW. rewrite HW. auto.
      * apply Hfirst. rewrite lookup_app_l in Hc0 by lia. exact Hc0.
    + intros t c1 c2 H1 H2.
      destruct (decide (S t < k)%nat) as [Hlt|Hge].
      * rewrite lookup_app_l in H1 by lia.
        rewrite lookup_app_l in H2 by lia. eapply Hcar; eassumption.
      * assert (Hlt2 : (S t < length (solves (trace st) ++ [c]))%nat)
          by (eapply lookup_lt_Some; eassumption).
        rewrite length_app, Hlen in Hlt2. simpl in Hlt2.
        destruct k as [|k']; [lia|].
        assert (Et : t = k') by lia. subst t.
        rewrite lookup_app_l in H1 by lia.
        rewrite lookup_app_r, Hlen, Nat.sub_diag in H2 by lia.
        simpl in H2. injection H2 as <-.
        destruct Hlast as (c0 & s0 & Hc0 & Hs0 & Hh0 & Hh1 & Hco).
        rewrite Hc0 in H1. injection H1 as <-.
        exists s0. split; [assumption|].
        cbn [e_w_in e_Xw_in e_theta_in c Nat.pred] in *.
        repeat split; congruence.
    + exists c, s. split.
      { rewrite lookup_app_r, Hlen, Nat.sub_diag by lia. reflexivity. }
      split; [assumption|]. cbn [heap coefs mtl_next]. fold s.
      split; [|split].
      * rewrite list_lookup_insert_ne by lia.
        apply list_lookup_insert_eq.
        rewrite length_insert, length_app. simpl. lia.
      * apply list_lookup_insert_eq.
        rewrite !length_insert, length_app. simpl. lia.
      * apply list_lookup_insert_eq. lia.
Qed.

End MtlCarry.

(** ** [mtl_path]: what is carried from one grid point to the next *)







Section MtlCoefInit.
Variable K : mtl_kernels.
Variable b : mtl_args.
Variable ci ci' : list mat.
Hypothesis regular : mtl_regular K b.
Hypothesis given : b_coef_init b = Some ci.
Hypothesis first_slice : ci' !! 0%nat = ci !! 0%nat.
Hypothesis slices : length ci = length (mtl_alphas K b).
Hypothesis slices' : length ci' = length ci.

Local Abbreviation b' := (with_coef_init b (Some ci')).
Local Abbreviation n := (length (mtl_alphas K b)).

Lemma mtl_prefix_same (k : nat) :
  (k <= n)%nat ->
  exists st st' : store mat,
    mtl_prefix K b k = (Ok tt, st) /\
    mtl_prefix K b' k = (Ok tt, st') /\
    thetas st' = thetas st /\ dual_gaps st' = dual_gaps st /\
    n_iters st' = n_iters st /\ heap st' = heap st /\
    trace st' = trace st /\
    length (coefs st) = n /\ length (coefs st') = n /\
    forall i : nat, (i < Nat.max k 1)%nat -> coefs st' !! i = coefs st !! i.
Proof.
  induction k as [|k IH]; intros Hk.
  - eexists _, _. split; [apply mtl_prefix_0_exact|].
    split; [apply mtl_prefix_0_exact|].
    cbn [coefs thetas dual_gaps n_iters heap trace].
    repeat (split; [reflexivity|]).
    unfold mtl_coefs0. cbn [with_coef_init b_coef_init]. rewrite given.
    rewrite !length_map. split; [exact slices|].
    split; [now rewrite slices'|].
    intros i Hi. assert (i = 0%nat) as -> by lia.
    now rewrite !lookup_map, first_slice.
  - destruct IH as (st & st' & Hrun & Hrun' & Eth & Eg & En & Eh & Etr
                    & Lc & Lc' & Hco); [lia|].
    destruct (mtl_prefix_exact K b k regular)
      as (st0 & alpha & W & R & theta & Hrun0 & Ha & HW & Hcols & HR & Hth
          & _ & Lth & Lg & Hnext); [lia|].
    rewrite Hrun in Hrun0. injection Hrun0 as <-.
    exists (mtl_next K b k alpha W R theta st),
           (mtl_next K b' k alpha W R theta st').
    split; [exact Hnext|]. split.
    { rewrite mtl_prefix_S, Hrun'.
      apply mtl_step_exact; try assumption; try lia.
      - rewrite Hco by lia. exact HW.
      - now rewrite Eh.
      - now rewrite Eh.
      - rewrite Eth. lia.
      - rewrite Eg. lia. }
    unfold mtl_next. cbn [coefs thetas dual_gaps n_iters heap trace].
    change (mtl_p_t b' k W) with (mtl_p_t b k W).
    rewrite Eth, Eg, En, Eh, Etr, !length_insert.
    repeat (split; [first [reflexivity | assumption]|]).
    intros i Hi. destruct (decide (i = k)) as [->|Hne].
    + rewrite !list_lookup_insert_eq by lia. reflexivity.
    + rewrite !list_lookup_insert_ne by lia. apply Hco. lia.
Qed.

Lemma mtl_path_same : mtl_path K b' = mtl_path K b.
Proof.
  destruct (mtl_prefix_same n) as (st & st' & Hrun & Hrun' & Eth & Eg & En
                                   & Eh & Etr & Lc & Lc' & Hco); [lia|].
  assert (Ec : coefs st' = coefs st).
  { apply list_eq. intros i. destruct (decide (i < n)%nat) as [Hi|Hi].
    - apply Hco. lia.
    - rewrite !(proj2 (lookup_ge_None _ _)) by lia. reflexivity. }
  assert (Est : st' = st).
  { destruct st, st'. cbn in *. congruence. }
  rewrite !mtl_path_prefix.
  change (mtl_alphas K b') with (mtl_alphas K b).
  rewrite Hrun, Hrun', Est. reflexivity.
Qed.

End MtlCoefInit.

(** X14. Of a [coef_init] with one slice per grid point only the first
    slice matters: two calls that differ in the other slices only return
    the same results, run the same solves and leave the same memory. *)
Theorem mtl_path_coef_init_first_slice (K : mtl_kernels) (b : mtl_args)
    (ci ci' : list mat) :
  mtl_regular K b -> b_coef_init b = Some ci ->
  ci' !! 0%nat = ci !! 0%nat ->
  length ci = length (mtl_alphas K b) -> length ci' = length ci ->
  mtl_path K (with_coef_init b (Some ci')) = mtl_path K b.
Proof. intros. eapply mtl_path_same; eassumption. Qed.

Lemma mtl_path_coef_init_first_slice_witness :
  let W0 := {| n_cols := 3; rows := [[one; zero; zero]] |} in
  let W1 := {| n_cols := 3; rows := [[zero; one; zero]] |} in
  let b := with_coef_init (small_mtl_args None 10) (Some [W0; W0]) in
  mtl_regular echo_mtl_kernels b /\
  b_coef_init b = Some [W0; W0] /\
  [W0; W1] !! 0%nat = [W0; W0] !! 0%nat /\
  length [W0; W0] = length (mtl_alphas echo_mtl_kernels b) /\
  length [W0; W1] = length [W0; W0] /\
  mtl_path echo_mtl_kernels (with_coef_init b (Some [W0; W1]))
  = mtl_path echo_mtl_kernels b.
Proof.
  cbv zeta.
  set (W0 := {| n_cols := 3; rows := [[one; zero; zero]] |}).
  set (W1 := {| n_cols := 3; rows := [[zero; one; zero]] |}).
  set (b := with_coef_init (small_mtl_args None 10) (Some [W0; W0])).
  assert (H1 : mtl_regular echo_mtl_kernels b).
  { split; [simpl; lia | intros; simpl; lia]. }
  assert (H2 : b_coef_init b = Some [W0; W0]) by reflexivity.
  assert (H3 : [W0; W1] !! 0%nat = [W0; W0] !! 0%nat) by reflexivity.
  assert (H4 : length [W0; W0] = length (mtl_alphas echo_mtl_kernels b))
    by reflexivity.
  assert (H5 : length [W0; W1] = length [W0; W0]) by reflexivity.
  repeat (split; [assumption|]).
  exact (mtl_path_coef_init_first_slice echo_mtl_kernels b [W0; W0] [W0; W1]
           H1 H2 H3 H4 H5).
Defined.

Lemma map_nth_seq_id {A : Type} (l : list A) (d : A) :
  map (fun j => nth j l d) (seq 0 (length l)) = l.
Proof.
  apply list_eq. intros i. rewrite lookup_map.
  destruct (decide (i < length l)%nat) as [Hi|Hi].
  - rewrite lookup_seq_lt by assumption. simpl.
    rewrite nth_lookup.
    destruct (l !! i) eqn:E; [reflexivity|].
    apply lookup_ge_None in E. lia.
  - rewrite !(proj2 (lookup_ge_None _ _)); [reflexivity | lia |].
    rewrite length_seq. lia.
Qed.

Lemma nth_map_rows (rs : list arr) (i j : nat) :
  nth i (map (fun r => nth j r zero) rs) zero = nth j (nth i rs []) zero.
Proof.
  revert i. induction rs as [|r rs IH]; intros [|i]; simpl; auto;
    destruct j; reflexivity.
Qed.

(** X17. The swap of axes [mtl_path] applies to [coef_init] on entry and
    to [coefs] on return is its own inverse on a matrix whose rows all have
    [n_cols] entries, and turns an [r] by [c] matrix into a [c] by [r]
    one: [coefs] is returned in the layout [coef_init] is passed in. *)
Theorem swapaxes_involutive (m : mat) :
  rectangular m ->
  swapaxes (swapaxes m) = m /\
  rectangular (swapaxes m) /\
  n_cols (swapaxes m) = length (rows m) /\
  length (rows (swapaxes m)) = n_cols m.
Proof.
  intros Hrect. destruct m as [c rs]. unfold rectangular in *.
  cbn [n_cols rows] in Hrect. unfold swapaxes. cbn [n_cols rows].
  rewrite length_map, length_seq.
  split; [|split; [|split; reflexivity]].
  - f_equal. rewrite <- (map_nth_seq_id rs []) at 2.
    apply map_ext_in. intros i Hi. apply in_seq in Hi.
    rewrite map_map.
    assert (Hrow : length (nth i rs []) = c).
    { rewrite Forall_forall in Hrect. apply Hrect.
      apply list_elem_of_In, nth_In. lia. }
    etransitivity; [|apply (map_nth_seq_id (nth i rs []) zero)].
    rewrite Hrow. apply map_ext. intros j.
    apply nth_map_rows.
  - apply Forall_forall. intros r Hr.
    apply list_elem_of_In, in_map_iff in Hr as (j & <- & _).
    now rewrite length_map.
Qed.

Lemma swapaxes_involutive_witness :
  let m := {| n_cols := 2; rows := [[one; zero]; [zero; one]; [one; one]] |} in
  rectangular m /\ swapaxes (swapaxes m) = m /\
  swapaxes m = {| n_cols := 3; rows := [[one; zero; one]; [zero; one; one]] |}.
Proof.
  cbv zeta.
  assert (H : rectangular {| n_cols := 2;
                             rows := [[one; zero]; [zero; one]; [one; one]] |})
    by (repeat constructor).
  split; [exact H|].
  split; [exact (proj1 (swapaxes_involutive _ H)) | reflexivity].
Defined.

(** ** [mtl_path]: a [coef_init] with too few slices *)

Lemma bind_ok {A B C : Type} (m : M A B) (k : B -> M A C) (st st1 : store A)
    (x : B) :
  m st = (Ok x, st1) -> bind m k st = k x st1.
Proof. intros H. unfold bind. now rewrite H. Qed.

Section MtlShort.
Variable K : mtl_kernels.
Variable b : mtl_args.
Variable ci : list mat.
Hypothesis regular : mtl_kernel_regular K.
Hypothesis given : b_coef_init b = Some ci.
Hypothesis short : (length ci < length (mtl_alphas K b))%nat.

Local Abbreviation alphas := (mtl_alphas K b).
Local Abbreviation n := (length (mtl_alphas K b)).
Local Abbreviation m := (length ci).

Lemma mtl_prefix_short (k : nat) :
  (k <= m)%nat ->
  exists st : store mat,
    mtl_prefix K b k = (Ok tt, st) /\
    length (coefs st) = m /\ length (thetas st) = n /\
    length (dual_gaps st) = n /\ (2 <= length (heap st))%nat /\
    length (solves (trace st)) = k /\
    (k <> 0%nat ->
     exists W : mat, coefs st !! Nat.pred k = Some W /\ (0 < n_cols W)%nat).
Proof.
  induction k as [|k IH]; intros Hk.
  - eexists. split; [apply mtl_prefix_0_exact|].
    cbn [coefs thetas dual_gaps heap trace solves length].
    unfold mtl_coefs0. rewrite given, length_map, !repeat_length.
    repeat split; auto. congruence.
  - destruct IH as (st & Hrun & Lc & Lth & Lg & Lh & Ls & Hprev); [lia|].
    assert (Ha : (k < length alphas)%nat) by lia.
    apply lookup_lt_is_Some in Ha as [alpha Halpha].
    assert (Hr : (0 < length (heap st))%nat) by lia.
    assert (Hv : (1 < length (heap st))%nat) by lia.
    apply lookup_lt_is_Some in Hr as [R HR].
    apply lookup_lt_is_Some in Hv as [theta Hth].
    assert (Hw : exists W : mat,
               coefs st !! Nat.pred k = Some W /\
               (k <> 0%nat -> (0 < n_cols W)%nat)).
    { destruct k as [|k'].
      - assert (H0 : (0 < length (coefs st))%nat) by lia.
        apply lookup_lt_is_Some in H0 as [W HW]. exists W.
        split; [exact HW | congruence].
      - destruct Hprev as (W & HW & Hcols); [congruence|]. exists W. auto. }
    destruct Hw as (W & HW & Hcols).
    exists (mtl_next K b k alpha W R theta st). split.
    { rewrite mtl_prefix_S, Hrun. apply mtl_step_exact; auto; lia. }
    unfold mtl_next. cbn [coefs thetas dual_gaps heap trace Nat.pred].
    rewrite !length_insert, length_app, solves_app, length_app, Ls.
    cbn [length solves]. repeat split; try lia.
    intros _. eexists. split; [apply list_lookup_insert_eq; lia|].
    apply regular.
Qed.

Lemma mtl_step_short :
  exists st st' : store mat,
    mtl_prefix K b m = (Ok tt, st) /\
    mtl_step K b alphas (RBuf 0) (RBuf 1) m tt st = (Raise IndexError, st') /\
    length (solves (trace st')) = match m with
                                  | O => 0%nat
                                  | S _ => S m
                                  end.
Proof.
  destruct (mtl_prefix_short m) as (st & Hrun & Lc & Lth & Lg & Lh & Ls
                                    & Hprev); [lia|].
  exists st. destruct m as [|m'] eqn:Em.
  - exists st. split; [exact Hrun|]. split; [|exact Ls].
    apply length_zero_iff_nil in Lc.
    unfold mtl_step, bind, copy, bind, read, index. cbn [Nat.ltb Nat.leb].
    rewrite Lc. reflexivity.
  - destruct Hprev as (W & HW & Hcols); [congruence|]. cbn [Nat.pred] in HW.
    assert (Ha : (S m' < length alphas)%nat) by lia.
    apply lookup_lt_is_Some in Ha as [alpha Halpha].
    assert (Hr : (0 < length (heap st))%nat) by lia.
    assert (Hv : (1 < length (heap st))%nat) by lia.
    apply lookup_lt_is_Some in Hr as [R HR].
    apply lookup_lt_is_Some in Hv as [theta Hth].
    set (p_t := Z.max (count_nonzero (first_column W)) (b_p0 b)).
    assert (Hwarm :
      (W0 <~ copy (RCol (S m' - 1)) ;;
       wv <~ read W0 ;;
       c <~ column0 wv ;;
       ret (W0, Z.max (count_nonzero c) (b_p0 b))) st
      = (Ok (RBuf (length (heap st)), p_t),
         with_heap (fun h => h ++ [W]) st)).
    { assert (H : wp
        (W0 <~ copy (RCol (S m' - 1)) ;;
         wv <~ read W0 ;;
         c <~ column0 wv ;;
         ret (W0, Z.max (count_nonzero c) (b_p0 b)))
        (fun Wp st' => Wp = (RBuf (length (heap st)), p_t) /\
                       st' = with_heap (fun h => h ++ [W]) st) st).
      { replace (S m' - 1)%nat with m' by lia. wp_auto.
        eapply wp_copy_col; [eassumption|]. wp_auto.
        eapply wp_read_buf.
        { store_simpl.
          rewrite lookup_app_r, Nat.sub_diag by lia. reflexivity. }
        wp_auto. apply wp_column0; [assumption|]. wp_auto. auto. }
      destruct H as (Wp & st1 & E & -> & ->). exact E. }
    destruct (wp_call_mtl K (S m') alpha (length (heap st)) p_t W R theta
                (with_heap (fun h => h ++ [W]) st))
      as (s & st2 & Hcall & _ & Etr & Ec & _); store_simpl.
    { rewrite lookup_app_r, Nat.sub_diag by lia. reflexivity. }
    { rewrite lookup_app_l by lia. assumption. }
    { rewrite lookup_app_l by lia. assumption. }
    exists st2. split; [exact Hrun|]. split.
    + unfold mtl_step. cbn [Nat.ltb Nat.leb].
      rewrite (bind_ok _ _ _ _ _ Hwarm). cbn [fst snd].
      unfold index at 1. rewrite Halpha.
      rewrite (bind_ok (ret alpha) _ _ _ _ eq_refl).
      rewrite (bind_ok _ _ _ _ _ Hcall).
      unfold bind, set_coefs, assign.
      rewrite decide_False; [reflexivity|].
      rewrite Ec. store_simpl. lia.
    + rewrite Etr, solves_app, length_app. store_simpl. rewrite Ls.
      simpl. lia.
Qed.

Lemma mtl_prefix_raised (k k' : nat) (e : exn) (st : store mat) :
  mtl_prefix K b k = (Raise e, st) -> (k <= k')%nat ->
  mtl_prefix K b k' = (Raise e, st).
Proof.
  intros Hk Hle. induction Hle as [|k' Hle IH]; [exact Hk|].
  now rewrite mtl_prefix_S, IH.
Qed.

Lemma mtl_path_short :
  exists st : store mat,
    mtl_path K b = (Raise IndexError, st) /\
    length (solves (trace st)) = match m with
                                 | O => 0%nat
                                 | S _ => S m
                                 end.
Proof.
  destruct mtl_step_short as (st & st' & Hrun & Hstep & Hlen).
  exists st'. split; [|exact Hlen].
  assert (HS : mtl_prefix K b (S m) = (Raise IndexError, st')).
  { now rewrite mtl_prefix_S, Hrun. }
  rewrite mtl_path_prefix.
  now rewrite (mtl_prefix_raised (S m) n IndexError st' HS) by lia.
Qed.

End MtlShort.



(** ** [PN_solver] *)

(** X18. [PN_solver] works on a copy of [w_init]: whatever
    [newton_celer] leaves in the array it is handed, the array [w_init]
    holds afterwards what it held before, [coefs], [thetas] and the other
    arrays in memory are as they were, and the result is what
    [newton_celer] returns for the contents of [w_init]. *)
Theorem PN_solver_keeps_w_init (newton : newton_args -> arr -> sol)
    (X : design) (y : arr) (alpha : val) (w_init : ref) (o : pn_options)
    (w0 : arr) (st : store arr) :
  read w_init st = (Ok w0, st) ->
  exists st' : store arr,
    let s := newton (pn_args X y alpha o) w0 in
    PN_solver newton X y alpha w_init o st = (Ok s, st') /\
    read w_init st' = (Ok w0, st') /\
    heap st' = heap st ++ [m_w s] /\
    coefs st' = coefs st /\ thetas st' = thetas st /\
    dual_gaps st' = dual_gaps st /\ trace st' = trace st.
Proof.
  intros Hr. cbv zeta.
  assert (H : wp (PN_solver newton X y alpha w_init o)
    (fun s st' =>
       s = newton (pn_args X y alpha o) w0 /\
       st' = with_heap (fun h => h ++ [m_w s]) st) st).
  { unfold PN_solver, copy. wp_auto.
    exists w0, st. split; [exact Hr|]. wp_auto.
    eapply wp_read_buf.
    { store_simpl. rewrite lookup_app_r, Nat.sub_diag by lia. reflexivity. }
    wp_auto. apply wp_write_buf.
    { store_simpl. rewrite length_app. simpl. lia. }
    store_simpl. wp_auto. split; [reflexivity|].
    unfold with_heap. store_simpl. f_equal.
    rewrite insert_app_r_alt, Nat.sub_diag by lia.
    reflexivity. }
  destruct H as (s & st' & Hrun & -> & ->).
  eexists. split; [exact Hrun|]. store_simpl.
  split; [|auto 10].
  unfold read, index in *. destruct w_init as [t|t|l]; store_simpl.
  - destruct (coefs st !! t) eqn:E; [|discriminate].
    injection Hr as ->. reflexivity.
  - destruct (thetas st !! t) eqn:E; [|discriminate].
    injection Hr as ->. reflexivity.
  - destruct (heap st !! l) eqn:E; [|discriminate].
    injection Hr as ->.
    rewrite lookup_app_l by (eapply lookup_lt_Some; eassumption).
    now rewrite E.
Qed.

Lemma PN_solver_keeps_w_init_witness :
  let st := {| coefs := []; thetas := []; dual_gaps := []; n_iters := [];
               heap := [[one; zero]]; trace := [] |} in
  let newton := fun (_ : newton_args) (w : arr) =>
                  echo_sol zero (map (fun _ => one) w) [] [] in
  let o := {| o_max_iter := 20; o_verbose := false;
              o_verbose_inner := false; o_tol := zero; o_prune := true;
              o_p0 := 10; o_use_accel := true; o_K := 6; o_growth := 2;
              o_blitz_sc := false |} in
  read (RBuf 0) st = (Ok [one; zero], st) /\
  exists (s : sol) (st' : store arr),
    PN_solver newton (Dense [[one]; [zero]]) [one] one (RBuf 0) o st
    = (Ok s, st') /\
    heap st' = [[one; zero]; [one; one]].
Proof.
  cbv zeta.
  set (st := {| coefs := []; thetas := []; dual_gaps := []; n_iters := [];
                heap := [[one; zero]]; trace := [] |}).
  assert (H : read (RBuf 0) st = (Ok [one; zero], st)) by reflexivity.
  split; [exact H|].
  destruct (PN_solver_keeps_w_init
              (fun (_ : newton_args) (w : arr) =>
                 echo_sol zero (map (fun _ => one) w) [] [])
              (Dense [[one]; [zero]]) [one] one (RBuf 0)
              {| o_max_iter := 20; o_verbose := false;
                 o_verbose_inner := false; o_tol := zero; o_prune := true;
                 o_p0 := 10; o_use_accel := true; o_K := 6; o_growth := 2;
                 o_blitz_sc := false |} [one; zero] st H)
    as (st' & Hrun & _ & Hh & _).
  eexists _, st'. split; [exact Hrun|]. rewrite Hh. reflexivity.
Defined.

(** ** The Gram matrix of a group of centred columns *)

Lemma dot_shift (s1 s2 : Q) (x1 x2 : Exact.vec) :
  length x1 = length x2 ->
  (Exact.dot (map (fun x => x - s1) x1) (map (fun x => x - s2) x2)
   == Exact.dot x1 x2
      + (s1 * s2 * inject_Z (Z.of_nat (length x1))
         - s1 * col_sum x2 - s2 * col_sum x1))%Q.
Proof.
  revert x2. induction x1 as [|a x1 IH]; intros [|b x2] Hlen;
    try discriminate.
  - unfold Exact.dot, col_sum. cbn [map zip_with fold_right length].
    change (inject_Z (Z.of_nat 0)) with 0%Q.
    ring.
  - injection Hlen as Hlen. specialize (IH x2 Hlen).
    unfold Exact.dot, col_sum in *. cbn [map zip_with fold_right length].
    rewrite IH. rewrite Nat2Z.inj_succ, <- Z.add_1_r, inject_Z_plus.
    change (inject_Z 1) with 1%Q. ring.
Qed.

(** X20. In exact arithmetic, for a group whose features are their own
    positions in [grp_indices] (as for an integer group size or a list of
    sizes), the Gram entry computed for a sparse [X] is the product of the
    two columns each shifted by its entry of [X_sparse_scaling]: the
    correction makes [gram] the Gram matrix of the centred columns. *)
Theorem gram_entry_centred (X : list Exact.vec) (grp_indices : list Z)
    (scaling : Exact.vec) (n_samples j1 j2 : nat) (x1 x2 : Exact.vec)
    (s1 s2 : Q) :
  Forall (fun col => length col = n_samples) X ->
  grp_indices !! j1 = Some (Z.of_nat j1) ->
  grp_indices !! j2 = Some (Z.of_nat j2) ->
  X !! j1 = Some x1 -> X !! j2 = Some x2 ->
  scaling !! j1 = Some s1 -> scaling !! j2 = Some s2 ->
  exists q : Q,
    gram_entry X grp_indices scaling n_samples j1 j2 = Some q /\
    (q == Exact.dot (map (fun x => x - s1) x1) (map (fun x => x - s2) x2))%Q.
Proof.
  intros Hrect Hg1 Hg2 Hx1 Hx2 Hs1 Hs2.
  assert (L1 : length x1 = n_samples).
  { rewrite Forall_forall in Hrect. apply Hrect.
    eapply list_elem_of_lookup_2. eassumption. }
  assert (L2 : length x2 = n_samples).
  { rewrite Forall_forall in Hrect. apply Hrect.
    eapply list_elem_of_lookup_2. eassumption. }
  assert (Hc : forall j x, X !! j = Some x -> np_col X (Z.of_nat j) = Some x).
  { intros j x Hj. unfold np_col.
    destruct (Z.ltb_spec (Z.of_nat j) 0) as [?|_]; [lia|].
    now rewrite Nat2Z.id. }
  unfold gram_entry.
  rewrite Hg1, Hg2, (Hc _ _ Hx1), (Hc _ _ Hx2), Hs1, Hs2, Hx1, Hx2.
  eexists. split; [reflexivity|].
  rewrite dot_shift by congruence. rewrite L1. reflexivity.
Qed.

Lemma gram_entry_centred_witness :
  let X := [[1; 3]; [2; 0]]%Q in
  Forall (fun col => length col = 2%nat) X /\
  exists q : Q,
    gram_entry X [0; 1] [2; 1]%Q 2 0 1 = Some q /\
    (q == Exact.dot [1 - 2; 3 - 2] [2 - 1; 0 - 1])%Q /\ (q == -2)%Q.
Proof.
  cbv zeta.
  assert (H : Forall (fun col : Exact.vec => length col = 2%nat)
                [[1; 3]; [2; 0]]%Q) by (repeat constructor).
  split; [exact H|].
  destruct (gram_entry_centred [[1; 3]; [2; 0]]%Q [0; 1] [2; 1]%Q 2 0 1
              [1; 3]%Q [2; 0]%Q 2 1 H eq_refl eq_refl eq_refl eq_refl
              eq_refl eq_refl) as (q & Hq & Heq).
  exists q. split; [exact Hq|]. split; [exact Heq|].
  rewrite Heq. vm_compute. reflexivity.
Defined.

(** ** [alpha_max] of the Lasso, in exact arithmetic *)

Section ExactLasso.
Local Open Scope Q_scope.
Import Exact.

Lemma dot_cons (a b : Q) (u v : vec) : dot (a :: u) (b :: v) = a * b + dot u v.
Proof. reflexivity. Qed.

Lemma dot_nil_r (u : vec) : dot u [] = 0.
Proof. destruct u; reflexivity. Qed.

Lemma dot_comm (u v : vec) : dot u v == dot v u.
Proof.
  revert v. induction u as [|a u IH]; intros [|b v];
    try reflexivity.
  rewrite !dot_cons, IH. ring.
Qed.

Lemma dot_zeros_l (k : nat) (c : vec) : dot (repeat 0 k) c == 0.
Proof.
  revert c. induction k as [|k IH]; intros [|x c]; try reflexivity.
  cbn [repeat]. rewrite dot_cons, IH. ring.
Qed.

Lemma dot_zeros_r (k : nat) (y : vec) : dot y (repeat 0 k) == 0.
Proof. rewrite dot_comm. apply dot_zeros_l. Qed.

Lemma dot_axpy (wj : Q) (y col acc : vec) :
  length col = length y -> length acc = length y ->
  dot y (zip_with (fun x r => wj * x + r) col acc)
  == wj * dot col y + dot y acc.
Proof.
  revert col acc. induction y as [|a y IH]; intros [|x col] [|r acc] H1 H2;
    try discriminate.
  - unfold dot. simpl. ring.
  - injection H1 as H1. injection H2 as H2.
    cbn [zip_with]. rewrite !dot_cons, IH by assumption. ring.
Qed.

Lemma Xw_cons (col : vec) (X : list vec) (wj : Q) (w : vec) (n : nat) :
  Xw (col :: X) (wj :: w) n
  = zip_with (fun x r => wj * x + r) col (Xw X w n).
Proof. reflexivity. Qed.

Lemma Xw_length (X : list vec) (w : vec) (n : nat) :
  Forall (fun col => length col = n) X -> length (Xw X w n) = n.
Proof.
  intros H. revert w. induction H as [|col X Hc _ IH]; intros w.
  - unfold Xw. simpl. apply repeat_length.
  - destruct w as [|wj w].
    + unfold Xw. simpl. apply repeat_length.
    + rewrite Xw_cons, length_zip_with, IH, Hc. lia.
Qed.

Lemma dot_Xw (X : list vec) (w y : vec) (n : nat) :
  Forall (fun col => length col = n) X -> length y = n ->
  dot y (Xw X w n) == dot w (XTy X y).
Proof.
  intros H Hy. revert w. induction H as [|col X Hc HX IH]; intros w.
  - unfold Xw, XTy. simpl. rewrite dot_nil_r. apply dot_zeros_r.
  - destruct w as [|wj w].
    + unfold Xw. simpl. apply dot_zeros_r.
    + rewrite Xw_cons, dot_axpy.
      * unfold XTy. cbn [map]. rewrite dot_cons. fold (XTy X y).
        now rewrite IH.
      * congruence.
      * rewrite Xw_length by assumption. congruence.
Qed.

Lemma dot_sub_sq (u v : vec) :
  length u = length v ->
  dot (zip_with Qminus u v) (zip_with Qminus u v)
  == dot u u - 2 * dot u v + dot v v.
Proof.
  revert v. induction u as [|a u IH]; intros [|b v] H; try discriminate.
  - unfold dot. simpl. ring.
  - injection H as H. cbn [zip_with]. rewrite !dot_cons, IH by assumption.
    ring.
Qed.

Lemma dot_self_nonneg (v : vec) : 0 <= dot v v.
Proof.
  induction v as [|a v IH]; [unfold dot; simpl; lra|].
  rewrite dot_cons. assert (0 <= a * a) by Lqa.nra. lra.
Qed.

Lemma norm1_nonneg (w : vec) : 0 <= norm1 w.
Proof.
  induction w as [|a w IH]; [unfold norm1; simpl; lra|].
  unfold norm1 in *. cbn [map fold_right].
  pose proof (Qabs_nonneg a). lra.
Qed.

Lemma norm_inf_cons (a : Q) (c : vec) :
  norm_inf (a :: c) = Qmax (Qabs a) (norm_inf c).
Proof. reflexivity. Qed.

Lemma norm_inf_nonneg (c : vec) : 0 <= norm_inf c.
Proof.
  induction c as [|a c IH]; [unfold norm_inf; simpl; lra|].
  rewrite norm_inf_cons. pose proof (Q.le_max_r (Qabs a) (norm_inf c)). lra.
Qed.

Lemma abs_dot_le (w c : vec) : Qabs (dot w c) <= norm1 w * norm_inf c.
Proof.
  revert c. induction w as [|a w IH]; intros c.
  - unfold dot, norm1. simpl. rewrite Qmult_0_l. apply Qle_refl.
  - destruct c as [|b c].
    + rewrite dot_nil_r. simpl.
      pose proof (norm1_nonneg (a :: w)).
      unfold norm_inf. simpl. rewrite Qmult_0_r. apply Qle_refl.
    + rewrite dot_cons, norm_inf_cons.
      unfold norm1. cbn [map fold_right]. fold (norm1 w).
      pose proof (Qabs_triangle (a * b) (dot w c)) as Htri.
      rewrite Qabs_Qmult in Htri.
      pose proof (Q.le_max_l (Qabs b) (norm_inf c)) as Hl.
      pose proof (Q.le_max_r (Qabs b) (norm_inf c)) as Hr.
      pose proof (Qabs_nonneg a) as Ha.
      pose proof (norm1_nonneg w) as Hw.
      specialize (IH c).
      set (M := Qmax (Qabs b) (norm_inf c)) in *.
      assert (H1 : Qabs a * Qabs b <= Qabs a * M).
      { rewrite (Qmult_comm (Qabs a) (Qabs b)), (Qmult_comm (Qabs a) M).
        apply Qmult_le_compat_r; assumption. }
      assert (H2 : norm1 w * norm_inf c <= norm1 w * M).
      { rewrite (Qmult_comm (norm1 w) (norm_inf c)), (Qmult_comm (norm1 w) M).
        apply Qmult_le_compat_r; assumption. }
      lra.
Qed.

Lemma norm1_zeros (k : nat) : norm1 (repeat 0 k) == 0.
Proof.
  induction k as [|k IH]; [reflexivity|].
  unfold norm1 in *. cbn [repeat map fold_right]. rewrite IH.
  reflexivity.
Qed.

Lemma objective_expand (X : list vec) (y : vec) (alpha : Q) (w : vec) :
  Forall (fun col => length col = length y) X ->
  lasso_objective X y alpha w
  == (dot y y - 2 * dot w (XTy X y)
      + dot (Xw X w (length y)) (Xw X w (length y)))
     * / (2 * inject_Z (Z.of_nat (length y)))
     + alpha * norm1 w.
Proof.
  intros HX. unfold lasso_objective. cbv zeta. unfold Qdiv.
  rewrite dot_sub_sq by (now rewrite Xw_length).
  rewrite (dot_Xw X w y (length y)) by auto. reflexivity.
Qed.

Lemma objective_zeros (X : list vec) (y : vec) (alpha : Q) (k : nat) :
  Forall (fun col => length col = length y) X ->
  lasso_objective X y alpha (repeat 0 k)
  == dot y y * / (2 * inject_Z (Z.of_nat (length y))).
Proof.
  intros HX. rewrite objective_expand by assumption.
  rewrite (dot_Xw X (repeat 0 k) (Xw X (repeat 0 k) (length y)) (length y))
    by (auto using Xw_length).
  rewrite !dot_zeros_l, norm1_zeros. ring.
Qed.

Lemma samples_pos (y : vec) :
  (0 < length y)%nat ->
  0 < inject_Z (Z.of_nat (length y)) /\
  0 < / inject_Z (Z.of_nat (length y)) /\
  / (2 * inject_Z (Z.of_nat (length y)))
  == (1 # 2) * / inject_Z (Z.of_nat (length y)).
Proof.
  intros Hn.
  assert (HN : 0 < inject_Z (Z.of_nat (length y))).
  { change 0 with (inject_Z 0). rewrite <- Zlt_Qlt. lia. }
  split; [exact HN|]. split; [now apply Qinv_lt_0_compat|].
  rewrite Qinv_mult_distr. reflexivity.
Qed.

End ExactLasso.

(** X21. In exact arithmetic and without centring, the all-zero vector
    minimises the Lasso objective of the docstring at every penalty that
    is at least the [alpha_max] of line 180. *)
Theorem alpha_max_zero_optimal (X : list Exact.vec) (y : Exact.vec)
    (alpha : Q) (w : Exact.vec) :
  (0 < length y)%nat ->
  Forall (fun col => length col = length y) X ->
  length w = length X ->
  (Exact.alpha_max_lasso X y <= alpha)%Q ->
  (Exact.lasso_objective X y alpha (repeat 0%Q (length X))
   <= Exact.lasso_objective X y alpha w)%Q.
Proof.
  intros Hn HX _ Hal.
  destruct (samples_pos y Hn) as (HN & Hv & Hi).
  rewrite objective_zeros, objective_expand by assumption.
  rewrite Hi. unfold Exact.alpha_max_lasso, Qdiv in Hal.
  set (v := (/ inject_Z (Z.of_nat (length y)))%Q) in *.
  set (c := Exact.XTy X y) in *.
  set (A := Exact.dot (Exact.Xw X w (length y)) (Exact.Xw X w (length y))).
  pose proof (dot_self_nonneg (Exact.Xw X w (length y))) as HA. fold A in HA.
  pose proof (abs_dot_le w c) as HD.
  pose proof (Qle_Qabs (Exact.dot w c)) as HD'.
  pose proof (norm1_nonneg w) as HS.
  pose proof (norm_inf_nonneg c) as HM.
  set (D := Exact.dot w c) in *. set (S := Exact.norm1 w) in *.
  set (M := Exact.norm_inf c) in *.
  assert (H1 : (0 <= A * v)%Q) by (apply Qmult_le_0_compat; lra).
  assert (H2 : (D * v <= S * M * v)%Q)
    by (apply Qmult_le_compat_r; lra).
  assert (H3 : (M * v * S <= alpha * S)%Q)
    by (apply Qmult_le_compat_r; lra).
  lra.
Qed.

Lemma alpha_max_zero_optimal_witness :
  (0 < length [1; 2]%Q)%nat /\
  Forall (fun col => length col = length [1; 2]%Q) [[1; 3]%Q] /\
  length [1%Q] = length [[1; 3]%Q] /\
  (Exact.alpha_max_lasso [[1; 3]] [1; 2] <= 7 # 2)%Q /\
  (Exact.lasso_objective [[1; 3]] [1; 2] (7 # 2) [0]
   <= Exact.lasso_objective [[1; 3]] [1; 2] (7 # 2) [1])%Q.
Proof.
  assert (H1 : (0 < length [1; 2]%Q)%nat) by (simpl; lia).
  assert (H2 : Forall (fun col => length col = length [1; 2]%Q) [[1; 3]%Q])
    by (repeat constructor).
  assert (H3 : length [1%Q] = length [[1; 3]%Q]) by reflexivity.
  assert (H4 : (Exact.alpha_max_lasso [[1; 3]] [1; 2] <= 7 # 2)%Q)
    by (vm_compute; discriminate).
  repeat (split; [assumption|]).
  exact (alpha_max_zero_optimal [[1; 3]%Q] [1; 2]%Q (7 # 2) [1%Q]
           H1 H2 H3 H4).
Defined.

Section ExactLassoBelow.
Local Open Scope Q_scope.
Import Exact.

Lemma length_onehot (j : nat) (v : Q) (k : nat) :
  (j < k)%nat -> length (onehot j v k) = k.
Proof.
  intros H. unfold onehot. rewrite length_app, repeat_length.
  cbn [length]. rewrite repeat_length. lia.
Qed.

Lemma dot_onehot (c : vec) (j : nat) (v x : Q) :
  c !! j = Some x -> dot (onehot j v (length c)) c == v * x.
Proof.
  revert c. induction j as [|j IH]; intros [|a c] Hj; try discriminate.
  - injection Hj as ->. unfold onehot. cbn [repeat app length].
    rewrite dot_cons, dot_zeros_l. ring.
  - cbn in Hj. specialize (IH c Hj). unfold onehot in *.
    cbn [repeat app length Nat.sub]. rewrite dot_cons, IH. ring.
Qed.

Lemma norm1_onehot (j : nat) (v : Q) (k : nat) :
  norm1 (onehot j v k) == Qabs v.
Proof.
  unfold onehot. generalize (k - S j)%nat. intros m.
  induction j as [|j IH]; unfold norm1 in *; cbn [repeat app map fold_right].
  - fold (norm1 (repeat 0 m)). rewrite norm1_zeros. ring.
  - rewrite IH. change (Qabs 0) with 0. ring.
Qed.

Lemma XTy_lookup (X : list vec) (y : vec) (j : nat) (col : vec) :
  X !! j = Some col -> XTy X y !! j = Some (dot col y).
Proof.
  revert j. induction X as [|a X IH]; intros [|j] H; try discriminate.
  - injection H as ->. reflexivity.
  - apply IH. exact H.
Qed.

Lemma norm_inf_attained (c : vec) :
  0 < norm_inf c ->
  exists (j : nat) (x : Q), c !! j = Some x /\ Qabs x == norm_inf c.
Proof.
  induction c as [|a c IH]; intros Hpos.
  - unfold norm_inf in Hpos. simpl in Hpos. lra.
  - rewrite norm_inf_cons in *.
    destruct (Q.max_spec (Qabs a) (norm_inf c)) as [[Hlt E]|[Hle E]].
    + destruct IH as (j & x & Hj & Hx); [lra|].
      exists (S j), x. split; [exact Hj|]. now rewrite E.
    + exists 0%nat, a. split; [reflexivity|]. now rewrite E.
Qed.

End ExactLassoBelow.

(** X22. In exact arithmetic and without centring, below the [alpha_max]
    of line 180 the all-zero vector no longer minimises the Lasso objective:
    for every penalty [0 <= alpha < alpha_max] some coefficient vector,
    non-zero in one coordinate, has a strictly smaller objective. *)
Theorem alpha_max_smallest (X : list Exact.vec) (y : Exact.vec) (alpha : Q) :
  (0 < length y)%nat ->
  Forall (fun col => length col = length y) X ->
  (0 <= alpha)%Q -> (alpha < Exact.alpha_max_lasso X y)%Q ->
  exists w : Exact.vec,
    length w = length X /\
    (Exact.lasso_objective X y alpha w
     < Exact.lasso_objective X y alpha (repeat 0%Q (length X)))%Q.
Proof.
  intros Hn HX Hal0 Hal.
  destruct (samples_pos y Hn) as (HN & Hv & Hi).
  unfold Exact.alpha_max_lasso, Qdiv in Hal.
  set (N := inject_Z (Z.of_nat (length y))) in *.
  set (c := Exact.XTy X y) in *.
  assert (HM : (0 < Exact.norm_inf c)%Q).
  { pose proof (norm_inf_nonneg c) as H0.
    destruct (Qlt_le_dec 0 (Exact.norm_inf c)) as [H|H]; [exact H|].
    assert (E : (Exact.norm_inf c == 0)%Q) by lra.
    rewrite E in Hal. lra. }
  destruct (norm_inf_attained c HM) as (j & x & Hj & Hx).
  assert (Hcol : exists col, X !! j = Some col /\ x = Exact.dot col y).
  { assert (Hlt : (j < length X)%nat).
    { apply lookup_lt_Some in Hj. unfold c, Exact.XTy in Hj.
      now rewrite length_map in Hj. }
    apply lookup_lt_is_Some in Hlt as [col Hcol]. exists col.
    split; [exact Hcol|].
    pose proof (XTy_lookup X y j col Hcol) as Hj'. fold c in Hj'.
    congruence. }
  destruct Hcol as (col & Hcol & Ex).
  assert (Lcol : length col = length y).
  { rewrite Forall_forall in HX. apply HX.
    eapply list_elem_of_lookup_2. eassumption. }
  assert (Hjlt : (j < length X)%nat) by (eapply lookup_lt_Some; eassumption).
  set (M := Exact.norm_inf c) in *.
  set (G := Exact.dot col col).
  pose proof (dot_self_nonneg col) as HG. fold G in HG.
  set (d := (M * / N - alpha)%Q).
  assert (Hd : (0 < d)%Q) by (unfold d; lra).
  assert (Hu : (0 < / (G + 1))%Q) by (apply Qinv_lt_0_compat; lra).
  set (t := (d * N * / (G + 1))%Q).
  assert (Ht : (0 < t)%Q).
  { unfold t. apply Qmult_lt_0_compat; [|exact Hu].
    apply Qmult_lt_0_compat; assumption. }
  set (vv := if Qlt_le_dec x 0 then (- t)%Q else t).
  assert (Hvx : (vv * x == t * M)%Q).
  { unfold vv. destruct (Qlt_le_dec x 0) as [Hneg|Hpos].
    - rewrite <- Hx, Qabs_neg by lra. ring.
    - rewrite <- Hx, Qabs_pos by lra. ring. }
  assert (Hvv : (vv * vv == t * t)%Q).
  { unfold vv. destruct (Qlt_le_dec x 0); ring. }
  assert (Hav : (Qabs vv == t)%Q).
  { unfold vv. destruct (Qlt_le_dec x 0).
    - rewrite Qabs_neg by lra. ring.
    - apply Qabs_pos. lra. }
  set (w := onehot j vv (length X)).
  exists w. split; [now apply length_onehot|].
  assert (Lc : length c = length X) by (unfold c, Exact.XTy; apply length_map).
  assert (HD : (Exact.dot w c == t * M)%Q).
  { unfold w. rewrite <- Lc, (dot_onehot c j vv x Hj). exact Hvx. }
  set (r := Exact.Xw X w (length y)).
  assert (Lr : length r = length y) by (unfold r; now apply Xw_length).
  assert (HA : (Exact.dot r r == t * t * G)%Q).
  { unfold r at 2.
    rewrite (dot_Xw X w r (length y)) by assumption.
    assert (Hjr : Exact.XTy X r !! j = Some (Exact.dot col r)).
    { now apply XTy_lookup. }
    unfold w at 1.
    replace (length X) with (length (Exact.XTy X r))
      by (unfold Exact.XTy; apply length_map).
    rewrite (dot_onehot _ j vv _ Hjr).
    unfold r. rewrite (dot_Xw X w col (length y)) by assumption.
    assert (Hjc : Exact.XTy X col !! j = Some (Exact.dot col col)).
    { now apply XTy_lookup. }
    unfold w.
    replace (length X) with (length (Exact.XTy X col))
      by (unfold Exact.XTy; apply length_map).
    rewrite (dot_onehot _ j vv _ Hjc). fold G.
    rewrite Qmult_assoc, Hvv. reflexivity. }
  rewrite objective_zeros, objective_expand by assumption.
  fold c. fold r. fold N. rewrite HD, HA. unfold w.
  rewrite norm1_onehot, Hav, Hi.
  assert (E : ((Exact.dot y y - 2 * (t * M) + t * t * G) * ((1 # 2) * / N)
               + alpha * t
               == Exact.dot y y * ((1 # 2) * / N)
                  - t * d * (1 + / (G + 1)) * (1 # 2))%Q).
  { unfold t, d. field. split; lra. }
  rewrite E.
  assert (Hpos : (0 < t * d * (1 + / (G + 1)))%Q).
  { apply Qmult_lt_0_compat; [apply Qmult_lt_0_compat; assumption | lra]. }
  lra.
Qed.

Lemma alpha_max_smallest_witness :
  (0 < length [1; 2]%Q)%nat /\
  Forall (fun col => length col = length [1; 2]%Q) [[1; 3]%Q] /\
  (0 <= 1)%Q /\ (1 < Exact.alpha_max_lasso [[1; 3]] [1; 2])%Q /\
  exists w : Exact.vec,
    length w = 1%nat /\
    (Exact.lasso_objective [[1; 3]] [1; 2] 1 w
     < Exact.lasso_objective [[1; 3]] [1; 2] 1 [0])%Q.
Proof.
  assert (H1 : (0 < length [1; 2]%Q)%nat) by (simpl; lia).
  assert (H2 : Forall (fun col => length col = length [1; 2]%Q) [[1; 3]%Q])
    by (repeat constructor).
  assert (H3 : (0 <= 1)%Q) by (vm_compute; discriminate).
  assert (H4 : (1 < Exact.alpha_max_lasso [[1; 3]] [1; 2])%Q)
    by reflexivity.
  repeat (split; [assumption|]).
  exact (alpha_max_smallest [[1; 3]%Q] [1; 2]%Q 1 H1 H2 H3 H4).
Defined.
